(** * redis-key-scanner: the scan-and-filter pipeline of [index.js]

    A shallow embedding of the [RedisKeyScanner] constructor: the validation
    of its options, the filter applied to every scanned key, and the
    event-driven scan controller, that is the handlers of the scan stream
    (['data'], ['end']), the callback of every pipelined metadata request,
    [endScan] with its [Promise.all], and the handler of the connection's
    ['error'] event.

    JavaScript objects used as maps ([options], the emitted records) are
    finite maps from property names to values.  The [const] bindings of the
    constructor's closure are a record [scan]; its [let] variables, the two
    [_.once] latches, the state of the stream and of the promises, and the
    list of what the scanner has emitted are a record [state] that every
    handler transforms.  A scan is a list of events handed to [dispatch].

    [parseCommandLineAndScanKeys] is embedded from the object that
    [minimist] returns on: the options it builds, its [try] block and what
    its three listeners print and how they exit.  The connection itself,
    the debug output and the parsing of [process.argv] are left out. *)

From stdpp Require Import numbers gmap strings list fin_maps.
From stdpp Require Import pretty.
From Stdlib Require Import ZArith Lia DecimalString Ascii.
From Stdlib Require Qcanon.

(** ** JavaScript values *)

Module JS.

(** Numbers are [NaN], the two infinities and the finite numbers, which
    are rationals: the counters and the replies of the store are integers,
    and an option may be any number, such as a limit of 2.5.  The scanner
    only compares numbers, so the rounding of floating point plays no
    part. *)
Inductive num := NaN | NegInf | Rat (q : Qcanon.Qc) | PosInf.

(** an integer as a number *)
Definition Fin (z : Z) : num := Rat (Qc_of_Z z).

Inductive value :=
  | VUndefined
  | VNull
  | VBool (b : bool)
  | VNum (n : num)
  | VStr (s : string).

#[global] Instance num_eq_dec : EqDecision num.
Proof. solve_decision. Defined.

#[global] Instance value_eq_dec : EqDecision value.
Proof. solve_decision. Defined.

(** What the language leaves to the host: conversions between strings and
    numbers. *)
Class Conversions := {
  StringToNumber : string → num;
  NumberToString : num → string;
}.

(** ToBoolean *)
Definition truthy (v : value) : bool :=
  match v with
  | VUndefined | VNull => false
  | VBool b => b
  | VNum NaN => false
  | VNum (Rat q) => negb (bool_decide (q = Qc_of_Z 0))
  | VNum _ => true
  | VStr EmptyString => false
  | VStr _ => true
  end.

(** [a || b] on values *)
Definition or_else (a b : value) : value := if truthy a then a else b.

Section coercions.
Context `{Conversions}.

Definition ToNumber (v : value) : num :=
  match v with
  | VUndefined => NaN
  | VNull => Fin 0
  | VBool b => Fin (if b then 1 else 0)
  | VNum n => n
  | VStr s => StringToNumber s
  end.

(** [Number(v)] *)
Definition Number (v : value) : value := VNum (ToNumber v).

(** the global [isNaN(v)] *)
Definition isNaN (v : value) : bool :=
  match ToNumber v with NaN => true | _ => false end.

(** ToString, for the primitives *)
Definition ToString (v : value) : string :=
  match v with
  | VUndefined => "undefined"
  | VNull => "null"
  | VBool true => "true"
  | VBool false => "false"
  | VNum n => NumberToString n
  | VStr s => s
  end.

(** one element of [Array.prototype.join]: [undefined] and [null] give
    the empty string *)
Definition join_item (v : value) : string :=
  match v with
  | VUndefined | VNull => ""
  | _ => ToString v
  end.

Definition join (sep : string) (vs : list value) : string :=
  match vs with
  | [] => ""
  | v :: rest =>
      foldl (λ acc w, acc +:+ sep +:+ join_item w) (join_item v) rest
  end.

(** The relational comparison [x < y] on numbers; [None] is the
    [undefined] a [NaN] operand gives. *)
Definition num_lt (x y : num) : option bool :=
  match x, y with
  | NaN, _ | _, NaN => None
  | Rat a, Rat b => Some (bool_decide (Qcanon.Qclt a b))
  | PosInf, _ => Some false
  | _, PosInf => Some true
  | _, NegInf => Some false
  | NegInf, _ => Some true
  end.

Definition string_lt (a b : string) : bool :=
  match String.compare a b with Lt => true | _ => false end.

(** [x < y]: two strings are compared as strings, anything else as
    numbers. *)
Definition lt (x y : value) : option bool :=
  match x, y with
  | VStr a, VStr b => Some (string_lt a b)
  | _, _ => num_lt (ToNumber x) (ToNumber y)
  end.

(** [x <= y] is "not (y < x)", and false when that is undefined *)
Definition le (x y : value) : bool :=
  match lt y x with Some false => true | _ => false end.

(** [x >= y] is "not (x < y)", and false when that is undefined *)
Definition ge (x y : value) : bool :=
  match lt x y with Some false => true | _ => false end.

(** [x === y] *)
Definition strict_eq (x y : value) : bool :=
  match x, y with
  | VNum NaN, _ | _, VNum NaN => false
  | _, _ => bool_decide (x = y)
  end.
End coercions.

End JS.

Import JS.

(** An object as a finite map from its own property names to values;
    [obj.k] of a missing property is [undefined]. *)
Abbreviation object := (gmap string value).

Definition prop (o : object) (k : string) : value :=
  default VUndefined (o !! k).

(** [_.has(o, k)] *)
Definition has (o : object) (k : string) : bool :=
  bool_decide (is_Some (o !! k)).

(** ** Failures of the constructor *)

Inductive TypeError :=
  | HostRequired
  | PortRequired
  | ExpectedTimeframe (opt : string)
  | MustBeNumber (opt : string)
  | UnsupportedOptions (opts : list string).

Inductive result (A : Type) :=
  | Ok (a : A)
  | Throw (e : TypeError).
Arguments Ok {A} a.
Arguments Throw {A} e.

Definition bind {A B} (r : result A) (k : A → result B) : result B :=
  match r with
  | Ok a => k a
  | Throw e => Throw e
  end.

Notation "x <- r ;; k" := (bind r (λ x, k))
  (at level 100, r at next level, right associativity).

(** [_.each(names, f)] where [f] may throw: the first throw ends the loop *)
Fixpoint each {A} (names : list string) (f : string → A → result A) (a : A)
  : result A :=
  match names with
  | [] => Ok a
  | opt :: rest => a' <- f opt a ;; each rest f a'
  end.

(** ** Options *)

(** The timeframe parser of the [timeframe-to-seconds] package: a string
    such as "1w" to a number of seconds, [NaN] when it is not a timeframe. *)
Class TimeframeParser := timeframeToSeconds : value → num.

Definition defaults : object :=
  {[ "debug" := VBool false;
     "db" := VNum (Fin 0);
     "pattern" := VStr "*";
     "redisPort" := VNum (Fin 6379);
     "sentinelPort" := VNum (Fin 26379);
     "scanBatch" := VNum (Fin 1000);
     "scanLimit" := VNum PosInf;
     "limit" := VNum PosInf ]}.

Definition supportedOptions : list string :=
  [ "host"; "port"; "redisMaster"; "db"; "scanBatch"; "scanLimit"; "limit";
    "maxIdle"; "maxTTL"; "minIdle"; "minTTL"; "noExpiry"; "pattern";
    "debug" ].

(** [_.omit(o, names)] and [_.pick(o, names)] *)
Definition omit (o : object) (names : list string) : object :=
  filter (λ kv, kv.1 ∉ names) o.

Definition pick (o : object) (names : list string) : list (string * value) :=
  omap (λ k, (λ v, (k, v)) <$> o !! k) names.

Section validation.
Context `{Conversions} `{TimeframeParser}.

(** the body of the loop over the four timeframe bounds *)
Definition timeframe_bound (opt : string) (options : object)
  : result object :=
  if has options opt then
    let options :=
      <[opt := VNum (timeframeToSeconds (prop options opt))]> options in
    if isNaN (prop options opt) then Throw (ExpectedTimeframe opt)
    else Ok options
  else Ok options.

(** the body of the loop over [scanBatch], [scanLimit] and [limit] *)
Definition numeric_option (opt : string) (options : object)
  : result object :=
  let options :=
    if negb (has options opt) then <[opt := prop defaults opt]> options
    else options in
  if isNaN (prop options opt) then Throw (MustBeNumber opt)
  else Ok options.

(** "Validate options": the options object as the constructor leaves it,
    or the [TypeError] it throws.  The names in "Unsupported option(s)"
    come in the order of the map, not in the order of insertion. *)
Definition validate (options : object) : result object :=
  if negb (truthy (prop options "host")) then Throw HostRequired else
  let options := <["port" := Number (prop options "port")]> options in
  if negb (truthy (prop options "port")) then Throw PortRequired else
  let options :=
    <["pattern" := or_else (prop options "pattern")
                     (prop defaults "pattern")]> options in
  options <- each ["maxIdle"; "maxTTL"; "minIdle"; "minTTL"]
               timeframe_bound options ;;
  options <- each ["scanBatch"; "scanLimit"; "limit"]
               numeric_option options ;;
  let unsupportedOptions :=
    (map_to_list (omit options supportedOptions)).*1 in
  if negb (length unsupportedOptions =? 0)%nat
  then Throw (UnsupportedOptions unsupportedOptions)
  else Ok options.
End validation.

(** ** The scanner *)

(** The commands queued on a pipeline *)
Inductive command :=
  | ObjectIdletime (key : string)
  | Ttl (key : string).

Inductive settlement := Pending | Fulfilled | Rejected.

#[global] Instance settlement_eq_dec : EqDecision settlement.
Proof. solve_decision. Defined.

(** One element of [pipelinePromises]: the promise
    [pipeline.exec().then(...)] of a page, with the page and the commands
    of its pipeline. *)
Record pipelinePromise := {
  batchKeys : list string;
  commands : list command;
  settled : settlement;
}.

(** What the scanner emits to its listeners *)
Inductive emission :=
  | EmitData (data : object)
  | EmitEnd
  | EmitError (err : value).

(** The constants of the constructor's closure *)
Record scan := {
  options : object;
  redisDescription : value;
  checkTTL : bool;
}.

(** Its variables, the two single-fire latches, the scan stream and the
    events emitted so far (oldest first).  [endScan] is [Some n] once the
    body of [endScan] has run, [n] being the length of [pipelinePromises]
    that [Promise.all] saw; [summarised] tells that the continuation of
    that [Promise.all] has run. *)
Record state := {
  atSelectLimit : bool;
  pipelinePromises : list pipelinePromise;
  streamKeysScanned : Z;
  streamKeysSelected : Z;
  endScan : option nat;
  summarised : bool;
  errored : bool;
  paused : bool;
  ended : bool;
  emitted : list emission;
}.

Definition initial : state :=
  {| atSelectLimit := false;
     pipelinePromises := [];
     streamKeysScanned := 0;
     streamKeysSelected := 0;
     endScan := None;
     summarised := false;
     errored := false;
     paused := false;
     ended := false;
     emitted := [] |}.

(** [self.emit(...)] *)
Definition emit (e : emission) (s : state) : state :=
  {| atSelectLimit := atSelectLimit s;
     pipelinePromises := pipelinePromises s;
     streamKeysScanned := streamKeysScanned s;
     streamKeysSelected := streamKeysSelected s;
     endScan := endScan s;
     summarised := summarised s;
     errored := errored s;
     paused := paused s;
     ended := ended s;
     emitted := emitted s ++ [e] |}.

(** [RedisKeyScanner.prototype.write] and [RedisKeyScanner.prototype.end] *)
Definition write (data : object) : state → state := emit (EmitData data).
Definition end_ : state → state := emit EmitEnd.

Definition set_pipelinePromises (ps : list pipelinePromise) (s : state)
  : state :=
  {| atSelectLimit := atSelectLimit s;
     pipelinePromises := ps;
     streamKeysScanned := streamKeysScanned s;
     streamKeysSelected := streamKeysSelected s;
     endScan := endScan s;
     summarised := summarised s;
     errored := errored s;
     paused := paused s;
     ended := ended s;
     emitted := emitted s |}.

(** the promise of page [i] settles *)
Definition settle (i : nat) (how : settlement) (s : state) : state :=
  set_pipelinePromises
    (alter (λ p, {| batchKeys := batchKeys p;
                    commands := commands p;
                    settled := how |}) i (pipelinePromises s)) s.

Section scanner.
Context `{Conversions} `{TimeframeParser}.

(** The constructor up to "Initiate scan": the closure's constants, or
    the [TypeError] thrown. *)
Definition RedisKeyScanner (options : object) : result scan :=
  options <- validate options ;;
  let server := pick options ["host"; "port"] in
  let redisDescription :=
    if truthy (prop options "redisMaster") then prop options "redisMaster"
    else VStr (join ":" server.*2) in
  let checkTTL := existsb (has options) ["noExpiry"; "maxTTL"; "minTTL"] in
  Ok {| options := options;
        redisDescription := redisDescription;
        checkTTL := checkTTL |}.

Section handlers.
Variable c : scan.

(** The bounds of the filter, as in the condition of the [if] (all but
    its first conjunct [!atSelectLimit]). *)
Definition selects (idletime ttl : value) : bool :=
  (isNaN (prop (options c) "maxIdle")
     || le idletime (prop (options c) "maxIdle"))
  && (isNaN (prop (options c) "maxTTL")
        || le ttl (prop (options c) "maxTTL"))
  && (isNaN (prop (options c) "minIdle")
        || ge idletime (prop (options c) "minIdle"))
  && (isNaN (prop (options c) "minTTL")
        || ge ttl (prop (options c) "minTTL"))
  && (negb (has (options c) "noExpiry")
        || (truthy (prop (options c) "noExpiry")
              && strict_eq ttl (VNum (Fin (-1))))).

Definition entry (key : string) (idletime ttl : value) : object :=
  let entry : object :=
    {[ "name" := redisDescription c;
       "key" := VStr key;
       "idletime" := idletime ]} in
  if checkTTL c then <["ttl" := ttl]> entry else entry.

(** The body of the [if]: count the key, update [atSelectLimit], emit
    the entry. *)
Definition select (key : string) (idletime ttl : value) (s : state)
  : state :=
  let selected := (streamKeysSelected s + 1)%Z in
  write (entry key idletime ttl)
    {| atSelectLimit :=
         ge (VNum (Fin selected)) (prop (options c) "limit");
       pipelinePromises := pipelinePromises s;
       streamKeysScanned := streamKeysScanned s;
       streamKeysSelected := selected;
       endScan := endScan s;
       summarised := summarised s;
       errored := errored s;
       paused := paused s;
       ended := ended s;
       emitted := emitted s |}.

(** [_.each(batchKeys, (key, i) => ...)] from index [i] on, where
    [results] holds the [[err, value]] pairs of the replies.  The flag
    is false when the callback throws: reading [[1]] of a missing
    element of [results] is a TypeError, which leaves the loop with
    the keys before it already examined. *)
Fixpoint examine (results : list (value * value)) (i : nat)
    (keys : list string) (s : state) : state * bool :=
  match keys with
  | [] => (s, true)
  | key :: rest =>
      let idleIdx := if checkTTL c then (i * 2)%nat else i in
      match results !! idleIdx with
      | None => (s, false)
      | Some idle =>
          let idletime := idle.2 in
          let ttl :=
            if checkTTL c then snd <$> results !! (idleIdx + 1)%nat
            else Some (VBool false) in
          match ttl with
          | None => (s, false)
          | Some ttl =>
              examine results (S i) rest
                (if negb (atSelectLimit s) && selects idletime ttl
                 then select key idletime ttl s
                 else s)
          end
      end
  end.

(** The body of [endScan], behind its [_.once]: [Promise.all] takes the
    promises pushed so far. *)
Definition call_endScan (s : state) : state :=
  match endScan s with
  | Some _ => s
  | None =>
      {| atSelectLimit := atSelectLimit s;
         pipelinePromises := pipelinePromises s;
         streamKeysScanned := streamKeysScanned s;
         streamKeysSelected := streamKeysSelected s;
         endScan := Some (length (pipelinePromises s));
         summarised := summarised s;
         errored := errored s;
         paused := paused s;
         ended := ended s;
         emitted := emitted s |}
  end.

(** [_.extend({keysScanned, keysSelected}, options)]: the properties of
    [options] are copied over the two counters. *)
Definition summary (s : state) : object :=
  options c ∪
    {[ "keysScanned" := VNum (Fin (streamKeysScanned s));
       "keysSelected" := VNum (Fin (streamKeysSelected s)) ]}.

(** The continuation of [Promise.all(pipelinePromises)]: it runs, once,
    when [endScan] has been called and every promise it was given is
    fulfilled; a rejected one rejects the [Promise.all], and the
    continuation never runs. *)
Definition all_fulfilled (n : nat) (s : state) : bool :=
  forallb (λ p, bool_decide (settled p = Fulfilled))
    (take n (pipelinePromises s)).

Definition continuation (s : state) : state :=
  match endScan s with
  | Some n =>
      if negb (summarised s) && all_fulfilled n s then
        end_ (write (summary s)
          {| atSelectLimit := atSelectLimit s;
             pipelinePromises := pipelinePromises s;
             streamKeysScanned := streamKeysScanned s;
             streamKeysSelected := streamKeysSelected s;
             endScan := endScan s;
             summarised := true;
             errored := errored s;
             paused := paused s;
             ended := ended s;
             emitted := emitted s |})
      else s
  | None => s
  end.

(** [scanStream.on('data', ...)] *)
Definition pipeline (keys : list string) : list command :=
  flat_map
    (λ key, ObjectIdletime key :: (if checkTTL c then [Ttl key] else []))
    keys.

Definition on_data (keys : list string) (s : state) : state :=
  let scanned := (streamKeysScanned s + Z.of_nat (length keys))%Z in
  let s :=
    {| atSelectLimit := atSelectLimit s;
       pipelinePromises :=
         pipelinePromises s ++
           [{| batchKeys := keys;
               commands := pipeline keys;
               settled := Pending |}];
       streamKeysScanned := scanned;
       streamKeysSelected := streamKeysSelected s;
       endScan := endScan s;
       summarised := summarised s;
       errored := errored s;
       paused := paused s;
       ended := ended s;
       emitted := emitted s |} in
  if atSelectLimit s
     || ge (VNum (Fin (streamKeysScanned s))) (prop (options c) "scanLimit")
  then
    call_endScan
      {| atSelectLimit := atSelectLimit s;
         pipelinePromises := pipelinePromises s;
         streamKeysScanned := streamKeysScanned s;
         streamKeysSelected := streamKeysSelected s;
         endScan := endScan s;
         summarised := summarised s;
         errored := errored s;
         paused := true;
         ended := ended s;
         emitted := emitted s |}
  else s.

(** [scanStream.on('end', endScan)] *)
Definition on_end (s : state) : state :=
  call_endScan
    {| atSelectLimit := atSelectLimit s;
       pipelinePromises := pipelinePromises s;
       streamKeysScanned := streamKeysScanned s;
       streamKeysSelected := streamKeysSelected s;
       endScan := endScan s;
       summarised := summarised s;
       errored := errored s;
       paused := paused s;
       ended := true;
       emitted := emitted s |}.

(** the callback given to [pipeline.exec().then] for page [i] *)
Definition on_results (i : nat) (keys : list string)
    (results : list (value * value)) (s : state) : state :=
  let '(s, returned) := examine results 0 keys s in
  settle i (if returned then Fulfilled else Rejected) s.

(** [redis.on('error', _.once(...))] *)
Definition on_error (err : value) (s : state) : state :=
  if errored s then s
  else
    emit (EmitError err)
      {| atSelectLimit := atSelectLimit s;
         pipelinePromises := pipelinePromises s;
         streamKeysScanned := streamKeysScanned s;
         streamKeysSelected := streamKeysSelected s;
         endScan := endScan s;
         summarised := summarised s;
         errored := true;
         paused := paused s;
         ended := ended s;
         emitted := emitted s |}.
End handlers.

(** ** The scan as a run of events

    What the world outside the constructor does: the scan stream hands
    over a page or ends, a pipeline's [exec()] is fulfilled with its
    replies or rejected, the connection reports an error. *)
Inductive event :=
  | StreamData (keys : list string)
  | StreamEnd
  | ExecFulfilled (i : nat) (results : list (value * value))
  | ExecRejected (i : nat)
  | RedisError (err : value).

Definition pending (i : nat) (s : state) : option pipelinePromise :=
  p ← pipelinePromises s !! i;
  if bool_decide (settled p = Pending) then Some p else None.

(** One event: [None] when the event cannot happen in this state (a
    paused or ended stream hands over no page, a stream ends once, a
    promise settles once).  The stream may signal its end after it was
    paused.  The continuation of [Promise.all] is a job of the same turn
    of the event loop, so it runs before the next event. *)
Definition dispatch (c : scan) (e : event) (s : state) : option state :=
  continuation c <$>
    match e with
    | StreamData keys =>
        if paused s || ended s then None else Some (on_data c keys s)
    | StreamEnd =>
        if ended s then None else Some (on_end s)
    | ExecFulfilled i results =>
        p ← pending i s; Some (on_results c i (batchKeys p) results s)
    | ExecRejected i =>
        _ ← pending i s; Some (settle i Rejected s)
    | RedisError err => Some (on_error err s)
    end.

Fixpoint run (c : scan) (events : list event) (s : state) : option state :=
  match events with
  | [] => Some s
  | e :: rest => s' ← dispatch c e s; run c rest s'
  end.

(** A whole scan: construct, then react to the events. *)
Definition scanning (options : object) (events : list event)
  : option (scan * state) :=
  match RedisKeyScanner options with
  | Ok c => (λ s, (c, s)) <$> run c events initial
  | Throw _ => None
  end.
End scanner.

(** ** Reading a scan

    The records of the emitted ['data'] events, the errors emitted, and the
    pages the scan stream handed over. *)

Definition data (es : list emission) : list object :=
  omap (λ e, match e with EmitData d => Some d | _ => None end) es.

Definition errors (es : list emission) : list value :=
  omap (λ e, match e with EmitError err => Some err | _ => None end) es.

Definition is_error (e : emission) : bool :=
  match e with EmitError _ => true | _ => false end.

(** everything emitted but the errors, in order *)
Definition signals (es : list emission) : list emission :=
  filter (λ e, is_error e = false) es.

(** A summary record carries [keysScanned]; the record of a selected key
    carries [key]. *)
Definition is_summary (d : object) : bool := has d "keysScanned".
Definition is_selected_key (d : object) : bool := has d "key".

Definition pages (events : list event) : list (list string) :=
  omap (λ e, match e with StreamData keys => Some keys | _ => None end)
    events.

Definition total (pages : list (list string)) : Z :=
  foldr (λ page n, (Z.of_nat (length page) + n)%Z) 0%Z pages.

(** The order of the numbers, false on [NaN] *)
Definition num_le (x y : num) : Prop :=
  match x, y with
  | NaN, _ | _, NaN => False
  | NegInf, _ | _, PosInf => True
  | Rat a, Rat b => Qcanon.Qcle a b
  | _, _ => False
  end.

(** ** A host to run examples on

    Decimal integers for the conversions, and timeframes of the form
    "<number><unit>" with the units of the usage text. *)

Definition decimal (s : string) : num :=
  match s with
  | EmptyString => Fin 0
  | _ =>
      match NilEmpty.int_of_string s with
      | Some d => Fin (Z.of_int d)
      | None => NaN
      end
  end.

Definition print_number (n : num) : string :=
  match n with
  | NaN => "NaN"
  | NegInf => "-Infinity"
  | PosInf => "Infinity"
  | Rat q =>
      let q := Qcanon.this q in
      if bool_decide (QArith_base.Qden q = 1%positive)
      then pretty (QArith_base.Qnum q)
      else pretty (QArith_base.Qnum q) +:+ "/"
           +:+ pretty (Z.pos (QArith_base.Qden q))
  end.

Definition example_conversions : Conversions :=
  {| StringToNumber := decimal; NumberToString := print_number |}.

Fixpoint split_unit (s : string) : option (string * ascii) :=
  match s with
  | EmptyString => None
  | String a EmptyString => Some (EmptyString, a)
  | String a rest => (λ p, (String a p.1, p.2)) <$> split_unit rest
  end.

Definition unit_seconds (u : ascii) : option Z :=
  if decide (u = "s"%char) then Some 1%Z
  else if decide (u = "m"%char) then Some 60%Z
  else if decide (u = "h"%char) then Some 3600%Z
  else if decide (u = "d"%char) then Some 86400%Z
  else if decide (u = "w"%char) then Some 604800%Z
  else None.

Definition example_timeframes : TimeframeParser := λ v,
  match v with
  | VNum n => n
  | VStr s =>
      match split_unit s with
      | Some (digits, u) =>
          match NilEmpty.uint_of_string digits, unit_seconds u with
          | Some d, Some k => Fin (Z.of_uint d * k)
          | _, _ => NaN
          end
      | None => NaN
      end
  | _ => NaN
  end.

(** a server on localhost, and a reply of the store *)
Definition localhost : object :=
  {[ "host" := VStr "localhost"; "port" := VStr "6379" ]}.

Definition reply (z : Z) : value * value := (VNull, VNum (Fin z)).

(** ** What the claims speak of *)

Definition timeframes : list string :=
  ["maxIdle"; "maxTTL"; "minIdle"; "minTTL"].

(** What validation leaves of the options: a timeframe bound is absent or a
    number that is not [NaN], and no option is unsupported. *)
Record validated (o : object) : Prop := {
  bounds_numbers : ∀ k, k ∈ timeframes →
    o !! k = None ∨ ∃ n, n ≠ NaN ∧ o !! k = Some (VNum n);
  only_supported : ∀ k, is_Some (o !! k) → k ∈ supportedOptions;
}.

Definition number_or_absent (x : option value) : Prop :=
  x = None ∨ ∃ n, n ≠ NaN ∧ x = Some (VNum n).

(** The four bounds on a key whose idle time and ttl are integers: a bound
    that is configured holds. *)
Definition bounds_hold (o : object) (idletime ttl : Z) : Prop :=
  (∀ n, o !! "maxIdle" = Some (VNum n) → num_le (Fin idletime) n)
  ∧ (∀ n, o !! "maxTTL" = Some (VNum n) → num_le (Fin ttl) n)
  ∧ (∀ n, o !! "minIdle" = Some (VNum n) → num_le n (Fin idletime))
  ∧ (∀ n, o !! "minTTL" = Some (VNum n) → num_le n (Fin ttl)).

(** The filter as the specification words it: the four bounds, and a ttl
    of -1 when [noExpiry] is configured. *)
Definition spec_select (o : object) (idletime ttl : Z) : Prop :=
  bounds_hold o idletime ttl
  ∧ (is_Some (o !! "noExpiry") → ttl = (-1)%Z).

Definition fulfilled (p : pipelinePromise) : Prop := settled p = Fulfilled.

(** a promise of the scan is rejected: [exec()] failed, or the callback
    threw *)
Definition rejected (s : state) : Prop :=
  ∃ p, p ∈ pipelinePromises s ∧ settled p = Rejected.

(** The scan has completed without error: the stream has signalled its end
    or a limit has paused it, and the promise of every page is fulfilled. *)
Definition completed (events : list event) (s : state) : Prop :=
  (StreamEnd ∈ events ∨ paused s = true)
  ∧ Forall fulfilled (pipelinePromises s).

Definition selected_keys (es : list emission) : list object :=
  filter (λ d, is_selected_key d = true) (data es).

Definition summaries (es : list emission) : list object :=
  filter (λ d, is_summary d = true) (data es).

(** *** The invariant of the controller *)

(** what examining a page leaves as it was *)
Definition same_controller (s s' : state) : Prop :=
  pipelinePromises s' = pipelinePromises s
  ∧ streamKeysScanned s' = streamKeysScanned s
  ∧ endScan s' = endScan s
  ∧ summarised s' = summarised s
  ∧ errored s' = errored s
  ∧ paused s' = paused s
  ∧ ended s' = ended s.

Definition entries_of (c : scan) (ds : list object) : Prop :=
  Forall (λ d, ∃ key idletime ttl, d = entry c key idletime ttl) ds.

(** What holds after every handler: the counter of scanned keys is the
    total of the pages; [endScan] saw every promise and the stream hands
    over nothing more; the summary was written only after [endScan] and
    with every promise fulfilled; the scanner emitted the entries of the
    selected keys and then, once, the summary and ['end']; it emitted one
    error at most; every pipeline holds the commands of its page. *)
Record coherent (c : scan) (s : state) : Prop := {
  scanned_total :
    streamKeysScanned s = total (batchKeys <$> pipelinePromises s);
  endScan_sees_all : ∀ n, endScan s = Some n →
    n = length (pipelinePromises s) ∧ (paused s = true ∨ ended s = true);
  summarised_then : summarised s = true →
    is_Some (endScan s) ∧ Forall fulfilled (pipelinePromises s);
  emitted_order : ∃ entries,
    signals (emitted s)
      = (EmitData <$> entries)
          ++ (if summarised s then [EmitData (summary c s); EmitEnd] else [])
    ∧ entries_of c entries
    ∧ Z.of_nat (length entries) = streamKeysSelected s;
  one_error : length (errors (emitted s)) = if errored s then 1 else 0;
  queued :
    Forall (λ p, commands p = pipeline c (batchKeys p)) (pipelinePromises s);
}.

(** ... and between two events the summary has been written as soon as it
    could be. *)
Definition consistent (c : scan) (s : state) : Prop :=
  coherent c s
  ∧ (is_Some (endScan s) → Forall fulfilled (pipelinePromises s) →
     summarised s = true).

Definition within_limit (L : Z) (s : state) : Prop :=
  (0 ≤ streamKeysSelected s ≤ L)%Z
  ∧ (atSelectLimit s = true ↔ (L ≤ streamKeysSelected s)%Z).

(** ** The options of the command line *)

(** [_.pickBy(o, keep)] *)
Definition pickBy (o : object) (keep : value → bool) : object :=
  filter (λ kv, keep kv.2 = true) o.

(** [v => !_.isNaN(v) && !_.isUndefined(v) && v !== false] *)
Definition given (v : value) : bool :=
  negb (bool_decide (v = VNum NaN))
  && negb (bool_decide (v = VUndefined))
  && negb (strict_eq v (VBool false)).

(** The options [parseCommandLineAndScanKeys] builds from the parsed
    arguments; [host], [port] and [redisMaster] are what it reads off the
    positional arguments. *)
Definition command_line_options (args : object)
    (host port redisMaster : value) : object :=
  pickBy
    (list_to_map
     [ ("debug", VBool (truthy (prop args "debug")));
       ("host", host);
       ("port", port);
       ("redisMaster", or_else redisMaster (VBool false));
       ("db", or_else (prop args "db") (prop defaults "db"));
       ("scanBatch",
        or_else (prop args "scan-batch") (prop defaults "scanBatch"));
       ("scanLimit",
        or_else (prop args "scan-limit") (prop defaults "scanLimit"));
       ("limit", or_else (prop args "limit") (prop defaults "limit"));
       ("maxIdle", prop args "max-idle");
       ("maxTTL", prop args "max-ttl");
       ("minIdle", prop args "min-idle");
       ("minTTL", prop args "min-ttl");
       ("noExpiry", VBool (strict_eq (prop args "expiry") (VBool false)));
       ("pattern", or_else (prop args "pattern") (VStr "*")) ])
    given.

(** ** What the further properties speak of *)

Definition numerics : list string := ["scanBatch"; "scanLimit"; "limit"].

(** every timeframe bound that is present is a timeframe, every numeric
    option that is present is a number *)
Definition timeframes_parse `{TimeframeParser} (o : object) : Prop :=
  ∀ k, k ∈ timeframes → is_Some (o !! k) →
    timeframeToSeconds (prop o k) ≠ NaN.

Definition numerics_are_numbers `{Conversions} (o : object) : Prop :=
  ∀ k, k ∈ numerics → is_Some (o !! k) → isNaN (prop o k) = false.

(** the connection errors among the events *)
Definition redis_errors (events : list event) : list value :=
  omap (λ e, match e with RedisError err => Some err | _ => None end) events.

(** the number of commands a pipeline queues for one key *)
Definition width (c : scan) : nat := if checkTTL c then 2 else 1.

(** the number of keys of the pages whose promise has settled *)
Definition examined (ps : list pipelinePromise) : Z :=
  total (batchKeys <$> filter (λ p, settled p ≠ Pending) ps).

(** the data records that are not a summary *)
Definition key_records (es : list emission) : list object :=
  filter (λ d, is_summary d = false) (data es).

Section callback.
Context `{Conversions} `{TimeframeParser}.
Variable c : scan.

(** the values the callback reads for key number [i] of a page: the idle
    time, and the ttl or [false] *)
Definition replies_of (results : list (value * value)) (i : nat)
  : option (value * value) :=
  let idleIdx := if checkTTL c then (i * 2)%nat else i in
  idle ← results !! idleIdx;
  ttl ← (if checkTTL c then snd <$> results !! (idleIdx + 1)%nat
         else Some (VBool false));
  Some (idle.2, ttl).

(** the entries of the keys of a page that pass the filter, from key
    number [i] on and up to the first key whose replies are missing *)
Fixpoint matching (results : list (value * value)) (i : nat)
    (keys : list string) : list object :=
  match keys with
  | [] => []
  | key :: rest =>
      match replies_of results i with
      | Some (idletime, ttl) =>
          (if selects c idletime ttl then [entry c key idletime ttl] else [])
          ++ matching results (S i) rest
      | None => []
      end
  end.

(** what the loop makes of the matching entries: none once [atSelectLimit]
    is set, which every selection recomputes *)
Fixpoint chosen (flag : bool) (selected : Z) (ms : list object)
  : list object :=
  match ms with
  | [] => []
  | m :: rest =>
      if flag then []
      else m :: chosen (ge (VNum (Fin (selected + 1)))
                          (prop (options c) "limit"))
                  (selected + 1)%Z rest
  end.

(** what an event makes the scanner emit, the summary apart *)
Definition fresh (e : event) (s : state) : list emission :=
  match e with
  | ExecFulfilled i results =>
      match pending i s with
      | Some p =>
          EmitData <$> chosen (atSelectLimit s) (streamKeysSelected s)
                         (matching results 0 (batchKeys p))
      | None => []
      end
  | RedisError err => if errored s then [] else [EmitError err]
  | _ => []
  end.
End callback.

(** ** The command line *)

(** [s.split(sep)] for a separator of one character *)
Fixpoint split (sep : ascii) (s : string) : list string :=
  match s with
  | EmptyString => [EmptyString]
  | String a rest =>
      if decide (a = sep) then EmptyString :: split sep rest
      else match split sep rest with
           | part :: parts => String a part :: parts
           | [] => [String a EmptyString]
           end
  end.

Definition supportedArgs : list string :=
  [ "_"; "expiry"; "limit"; "max-idle"; "max-ttl"; "min-idle"; "min-ttl";
    "pattern"; "scan-batch"; "scan-limit"; "db"; "debug" ].

(** [hostPort]: the number 0 when there is no positional argument, the
    parts of the first one otherwise *)
Inductive host_port :=
  | NoArgument
  | Parts (parts : list string).

(** [args._.length && args._[0].split(':')]; [None] when the first
    positional argument is not a string and has no [split] to call, a
    TypeError outside the [try] *)
Definition hostPort (positional : list value) : option host_port :=
  match positional with
  | [] => Some NoArgument
  | VStr s :: _ => Some (Parts (split ":" s))
  | _ :: _ => None
  end.

(** [hostPort.length && hostPort[0]] *)
Definition host_of (hp : host_port) : value :=
  match hp with
  | NoArgument => VUndefined
  | Parts [] => VNum (Fin 0)
  | Parts (part :: _) => VStr part
  end.

(** [hostPort.length > 1 ? hostPort[1] : defaultPort] *)
Definition port_of (hp : host_port) (defaultPort : value) : value :=
  match hp with
  | Parts (_ :: part :: _) => VStr part
  | _ => defaultPort
  end.

(** [args._.length > 1 && args._[1]] *)
Definition master_of (positional : list value) : value :=
  match positional with
  | _ :: master :: _ => master
  | _ => VBool false
  end.

Inductive exception :=
  | UnsupportedArgs (args : list string)
  | Thrown (e : TypeError).

(** How [parseCommandLineAndScanKeys] comes out: an exception outside
    the [try]; the [catch] branch, which prints the exception and the
    usage text and exits with code 1; or a scanner with its three
    listeners. *)
Inductive started :=
  | Uncaught
  | Usage (ex : exception)
  | Listening (c : scan).

Section command_line.
Context `{Conversions} `{TimeframeParser}.

(** the [try] block and its [catch] *)
Definition try_scan (unsupportedArgs : list string) (options : object)
  : started :=
  if negb (length unsupportedArgs =? 0)%nat
  then Usage (UnsupportedArgs unsupportedArgs)
  else
    match RedisKeyScanner options with
    | Ok c => Listening c
    | Throw e => Usage (Thrown e)
    end.

(** [positional] is [args._], and [args] holds the other properties of
    the object that [minimist] returns *)
Definition parseCommandLineAndScanKeys (positional : list value)
    (args : object) : started :=
  match hostPort positional with
  | None => Uncaught
  | Some hostPort =>
      let redisMaster := master_of positional in
      let usingSentinel := truthy redisMaster in
      let defaultPort :=
        prop defaults (if usingSentinel then "sentinelPort"
                       else "redisPort") in
      let options :=
        command_line_options args (host_of hostPort)
          (port_of hostPort defaultPort) redisMaster in
      let unsupportedArgs := (map_to_list (omit args supportedArgs)).*1 in
      try_scan unsupportedArgs options
  end.
End command_line.



(** the value of a result that is known to be one *)
Definition the {A} (r : result A) (d : A) : A :=
  match r with Ok a => a | Throw _ => d end.

Definition is_Ok {A} (r : result A) : bool :=
  match r with Ok _ => true | Throw _ => false end.

(** ** Options and replies of the examples *)

Definition week_idle : object := <["minIdle" := VStr "1w"]> localhost.
Definition no_expiry : object := <["noExpiry" := VBool true]> localhost.
Definition no_expiry_false : object :=
  <["noExpiry" := VBool false]> localhost.
Definition no_expiry_week_idle : object :=
  <["minIdle" := VStr "1w"]> no_expiry.
Definition max_ttl_hour : object := <["maxTTL" := VStr "1h"]> localhost.
Definition limit_one : object := <["limit" := VNum (Fin 1)]> localhost.

(** the replies for a key when its ttl is fetched too *)
Definition replies (idletime ttl : Z) : list (value * value) :=
  [reply idletime; reply ttl].

Definition limit_two_and_a_half : object :=
  <["limit" := VNum (Rat (Qcanon.Q2Qc (QArith_base.Qmake 5 2)))]> localhost.
Definition limit_zero : object := <["limit" := VNum (Fin 0)]> localhost.
Definition limit_abc : object := <["limit" := VStr "abc"]> localhost.

(** the scan of an example and the state that its events lead to *)
Definition no_scan : scan :=
  {| options := ∅; redisDescription := VUndefined; checkTTL := false |}.

Definition example_scan (raw : object) : scan :=
  the (@RedisKeyScanner example_conversions example_timeframes raw) no_scan.

Definition example_run (raw : object) (events : list event) : state :=
  default initial
    (@run example_conversions (example_scan raw) events initial).

Definition no_promise : pipelinePromise :=
  {| batchKeys := []; commands := []; settled := Pending |}.

(** the scanner that the command line has started *)
Definition listening (st : started) : scan :=
  match st with Listening c => c | _ => no_scan end.

Definition is_Listening (st : started) : bool :=
  match st with Listening _ => true | _ => false end.

Ltac evaluate := vm_compute; reflexivity.

(** [k ∈ timeframes] for one of the four names *)
Ltac timeframe := unfold timeframes; rewrite !elem_of_cons; auto 10.

(** * Proofs *)

(** ** Validation *)

Section validation_facts.
Context `{Conversions} `{TimeframeParser}.

Lemma bind_Ok {A B} (r : result A) (k : A → result B) b :
  bind r k = Ok b → ∃ a, r = Ok a ∧ k a = Ok b.
Proof. destruct r; simpl; [eauto | discriminate]. Qed.

Lemma each_frame (f : string → object → result object) names o o' k :
  (∀ opt a a', f opt a = Ok a' → ∀ j, j ≠ opt → a' !! j = a !! j) →
  each names f o = Ok o' → k ∉ names → o' !! k = o !! k.
Proof.
  intros Hf. revert o.
  induction names as [|opt names IH]; simpl; intros o Ho Hk.
  - by inversion Ho.
  - apply bind_Ok in Ho as (a & Ha & Ho).
    apply not_elem_of_cons in Hk as [Hne Hk].
    rewrite (IH a Ho Hk). by apply (Hf _ _ _ Ha).
Qed.

Lemma each_establish (f : string → object → result object)
    (Q : option value → Prop) names o o' k :
  (∀ opt a a', f opt a = Ok a' → ∀ j, j ≠ opt → a' !! j = a !! j) →
  (∀ opt a a', f opt a = Ok a' → Q (a' !! opt)) →
  NoDup names → each names f o = Ok o' → k ∈ names → Q (o' !! k).
Proof.
  intros Hframe HQ. revert o.
  induction names as [|opt names IH]; simpl; intros o Hnd Ho Hk.
  - by apply elem_of_nil in Hk.
  - apply bind_Ok in Ho as (a & Ha & Ho).
    apply NoDup_cons in Hnd as [Hopt Hnd].
    destruct (decide (k = opt)) as [->|Hne].
    + rewrite (each_frame f names a o' opt Hframe Ho Hopt). eauto.
    + apply (IH a Hnd Ho). by apply elem_of_cons in Hk as [?|?].
Qed.

Lemma timeframe_bound_frame opt o o' :
  timeframe_bound opt o = Ok o' → ∀ j, j ≠ opt → o' !! j = o !! j.
Proof.
  unfold timeframe_bound. intros Ho j Hj.
  destruct (has o opt); [|by inversion Ho].
  destruct (isNaN _); [discriminate|]. inversion Ho.
  by rewrite lookup_insert_ne.
Qed.

Lemma timeframe_bound_number opt o o' :
  timeframe_bound opt o = Ok o' →
  o' !! opt = None ∨ ∃ n, n ≠ NaN ∧ o' !! opt = Some (VNum n).
Proof.
  unfold timeframe_bound. intros Ho.
  destruct (has o opt) eqn:Hhas.
  - destruct (isNaN _) eqn:Hnan; [discriminate|]. inversion Ho.
    right. exists (timeframeToSeconds (prop o opt)).
    rewrite lookup_insert_eq. split; [|done].
    intros Hn. unfold isNaN in Hnan. unfold prop at 1 in Hnan.
    rewrite lookup_insert_eq in Hnan. simpl in Hnan. by rewrite Hn in Hnan.
  - inversion Ho; subst. left.
    unfold has in Hhas. apply bool_decide_eq_false in Hhas.
    by apply eq_None_not_Some.
Qed.

Lemma numeric_option_frame opt o o' :
  numeric_option opt o = Ok o' → ∀ j, j ≠ opt → o' !! j = o !! j.
Proof.
  unfold numeric_option. intros Ho j Hj.
  destruct (isNaN _); [discriminate|]. inversion Ho.
  destruct (negb _); [by rewrite lookup_insert_ne | done].
Qed.

Lemma omit_nothing (o : object) names :
  length (map_to_list (omit o names)).*1 = 0 →
  ∀ k, is_Some (o !! k) → k ∈ names.
Proof.
  rewrite length_fmap. intros Hlen k [v Hv].
  apply length_zero_iff_nil, map_to_list_empty_iff in Hlen.
  destruct (decide (k ∈ names)) as [|Hk]; [done|].
  assert (omit o names !! k = Some v) as Hin.
  { unfold omit. apply map_lookup_filter_Some. done. }
  rewrite Hlen in Hin. by rewrite lookup_empty in Hin.
Qed.

Lemma validate_Ok raw o : validate raw = Ok o → validated o.
Proof.
  unfold validate. intros Ho.
  destruct (negb (truthy (prop raw "host"))); [discriminate|].
  destruct (negb (truthy (prop (<["port":=_]> raw) "port"))); [discriminate|].
  apply bind_Ok in Ho as (o1 & Ho1 & Ho).
  apply bind_Ok in Ho as (o2 & Ho2 & Ho).
  destruct (negb (_ =? 0)) eqn:Hlen; [discriminate|]. inversion Ho; subst o2.
  apply negb_false_iff, Nat.eqb_eq in Hlen.
  split.
  - intros k Hk.
    rewrite (each_frame _ _ _ _ k numeric_option_frame Ho2).
    + eapply (each_establish timeframe_bound
               (λ x, x = None ∨ ∃ n, n ≠ NaN ∧ x = Some (VNum n)));
        [ apply timeframe_bound_frame | apply timeframe_bound_number
        | | exact Ho1 | exact Hk ].
      apply (bool_decide_unpack _). by vm_compute.
    + unfold timeframes in Hk. intros Hk'.
      repeat (apply elem_of_cons in Hk as [->|Hk];
              [by repeat (apply elem_of_cons in Hk' as [?|Hk']; [done|]);
                  apply elem_of_nil in Hk'|]).
      by apply elem_of_nil in Hk.
  - by apply omit_nothing.
Qed.

Lemma timeframe_bound_presence opt o o' j :
  timeframe_bound opt o = Ok o' → is_Some (o' !! j) ↔ is_Some (o !! j).
Proof.
  intros Ho. destruct (decide (j = opt)) as [->|Hne].
  - unfold timeframe_bound in Ho. destruct (has o opt) eqn:Hhas.
    + destruct (isNaN _); [discriminate|]. inversion Ho.
      rewrite lookup_insert_eq. apply bool_decide_eq_true in Hhas.
      split; [done | by eexists].
    + by inversion Ho.
  - by rewrite (timeframe_bound_frame _ _ _ Ho).
Qed.

Lemma each_presence names o o' j :
  each names timeframe_bound o = Ok o' →
  is_Some (o' !! j) ↔ is_Some (o !! j).
Proof.
  revert o. induction names as [|opt names IH]; simpl; intros o Ho.
  - by inversion Ho.
  - apply bind_Ok in Ho as (a & Ha & Ho).
    by rewrite (IH a Ho), (timeframe_bound_presence _ _ _ _ Ha).
Qed.

Lemma validate_presence raw o k :
  validate raw = Ok o → k ∈ ["noExpiry"; "maxTTL"; "minTTL"] →
  is_Some (o !! k) ↔ is_Some (raw !! k).
Proof.
  unfold validate. intros Ho Hk.
  destruct (negb (truthy (prop raw "host"))); [discriminate|].
  destruct (negb (truthy (prop (<["port":=_]> raw) "port"))); [discriminate|].
  apply bind_Ok in Ho as (o1 & Ho1 & Ho).
  apply bind_Ok in Ho as (o2 & Ho2 & Ho).
  destruct (negb (_ =? 0)); [discriminate|]. inversion Ho; subst o2.
  assert ((k ∉ ["scanBatch"; "scanLimit"; "limit"]) ∧ k ≠ "port"
          ∧ k ≠ "pattern") as (Hk1 & Hk2 & Hk3).
  { repeat (apply elem_of_cons in Hk as [->|Hk];
            [by split_and!; [apply (bool_decide_unpack _); vm_compute|..]|]).
    by apply elem_of_nil in Hk. }
  rewrite (each_frame _ _ _ _ k numeric_option_frame Ho2 Hk1).
  rewrite (each_presence _ _ _ k Ho1).
  by rewrite !lookup_insert_ne.
Qed.

Lemma RedisKeyScanner_presence raw c k :
  RedisKeyScanner raw = Ok c → k ∈ ["noExpiry"; "maxTTL"; "minTTL"] →
  is_Some (options c !! k) ↔ is_Some (raw !! k).
Proof.
  unfold RedisKeyScanner. intros Hc.
  apply bind_Ok in Hc as (o & Ho & Hc). inversion Hc; subst c; simpl.
  by apply validate_presence.
Qed.

Lemma RedisKeyScanner_Ok raw c :
  RedisKeyScanner raw = Ok c →
  validated (options c)
  ∧ checkTTL c = existsb (has (options c)) ["noExpiry"; "maxTTL"; "minTTL"].
Proof.
  unfold RedisKeyScanner. intros Hc.
  apply bind_Ok in Hc as (o & Ho & Hc). inversion Hc; subst c; simpl.
  split; [by eapply validate_Ok | done].
Qed.
End validation_facts.

Section filter_facts.
Context `{Conversions} `{TimeframeParser}.

Lemma le_numbers a n :
  n ≠ NaN → le (VNum (Fin a)) (VNum n) = true ↔ num_le (Fin a) n.
Proof.
  intros Hn. unfold le, lt. destruct n as [| |b|]; simpl; try done.
  rewrite Qcle_ngt. case_bool_decide; split; done.
Qed.

Lemma ge_numbers a n :
  n ≠ NaN → ge (VNum (Fin a)) (VNum n) = true ↔ num_le n (Fin a).
Proof.
  intros Hn. unfold ge, lt. destruct n as [| |b|]; simpl; try done.
  rewrite Qcle_ngt. case_bool_decide; split; done.
Qed.

(** the order of the numbers on integers *)
Lemma num_le_Fin a b : num_le (Fin a) (Fin b) ↔ (a ≤ b)%Z.
Proof. simpl. symmetry. apply Z2Qc_inj_le. Qed.

Lemma ge_Fin a b :
  ge (VNum (Fin a)) (VNum (Fin b)) = bool_decide (b ≤ a)%Z.
Proof.
  unfold ge, lt. simpl.
  case_bool_decide as Hlt; rewrite <- Z2Qc_inj_lt in Hlt;
    case_bool_decide; (done || lia).
Qed.

Lemma strict_eq_minus_one t :
  strict_eq (VNum (Fin t)) (VNum (Fin (-1))) = true ↔ t = (-1)%Z.
Proof.
  unfold strict_eq, Fin. rewrite bool_decide_eq_true.
  split; [by intros [= Ht] | by intros ->].
Qed.

Lemma upper_clause (o : object) k a :
  number_or_absent (o !! k) →
  isNaN (prop o k) || le (VNum (Fin a)) (prop o k) = true
  ↔ ∀ n, o !! k = Some (VNum n) → num_le (Fin a) n.
Proof.
  unfold prop. intros [-> | (n & Hn & ->)]; simpl.
  - done.
  - assert (isNaN (VNum n) = false) as -> by by destruct n.
    simpl. rewrite le_numbers by done.
    split; [by intros ? ? [= <-] | intros Hx; by apply Hx].
Qed.

Lemma lower_clause (o : object) k a :
  number_or_absent (o !! k) →
  isNaN (prop o k) || ge (VNum (Fin a)) (prop o k) = true
  ↔ ∀ n, o !! k = Some (VNum n) → num_le n (Fin a).
Proof.
  unfold prop. intros [-> | (n & Hn & ->)]; simpl.
  - done.
  - assert (isNaN (VNum n) = false) as -> by by destruct n.
    simpl. rewrite ge_numbers by done.
    split; [by intros ? ? [= <-] | intros Hx; by apply Hx].
Qed.

Lemma absent_clause (o : object) k (b : bool) :
  o !! k = None → isNaN (prop o k) || b = true.
Proof. unfold prop. by intros ->. Qed.

Lemma has_false (o : object) k : has o k = false ↔ o !! k = None.
Proof.
  unfold has. rewrite bool_decide_eq_false. symmetry. apply eq_None_not_Some.
Qed.

Lemma has_true (o : object) k : has o k = true ↔ is_Some (o !! k).
Proof. unfold has. apply bool_decide_eq_true. Qed.

(** the value of the variable [ttl] for a key whose ttl is [t] *)
Lemma selects_iff c (idle ttl : Z) :
  validated (options c) →
  checkTTL c = existsb (has (options c)) ["noExpiry"; "maxTTL"; "minTTL"] →
  selects c (VNum (Fin idle))
    (if checkTTL c then VNum (Fin ttl) else VBool false) = true
  ↔ (∀ n, options c !! "maxIdle" = Some (VNum n) → num_le (Fin idle) n)
    ∧ (∀ n, options c !! "maxTTL" = Some (VNum n) → num_le (Fin ttl) n)
    ∧ (∀ n, options c !! "minIdle" = Some (VNum n) → num_le n (Fin idle))
    ∧ (∀ n, options c !! "minTTL" = Some (VNum n) → num_le n (Fin ttl))
    ∧ (∀ v, options c !! "noExpiry" = Some v →
         truthy v = true ∧ ttl = (-1)%Z).
Proof.
  intros [Hb _] Hc. unfold selects.
  assert (∀ k, k ∈ timeframes → number_or_absent (options c !! k)) as Hn
    by exact Hb.
  rewrite !andb_true_iff.
  rewrite (upper_clause _ "maxIdle") by (apply Hn; timeframe).
  rewrite (lower_clause _ "minIdle") by (apply Hn; timeframe).
  destruct (checkTTL c).
  - rewrite (upper_clause _ "maxTTL") by (apply Hn; timeframe).
    rewrite (lower_clause _ "minTTL") by (apply Hn; timeframe).
    assert (negb (has (options c) "noExpiry")
              || truthy (prop (options c) "noExpiry")
                 && strict_eq (VNum (Fin ttl)) (VNum (Fin (-1))) = true
            ↔ ∀ v, options c !! "noExpiry" = Some v →
                truthy v = true ∧ ttl = (-1)%Z) as ->; [|tauto].
    unfold has, prop. destruct (options c !! "noExpiry") as [v|]; simpl.
    + rewrite andb_true_iff, bool_decide_eq_true.
      split.
      * intros [? [= ->]] ? [= <-]. done.
      * intros Hx. destruct (Hx v eq_refl) as [-> ->]. done.
    + done.
  - symmetry in Hc. simpl in Hc.
    rewrite !orb_false_iff, !has_false in Hc.
    destruct Hc as (Hno & Hmax & Hmin & _).
    rewrite (absent_clause _ "maxTTL"), (absent_clause _ "minTTL") by done.
    rewrite Hno, Hmax, Hmin. unfold has. rewrite Hno. simpl.
    split; [intros ((((?&_)&?)&_)&_) | intros (?&_&?&_&_)];
      repeat split; done.
Qed.
End filter_facts.

(** ** The emitted records *)

Section record_facts.
Context `{Conversions} `{TimeframeParser}.
Variable c : scan.

Lemma entry_dom key idletime ttl :
  dom (entry c key idletime ttl)
  = if checkTTL c then {[ "name"; "key"; "idletime"; "ttl" ]}
    else {[ "name"; "key"; "idletime" ]}.
Proof.
  unfold entry. destruct (checkTTL c);
    rewrite !dom_insert_L, dom_singleton_L;
    by rewrite <- ?(assoc_L (∪)).
Qed.

Lemma entry_is_selected_key key idletime ttl :
  is_selected_key (entry c key idletime ttl) = true
  ∧ is_summary (entry c key idletime ttl) = false.
Proof.
  unfold is_selected_key, is_summary, entry. split.
  - apply has_true. destruct (checkTTL c); by simplify_map_eq.
  - apply has_false. destruct (checkTTL c); by simplify_map_eq.
Qed.

Lemma unsupported_absent k :
  validated (options c) → k ∉ supportedOptions → options c !! k = None.
Proof.
  intros [_ Hsup] Hk. apply eq_None_not_Some. intros Hs. by apply Hk, Hsup.
Qed.

Lemma summary_counters s :
  validated (options c) →
  summary c s !! "keysScanned" = Some (VNum (Fin (streamKeysScanned s)))
  ∧ summary c s !! "keysSelected" = Some (VNum (Fin (streamKeysSelected s)))
  ∧ is_summary (summary c s) = true
  ∧ is_selected_key (summary c s) = false.
Proof.
  intros Hv. unfold is_summary, is_selected_key, summary.
  assert (∀ k, k ∉ supportedOptions →
    (options c ∪ ({[ "keysScanned" := VNum (Fin (streamKeysScanned s));
                     "keysSelected" := VNum (Fin (streamKeysSelected s)) ]}
                   : object)) !! k
    = ({[ "keysScanned" := VNum (Fin (streamKeysScanned s));
          "keysSelected" := VNum (Fin (streamKeysSelected s)) ]}
         : object) !! k) as Hl.
  { intros k Hk. apply lookup_union_r. by apply unsupported_absent. }
  assert (∀ k : string, bool_decide (k ∈ supportedOptions) = false →
            k ∉ supportedOptions) as Hno
    by (intros k; apply bool_decide_eq_false).
  repeat split.
  - rewrite Hl by (by apply Hno; vm_compute). done.
  - rewrite Hl by (by apply Hno; vm_compute). done.
  - apply has_true. rewrite Hl by (by apply Hno; vm_compute). done.
  - apply has_false. rewrite Hl by (by apply Hno; vm_compute). done.
Qed.
End record_facts.

(** ** The options of the command line *)

Lemma command_line_noExpiry args host port redisMaster v :
  command_line_options args host port redisMaster !! "noExpiry" = Some v →
  v = VBool true.
Proof.
  unfold command_line_options, pickBy. intros Hv.
  apply map_lookup_filter_Some in Hv as [Hv Hkeep]. simpl in Hkeep.
  unfold list_to_map in Hv. cbn [foldr fst snd uncurry] in Hv.
  rewrite !lookup_insert_ne, lookup_insert_eq in Hv by done.
  inversion Hv; subst v. unfold given in Hkeep.
  by destruct (strict_eq (prop args "expiry") (VBool false)).
Qed.

(** ** The invariant of the controller *)

Section controller_facts.
Context `{Conversions} `{TimeframeParser}.
Variable c : scan.

Lemma total_app ps qs : total (ps ++ qs) = (total ps + total qs)%Z.
Proof. induction ps as [|p ps IH]; simpl; lia. Qed.

Lemma signals_app es fs : signals (es ++ fs) = signals es ++ signals fs.
Proof. apply filter_app. Qed.

Lemma data_app es fs : data (es ++ fs) = data es ++ data fs.
Proof. apply omap_app. Qed.

Lemma errors_app es fs : errors (es ++ fs) = errors es ++ errors fs.
Proof. apply omap_app. Qed.

Lemma signals_data ds : signals (EmitData <$> ds) = EmitData <$> ds.
Proof.
  unfold signals. induction ds as [|d ds IH]; [done|].
  rewrite fmap_cons, filter_cons_True by done. by rewrite IH.
Qed.

Lemma data_signals es : data (signals es) = data es.
Proof.
  unfold signals. induction es as [|[d| |err] es IH]; [done|..].
  - rewrite filter_cons_True by done. simpl. by rewrite IH.
  - by rewrite filter_cons_True by done.
  - by rewrite filter_cons_False by done.
Qed.

Lemma examine_spec results keys i s s' returned :
  examine c results i keys s = (s', returned) →
  same_controller s s'
  ∧ ∃ entries,
      emitted s' = emitted s ++ (EmitData <$> entries)
      ∧ entries_of c entries
      ∧ streamKeysSelected s'
        = (streamKeysSelected s + Z.of_nat (length entries))%Z.
Proof.
  revert i s. induction keys as [|key keys IH]; simpl; intros i s Hex.
  - inversion Hex; subst. split; [by repeat split|].
    exists []. simpl. rewrite app_nil_r. repeat split; [constructor | lia].
  - destruct (results !! _) as [idle|]; [|inversion Hex; subst].
    2:{ split; [by repeat split|]. exists []. simpl. rewrite app_nil_r.
        repeat split; [constructor | lia]. }
    destruct (if checkTTL c then _ else _) as [ttl|]; [|inversion Hex; subst].
    2:{ split; [by repeat split|]. exists []. simpl. rewrite app_nil_r.
        repeat split; [constructor | lia]. }
    apply IH in Hex as [Hsame (entries & Hem & Hent & Hsel)].
    destruct (negb (atSelectLimit s) && selects c idle.2 ttl).
    + split; [exact Hsame|].
      exists (entry c key idle.2 ttl :: entries).
      simpl in *. rewrite Hem, Hsel, <- app_assoc. simpl.
      repeat split; [constructor; eauto | lia].
    + split; [exact Hsame|]. by exists entries.
Qed.

Lemma all_fulfilled_iff s :
  all_fulfilled (length (pipelinePromises s)) s = true
  ↔ Forall fulfilled (pipelinePromises s).
Proof.
  unfold all_fulfilled. rewrite firstn_all.
  induction (pipelinePromises s) as [|p ps IH]; simpl.
  - split; [constructor | done].
  - rewrite andb_true_iff, bool_decide_eq_true, IH, Forall_cons. done.
Qed.

Lemma continuation_consistent s :
  coherent c s → consistent c (continuation c s).
Proof.
  intros Hs. unfold continuation.
  destruct (endScan s) as [n|] eqn:Hend.
  2:{ split; [done|]. rewrite Hend. by intros [? ?]. }
  pose proof (endScan_sees_all c s Hs n Hend) as [Hn Hstop]. rewrite Hn.
  destruct (summarised s) eqn:Hsum; simpl.
  { split; [done|]. by rewrite Hsum. }
  destruct (all_fulfilled _ s) eqn:Hall.
  2:{ split; [done|]. intros _ Hful. apply all_fulfilled_iff in Hful.
      congruence. }
  apply all_fulfilled_iff in Hall.
  split; [|done].
  destruct Hs as [Htot Hsee _ (entries & Hem & Hent & Hlen) Herr Hq].
  split; simpl; try done.
  - intros n0 [= <-]. done.
  - exists entries. rewrite Hsum in Hem.
    rewrite <- app_assoc, signals_app, Hem, app_nil_r. done.
  - rewrite <- app_assoc, errors_app. simpl. by rewrite app_nil_r.
Qed.

Lemma coherent_on_data keys s :
  consistent c s → paused s = false → ended s = false →
  coherent c (on_data c keys s).
Proof.
  intros [[Htot Hsee Hsum (entries & Hem & Hent & Hlen) Herr Hq] _] Hp He.
  assert (endScan s = None) as Hend.
  { destruct (endScan s) as [n|] eqn:Hn; [|done].
    destruct (Hsee n eq_refl) as [_ [?|?]]; congruence. }
  assert (summarised s = false) as Hnot.
  { destruct (summarised s); [|done].
    destruct Hsum as [[? ?] _]; congruence. }
  unfold on_data. simpl.
  destruct (atSelectLimit s || _); unfold call_endScan; simpl;
    rewrite ?Hend; simpl.
  all: split; simpl; rewrite ?Hnot, ?fmap_app, ?total_app; try done.
  all: try (simpl; rewrite Htot; lia).
  all: try (by intros n [= <-]; auto).
  all: try (exists entries; by rewrite Hnot in Hem).
  all: apply Forall_app; split; [done | by repeat constructor].
Qed.

Lemma coherent_on_end s : coherent c s → coherent c (on_end s).
Proof.
  intros [Htot Hsee Hsum (entries & Hem & Hent & Hlen) Herr Hq].
  unfold on_end, call_endScan. simpl.
  destruct (endScan s) as [n|] eqn:Hend; split; simpl; try done.
  - intros n0 [= <-]. destruct (Hsee n) as [? ?]; [done|]. auto.
  - by exists entries.
  - intros n0 [= <-]. auto.
  - intros Hs. by destruct (Hsum Hs) as [[? ?] _].
  - by exists entries.
Qed.

Lemma coherent_on_error err s : coherent c s → coherent c (on_error err s).
Proof.
  intros Hs. unfold on_error. destruct (errored s) eqn:Herrd; [done|].
  destruct Hs as [Htot Hsee Hsum (entries & Hem & Hent & Hlen) Herr Hq].
  split; simpl; try done.
  - exists entries. rewrite signals_app. simpl.
    unfold signals at 2. rewrite filter_cons_False by done.
    rewrite filter_nil, app_nil_r. done.
  - rewrite errors_app, length_app, Herr, Herrd. done.
Qed.

Lemma fmap_settle {B} (f : pipelinePromise → B) (i : nat) how
    (ps : list pipelinePromise) :
  (∀ p, f {| batchKeys := batchKeys p; commands := commands p;
             settled := how |} = f p) →
  f <$> alter (λ p, {| batchKeys := batchKeys p; commands := commands p;
                       settled := how |}) i ps = f <$> ps.
Proof.
  intros Hf. revert i. induction ps as [|p ps IH]; intros [|i]; simpl;
    rewrite ?Hf; try done. f_equal. apply IH.
Qed.

Lemma pending_not_summarised i p s :
  coherent c s → pending i s = Some p → summarised s = false.
Proof.
  intros Hs Hp. destruct (summarised s) eqn:Hsum; [|done].
  destruct (summarised_then c s Hs Hsum) as [_ Hall].
  unfold pending in Hp.
  destruct (pipelinePromises s !! i) as [q|] eqn:Hq; [|done]. simpl in Hp.
  destruct (bool_decide (settled q = Pending)) eqn:Hd; [|done].
  apply bool_decide_eq_true in Hd.
  rewrite Forall_lookup in Hall. specialize (Hall i q Hq).
  unfold fulfilled in Hall. congruence.
Qed.

(** a promise settles after its callback has examined the page *)
Lemma coherent_settle i how s s1 entries :
  coherent c s → summarised s = false →
  same_controller s s1 →
  emitted s1 = emitted s ++ (EmitData <$> entries) →
  entries_of c entries →
  streamKeysSelected s1
    = (streamKeysSelected s + Z.of_nat (length entries))%Z →
  coherent c (settle i how s1).
Proof.
  intros [Htot Hsee Hsum (old & Hem & Hent & Hlen) Herr Hq] Hnot
    (Hps & Hsc & Hen & Hsm & Her & Hpa & Hed) Hem1 Hent1 Hsel.
  unfold settle. split; simpl.
  - rewrite (fmap_settle batchKeys) by done. by rewrite Hsc, Hps.
  - intros n Hn. rewrite length_alter, Hps, Hpa, Hed.
    apply Hsee. by rewrite <- Hen.
  - rewrite Hsm, Hnot. done.
  - exists (old ++ entries). rewrite Hsm, Hnot, Hem1, signals_app, Hem, Hnot.
    rewrite app_nil_r, fmap_app, signals_data, app_nil_r.
    repeat split; [by apply Forall_app | rewrite length_app; lia].
  - rewrite Hem1, errors_app, length_app, Her, Herr.
    assert (errors (EmitData <$> entries) = []) as ->; [|simpl; lia].
    clear. by induction entries.
  - rewrite Hps. clear -Hq. revert i.
    induction Hq as [|p ps Hp Hq IH]; intros [|i]; simpl;
      constructor; try done. apply IH.
Qed.

Lemma same_controller_refl s : same_controller s s.
Proof. by repeat split. Qed.

Lemma dispatch_consistent e s s' :
  consistent c s → dispatch c e s = Some s' → consistent c s'.
Proof.
  intros Hs He. unfold dispatch in He.
  apply fmap_Some in He as (s1 & He & ->).
  apply continuation_consistent.
  destruct e as [keys| |i results|i|err].
  - destruct (paused s) eqn:Hp; [done|].
    destruct (ended s) eqn:Hed; [done|]. simpl in He.
    inversion He; subst. by apply coherent_on_data.
  - destruct (ended s); [done|]. inversion He; subst.
    apply coherent_on_end, Hs.
  - apply bind_Some in He as (p & Hp & He). inversion He; subst.
    unfold on_results.
    destruct (examine c results 0 (batchKeys p) s) as [s1 returned] eqn:Hex.
    apply examine_spec in Hex as (Hsame & entries & Hem & Hent & Hsel).
    apply (coherent_settle i _ s s1 entries);
      [ apply Hs
      | eapply pending_not_summarised; [apply Hs | done]
      | done.. ].
  - apply bind_Some in He as (p & Hp & He). inversion He; subst.
    apply (coherent_settle i _ s s []);
      [ apply Hs
      | eapply pending_not_summarised; [apply Hs | done]
      | apply same_controller_refl
      | simpl; by rewrite app_nil_r
      | constructor
      | simpl; lia ].
  - inversion He; subst. apply coherent_on_error, Hs.
Qed.

Lemma initial_consistent : consistent c initial.
Proof.
  split; [split|]; simpl; try done.
  exists []. repeat split. constructor.
Qed.

Lemma run_consistent events s s' :
  consistent c s → run c events s = Some s' → consistent c s'.
Proof.
  revert s. induction events as [|e events IH]; simpl; intros s Hs Hrun.
  - by inversion Hrun; subst.
  - apply bind_Some in Hrun as (s1 & He & Hrun).
    eauto using dispatch_consistent.
Qed.
End controller_facts.

(** ** What one event changes *)

Section step_facts.
Context `{Conversions} `{TimeframeParser}.
Variable c : scan.

Lemma continuation_fields s :
  atSelectLimit (continuation c s) = atSelectLimit s
  ∧ pipelinePromises (continuation c s) = pipelinePromises s
  ∧ streamKeysScanned (continuation c s) = streamKeysScanned s
  ∧ streamKeysSelected (continuation c s) = streamKeysSelected s
  ∧ endScan (continuation c s) = endScan s
  ∧ errored (continuation c s) = errored s
  ∧ paused (continuation c s) = paused s
  ∧ ended (continuation c s) = ended s
  ∧ (emitted (continuation c s) = emitted s
     ∨ emitted (continuation c s)
       = emitted s ++ [EmitData (summary c s); EmitEnd]).
Proof.
  unfold continuation. destruct (endScan s) eqn:Hend; [|by auto 10].
  destruct (negb (summarised s) && _); simpl; rewrite ?Hend;
    [|by auto 10].
  repeat split. right. by rewrite <- app_assoc.
Qed.

Lemma examine_at_limit results i keys s :
  atSelectLimit s = true → (examine c results i keys s).1 = s.
Proof.
  intros Hat. revert i. induction keys as [|key keys IH]; intros i; simpl.
  - done.
  - destruct (results !! _); [|done].
    destruct (if checkTTL c then _ else _); [|done].
    rewrite Hat. simpl. apply IH.
Qed.

Lemma examine_rejects results i keys s :
  (∀ idletime ttl, selects c idletime ttl = false) →
  (examine c results i keys s).1 = s.
Proof.
  intros Hno. revert i. induction keys as [|key keys IH]; intros i; simpl.
  - done.
  - destruct (results !! _); [|done].
    destruct (if checkTTL c then _ else _); [|done].
    rewrite Hno, andb_false_r. apply IH.
Qed.

Lemma examine_within_limit L results i keys s :
  prop (options c) "limit" = VNum (Fin L) → (1 ≤ L)%Z →
  within_limit L s → within_limit L (examine c results i keys s).1.
Proof.
  intros HL Hpos. revert i s.
  induction keys as [|key keys IH]; intros i s Hs; simpl.
  - done.
  - destruct (results !! _) as [idle|]; [|done].
    destruct (if checkTTL c then _ else _) as [ttl|]; [|done].
    apply IH.
    destruct (atSelectLimit s) eqn:Hat; simpl; [done|].
    destruct (selects c idle.2 ttl); [|done].
    destruct Hs as [[Hlo Hhi] Hiff]. rewrite Hat in Hiff.
    assert (streamKeysSelected s < L)%Z as Hlt.
    { destruct (Z.lt_ge_cases (streamKeysSelected s) L); [done|].
      by destruct Hiff as [_ Hiff]; specialize (Hiff ltac:(lia)). }
    unfold within_limit, select. simpl. rewrite HL.
    split; [lia|]. rewrite ge_Fin, bool_decide_eq_true. lia.
Qed.

(** an event other than a fulfilled [exec()] selects nothing *)
Lemma dispatch_selected e s s' :
  dispatch c e s = Some s' →
  (∀ i results, e ≠ ExecFulfilled i results) →
  atSelectLimit s' = atSelectLimit s
  ∧ streamKeysSelected s' = streamKeysSelected s.
Proof.
  intros He Hne. unfold dispatch in He.
  apply fmap_Some in He as (s1 & He & ->).
  destruct (continuation_fields s1) as (-> & _ & _ & -> & _).
  destruct e as [keys| |i results|i|err].
  - destruct (paused s || ended s); [done|]. inversion He; subst.
    unfold on_data. simpl.
    destruct (atSelectLimit s || _); [|done].
    unfold call_endScan. by destruct (endScan _).
  - destruct (ended s); [done|]. inversion He; subst.
    unfold on_end, call_endScan. by destruct (endScan _).
  - by destruct (Hne i results).
  - apply bind_Some in He as (p & Hp & He). by inversion He; subst.
  - inversion He; subst. unfold on_error. by destruct (errored s).
Qed.

(** the pages of the promises are those the stream handed over *)
Lemma dispatch_pages e s s' :
  dispatch c e s = Some s' →
  batchKeys <$> pipelinePromises s'
  = (batchKeys <$> pipelinePromises s) ++ pages [e].
Proof.
  intros He. unfold dispatch in He.
  apply fmap_Some in He as (s1 & He & ->).
  destruct (continuation_fields s1) as (_ & -> & _).
  destruct e as [keys| |i results|i|err]; simpl; rewrite ?app_nil_r.
  - destruct (paused s || ended s); [done|]. inversion He; subst.
    unfold on_data. simpl.
    destruct (atSelectLimit s || _); unfold call_endScan; simpl;
      [destruct (endScan s); simpl|]; by rewrite fmap_app.
  - destruct (ended s); [done|]. inversion He; subst.
    unfold on_end, call_endScan. by destruct (endScan _).
  - apply bind_Some in He as (p & Hp & He). inversion He; subst.
    unfold on_results.
    destruct (examine c results 0 (batchKeys p) s) as [s1 r] eqn:Hex.
    apply examine_spec in Hex as ((Hps & _) & _).
    unfold settle. simpl. by rewrite fmap_settle, Hps.
  - apply bind_Some in He as (p & Hp & He). inversion He; subst.
    unfold settle. simpl. by rewrite fmap_settle.
  - inversion He; subst. unfold on_error. by destruct (errored s).
Qed.

Lemma run_pages events s s' :
  run c events s = Some s' →
  batchKeys <$> pipelinePromises s'
  = (batchKeys <$> pipelinePromises s) ++ pages events.
Proof.
  revert s. induction events as [|e events IH]; simpl; intros s Hrun.
  - inversion Hrun; subst. by rewrite app_nil_r.
  - apply bind_Some in Hrun as (s1 & He & Hrun).
    rewrite (IH _ Hrun), (dispatch_pages _ _ _ He), <- app_assoc.
    f_equal. by destruct e.
Qed.


End step_facts.

(** ** What a scan has emitted *)

Section scan_facts.
Context `{Conversions} `{TimeframeParser}.
Variable c : scan.
Hypothesis Hvalid : validated (options c).

(** the data records emitted: the entries of the selected keys, then the
    summary once it has been written *)
Lemma consistent_data s :
  consistent c s →
  ∃ entries,
    data (emitted s)
      = entries ++ (if summarised s then [summary c s] else [])
    ∧ entries_of c entries
    ∧ Z.of_nat (length entries) = streamKeysSelected s.
Proof.
  intros [[_ _ _ (entries & Hem & Hent & Hlen) _ _] _].
  exists entries. split; [|done].
  rewrite <- data_signals, Hem, data_app.
  assert (data (EmitData <$> entries) = entries) as ->
    by (clear; induction entries; simpl; by f_equal).
  by destruct (summarised s).
Qed.

Lemma entries_selected_keys entries :
  entries_of c entries →
  Forall (λ d, is_selected_key d = true ∧ is_summary d = false) entries.
Proof.
  intros Hent. eapply Forall_impl; [exact Hent|].
  intros d (key & idletime & ttl & ->). apply entry_is_selected_key.
Qed.

Lemma filter_all {A} (P : A → Prop) `{∀ x, Decision (P x)} (l : list A) :
  Forall P l → filter P l = l.
Proof.
  induction 1 as [|x l Hx Hl IH]; [done|].
  by rewrite filter_cons_True, IH.
Qed.

Lemma filter_none {A} (P : A → Prop) `{∀ x, Decision (P x)} (l : list A) :
  Forall (λ x, ¬ P x) l → filter P l = [].
Proof.
  induction 1 as [|x l Hx Hl IH]; [done|].
  by rewrite filter_cons_False, IH.
Qed.

Lemma consistent_selected_keys s :
  consistent c s →
  entries_of c (selected_keys (emitted s))
  ∧ Z.of_nat (length (selected_keys (emitted s))) = streamKeysSelected s.
Proof.
  intros Hs. destruct (consistent_data s Hs) as (entries & Hd & Hent & Hlen).
  assert (selected_keys (emitted s) = entries) as ->; [|done].
  unfold selected_keys. rewrite Hd, filter_app.
  rewrite (filter_all _ entries).
  - destruct (summary_counters c s Hvalid) as (_ & _ & _ & Hk).
    destruct (summarised s); [|by rewrite app_nil_r].
    rewrite filter_cons_False, filter_nil, app_nil_r; [done | congruence].
  - eapply Forall_impl; [by apply entries_selected_keys|]. by intros d [? _].
Qed.

Lemma consistent_summaries s :
  consistent c s →
  summaries (emitted s) = if summarised s then [summary c s] else [].
Proof.
  intros Hs. destruct (consistent_data s Hs) as (entries & Hd & Hent & Hlen).
  unfold summaries. rewrite Hd, filter_app.
  rewrite (filter_none _ entries).
  - destruct (summary_counters c s Hvalid) as (_ & _ & Hk & _).
    destruct (summarised s); [|done].
    by rewrite filter_cons_True, filter_nil.
  - eapply Forall_impl; [by apply entries_selected_keys|].
    intros d [_ ?]. congruence.
Qed.

(** once the limit is reached, an event adds no record of a selected key *)
Lemma dispatch_at_limit e s s' :
  dispatch c e s = Some s' → atSelectLimit s = true →
  atSelectLimit s' = true
  ∧ streamKeysSelected s' = streamKeysSelected s
  ∧ selected_keys (emitted s') = selected_keys (emitted s).
Proof.
  intros He Hat.
  assert (∀ s1, selected_keys (emitted (continuation c s1))
                = selected_keys (emitted s1)) as Hcont.
  { intros s1. destruct (continuation_fields c s1)
      as (_ & _ & _ & _ & _ & _ & _ & _ & [-> | ->]); [done|].
    unfold selected_keys. rewrite data_app, filter_app. simpl.
    rewrite filter_cons_False, filter_nil, app_nil_r; [done|].
    destruct (summary_counters c s1 Hvalid) as (_ & _ & _ & Hk). congruence. }
  unfold dispatch in He. apply fmap_Some in He as (s1 & He & ->).
  destruct (continuation_fields c s1) as (-> & _ & _ & -> & _).
  rewrite Hcont, <- Hat.
  destruct e as [keys| |i results|i|err].
  - destruct (paused s || ended s); [done|]. inversion He; subst.
    unfold on_data. simpl.
    destruct (atSelectLimit s || _); [|done].
    unfold call_endScan. by destruct (endScan _).
  - destruct (ended s); [done|]. inversion He; subst.
    unfold on_end, call_endScan. by destruct (endScan _).
  - apply bind_Some in He as (p & Hp & He). inversion He; subst.
    unfold on_results.
    pose proof (examine_at_limit c results 0 (batchKeys p) s Hat) as Hex.
    destruct (examine c results 0 (batchKeys p) s) as [s1 r].
    simpl in Hex. by subst s1.
  - apply bind_Some in He as (p & Hp & He). by inversion He; subst.
  - inversion He; subst. unfold on_error. destruct (errored s); [done|].
    simpl. unfold selected_keys. rewrite data_app. simpl.
    by rewrite app_nil_r.
Qed.

Lemma run_at_limit events s s' :
  run c events s = Some s' → atSelectLimit s = true →
  atSelectLimit s' = true
  ∧ streamKeysSelected s' = streamKeysSelected s
  ∧ selected_keys (emitted s') = selected_keys (emitted s).
Proof.
  revert s. induction events as [|e events IH]; simpl; intros s Hrun Hat.
  - by inversion Hrun; subst.
  - apply bind_Some in Hrun as (s1 & He & Hrun).
    destruct (dispatch_at_limit _ _ _ He Hat) as (Hat1 & Hsel1 & Hkeys1).
    destruct (IH _ Hrun Hat1) as (? & ? & ?). repeat split; congruence.
Qed.
End scan_facts.

(** ** Limits and failures *)

Section limit_facts.
Context `{Conversions} `{TimeframeParser}.
Variable c : scan.

Lemma on_results_fields i keys results s :
  atSelectLimit (on_results c i keys results s)
    = atSelectLimit (examine c results 0 keys s).1
  ∧ streamKeysSelected (on_results c i keys results s)
    = streamKeysSelected (examine c results 0 keys s).1
  ∧ emitted (on_results c i keys results s)
    = emitted (examine c results 0 keys s).1.
Proof. unfold on_results. by destruct (examine _ _ _ _ _). Qed.

Lemma dispatch_within_limit L e s s' :
  prop (options c) "limit" = VNum (Fin L) → (1 ≤ L)%Z →
  dispatch c e s = Some s' → within_limit L s → within_limit L s'.
Proof.
  intros HL Hpos He Hs.
  assert ((∃ i results, e = ExecFulfilled i results)
          ∨ ∀ i results, e ≠ ExecFulfilled i results)
    as [(i & results & ->)|Hne] by (destruct e; eauto).
  - unfold dispatch in He. apply fmap_Some in He as (s1 & He & ->).
    apply bind_Some in He as (p & Hp & He). inversion He; subst.
    unfold within_limit.
    destruct (continuation_fields c
                (on_results c i (batchKeys p) results s))
      as (-> & _ & _ & -> & _).
    destruct (on_results_fields i (batchKeys p) results s) as (-> & -> & _).
    by apply examine_within_limit.
  - destruct (dispatch_selected c e s s' He Hne) as [Hat Hsel].
    unfold within_limit. by rewrite Hat, Hsel.
Qed.

Lemma run_within_limit L events s s' :
  prop (options c) "limit" = VNum (Fin L) → (1 ≤ L)%Z →
  run c events s = Some s' → within_limit L s → within_limit L s'.
Proof.
  intros HL Hpos. revert s.
  induction events as [|e events IH]; simpl; intros s Hrun Hs.
  - by inversion Hrun; subst.
  - apply bind_Some in Hrun as (s1 & He & Hrun).
    eauto using dispatch_within_limit.
Qed.

Lemma pending_lookup i s p :
  pending i s = Some p →
  pipelinePromises s !! i = Some p ∧ settled p = Pending.
Proof.
  unfold pending. intros Hp.
  destruct (pipelinePromises s !! i) as [q|]; [|done]. simpl in Hp.
  destruct (bool_decide (settled q = Pending)) eqn:Hd; [|done].
  apply bool_decide_eq_true in Hd. by inversion Hp; subst.
Qed.

Lemma rejected_settle i how s s1 p q j :
  pipelinePromises s1 = pipelinePromises s →
  pending i s = Some p →
  pipelinePromises s !! j = Some q → settled q = Rejected →
  rejected (continuation c (settle i how s1)).
Proof.
  intros Hps Hp Hq Hrej. apply pending_lookup in Hp as [Hp Hpend].
  destruct (continuation_fields c (settle i how s1)) as (_ & Heq & _).
  exists q. split; [|done]. rewrite Heq. unfold settle. simpl.
  apply list_elem_of_lookup. exists j.
  rewrite Hps, list_lookup_alter_ne; [done|]. congruence.
Qed.

Lemma dispatch_rejected e s s' :
  dispatch c e s = Some s' → rejected s → rejected s'.
Proof.
  intros He (q & Hq & Hrej). apply list_elem_of_lookup in Hq as [j Hq].
  unfold dispatch in He. apply fmap_Some in He as (s1 & He & ->).
  destruct e as [keys| |i results|i|err].
  - destruct (continuation_fields c s1) as (_ & Heq & _).
    exists q. split; [|done]. rewrite Heq.
    destruct (paused s || ended s); [done|]. inversion He; subst.
    apply list_elem_of_lookup. exists j. unfold on_data. simpl.
    destruct (atSelectLimit s || _); unfold call_endScan; simpl;
      [destruct (endScan s); simpl|]; by apply lookup_app_l_Some.
  - destruct (continuation_fields c s1) as (_ & Heq & _).
    exists q. split; [|done]. rewrite Heq.
    destruct (ended s); [done|]. inversion He; subst.
    apply list_elem_of_lookup. exists j.
    unfold on_end, call_endScan. by destruct (endScan _).
  - apply bind_Some in He as (p & Hp & He). inversion He; subst.
    unfold on_results.
    destruct (examine c results 0 (batchKeys p) s) as [s1 r] eqn:Hex.
    apply examine_spec in Hex as ((Hps & _) & _).
    by eapply rejected_settle.
  - apply bind_Some in He as (p & Hp & He). inversion He; subst.
    by eapply rejected_settle.
  - destruct (continuation_fields c s1) as (_ & Heq & _).
    exists q. split; [|done]. rewrite Heq. inversion He; subst.
    apply list_elem_of_lookup. exists j.
    unfold on_error. by destruct (errored s).
Qed.

Lemma run_rejected events s s' :
  run c events s = Some s' → rejected s → rejected s'.
Proof.
  revert s. induction events as [|e events IH]; simpl; intros s Hrun Hs.
  - by inversion Hrun; subst.
  - apply bind_Some in Hrun as (s1 & He & Hrun).
    eauto using dispatch_rejected.
Qed.

Lemma dispatch_ExecRejected i s s' :
  dispatch c (ExecRejected i) s = Some s' → rejected s'.
Proof.
  intros He. unfold dispatch in He.
  apply fmap_Some in He as (s1 & He & ->).
  apply bind_Some in He as (p & Hp & He). inversion He; subst.
  apply pending_lookup in Hp as [Hp _].
  destruct (continuation_fields c (settle i Rejected s)) as (_ & Heq & _).
  eexists. rewrite Heq. unfold settle. simpl. split.
  - apply list_elem_of_lookup. exists i.
    by rewrite list_lookup_alter_eq, Hp.
  - done.
Qed.

Lemma run_ExecRejected i events s s' :
  run c events s = Some s' → ExecRejected i ∈ events → rejected s'.
Proof.
  revert s. induction events as [|e events IH]; simpl; intros s Hrun Hin.
  - by apply elem_of_nil in Hin.
  - apply bind_Some in Hrun as (s1 & He & Hrun).
    apply elem_of_cons in Hin as [<-|Hin]; [|by eapply IH].
    eapply run_rejected; [done|]. by eapply dispatch_ExecRejected.
Qed.

(** a rejected promise keeps the summary from being written *)
Lemma rejected_no_summary s :
  consistent c s → rejected s →
  summarised s = false ∧ EmitEnd ∉ emitted s.
Proof.
  intros [Hs _] (p & Hp & Hrej).
  assert (summarised s = false) as Hnot.
  { destruct (summarised s) eqn:Hsum; [|done].
    destruct (summarised_then c s Hs Hsum) as [_ Hall].
    rewrite Forall_forall in Hall. specialize (Hall p Hp).
    unfold fulfilled in Hall. congruence. }
  split; [done|]. intros Hend.
  destruct (emitted_order c s Hs) as (entries & Hem & _).
  rewrite Hnot, app_nil_r in Hem.
  assert (EmitEnd ∈ signals (emitted s)) as Hin
    by (by apply list_elem_of_filter).
  rewrite Hem in Hin. apply list_elem_of_fmap in Hin as (d & Hd & _).
  discriminate.
Qed.

Lemma scanning_Some raw events s :
  scanning raw events = Some (c, s)
  ↔ RedisKeyScanner raw = Ok c ∧ run c events initial = Some s.
Proof.
  unfold scanning. destruct (RedisKeyScanner raw) as [c'|e].
  - rewrite fmap_Some. split.
    + intros (s' & Hrun & [= -> ->]). done.
    + intros [[= ->] Hrun]. eauto.
  - split; [done | by intros [? _]].
Qed.

End limit_facts.

Section page_facts.
Context `{Conversions} `{TimeframeParser}.
Variable c : scan.

Lemma dispatch_StreamData keys s s' :
  dispatch c (StreamData keys) s = Some s' →
  pipelinePromises s'
    = pipelinePromises s
        ++ [{| batchKeys := keys; commands := pipeline c keys;
               settled := Pending |}]
  ∧ streamKeysScanned s'
    = (streamKeysScanned s + Z.of_nat (length keys))%Z
  ∧ atSelectLimit s' = atSelectLimit s
  ∧ paused s'
    = (atSelectLimit s'
       || ge (VNum (Fin (streamKeysScanned s')))
            (prop (options c) "scanLimit"))
  ∧ (paused s' = true → is_Some (endScan s')).
Proof.
  intros He. unfold dispatch in He.
  apply fmap_Some in He as (s1 & He & ->).
  destruct (continuation_fields c s1)
    as (-> & -> & -> & _ & -> & _ & -> & _).
  destruct (paused s) eqn:Hp; [done|].
  destruct (ended s); [done|]. inversion He; subst.
  unfold on_data. simpl.
  destruct (atSelectLimit s || _) eqn:Hc; unfold call_endScan; simpl;
    [destruct (endScan s); simpl|]; rewrite ?Hc, ?Hp; by repeat split.
Qed.


Lemma pipeline_commands keys :
  pipeline c keys
  = if checkTTL c then keys ≫= (λ key, [ObjectIdletime key; Ttl key])
    else ObjectIdletime <$> keys.
Proof.
  unfold pipeline. induction keys as [|key keys IH]; simpl.
  - by destruct (checkTTL c).
  - rewrite IH. by destruct (checkTTL c).
Qed.
End page_facts.

Section validation_more.
Context `{Conversions} `{TimeframeParser}.

Lemma each_Throw {A} (f : string → A → result A) names a e :
  each names f a = Throw e →
  ∃ before opt after b,
    names = before ++ opt :: after
    ∧ each before f a = Ok b ∧ f opt b = Throw e.
Proof.
  revert a. induction names as [|opt names IH]; simpl; intros a Hthrow.
  - discriminate.
  - destruct (f opt a) as [b|e'] eqn:Hf; simpl in Hthrow.
    + destruct (IH b Hthrow) as (before & opt' & after & b' & -> & Hb & Hf').
      exists (opt :: before), opt', after, b'. simpl. rewrite Hf. by simpl.
    + inversion Hthrow; subst. by exists [], opt, names, a.
Qed.

Lemma timeframe_bound_inv opt o :
  timeframe_bound opt o
  = if has o opt then
      if bool_decide (timeframeToSeconds (prop o opt) = NaN)
      then Throw (ExpectedTimeframe opt)
      else Ok (<[opt := VNum (timeframeToSeconds (prop o opt))]> o)
    else Ok o.
Proof.
  unfold timeframe_bound. destruct (has o opt); [|done].
  unfold isNaN. unfold prop at 1. rewrite lookup_insert_eq. simpl.
  destruct (timeframeToSeconds (prop o opt)); by simpl.
Qed.

Lemma numeric_option_inv opt o :
  numeric_option opt o
  = if has o opt then
      if isNaN (prop o opt) then Throw (MustBeNumber opt) else Ok o
    else
      if isNaN (prop defaults opt) then Throw (MustBeNumber opt)
      else Ok (<[opt := prop defaults opt]> o).
Proof.
  unfold numeric_option. destruct (has o opt); simpl; [done|].
  unfold prop at 1. by rewrite lookup_insert_eq.
Qed.

(** the loop over the timeframe bounds, on names that do not repeat *)
Lemma each_timeframes names o :
  NoDup names →
  (∀ o', each names timeframe_bound o = Ok o' →
     (∀ k, k ∈ names → is_Some (o !! k) →
        timeframeToSeconds (prop o k) ≠ NaN)
     ∧ ∀ k, o' !! k
            = if decide (k ∈ names)
              then (λ _, VNum (timeframeToSeconds (prop o k))) <$> o !! k
              else o !! k)
  ∧ (∀ e, each names timeframe_bound o = Throw e →
       ∃ opt, e = ExpectedTimeframe opt ∧ opt ∈ names
         ∧ is_Some (o !! opt) ∧ timeframeToSeconds (prop o opt) = NaN)
  ∧ ((∀ k, k ∈ names → is_Some (o !! k) →
        timeframeToSeconds (prop o k) ≠ NaN) →
     ∃ o', each names timeframe_bound o = Ok o').
Proof.
  revert o. induction names as [|opt names IH]; intros o Hnd.
  - simpl. split_and!.
    + intros o' [= <-]. split; [by intros k Hk; apply elem_of_nil in Hk|].
      done.
    + discriminate.
    + eauto.
  - apply NoDup_cons in Hnd as [Hopt Hnd]. cbn [each].
    rewrite timeframe_bound_inv.
    assert (∀ a, (∀ j, j ≠ opt → a !! j = o !! j) →
              ∀ k, k ∈ names → prop a k = prop o k ∧ a !! k = o !! k)
      as Hsame.
    { intros a Ha k Hk. assert (k ≠ opt) by (by intros ->).
      unfold prop. by rewrite Ha. }
    destruct (has o opt) eqn:Hhas.
    + apply has_true in Hhas.
      destruct (bool_decide _) eqn:Hnan; simpl.
      * apply bool_decide_eq_true in Hnan. split_and!.
        -- discriminate.
        -- intros e [= <-]. exists opt. split_and!; try done.
           apply elem_of_cons. by left.
        -- intros Hok. destruct (Hok opt); try done. apply elem_of_cons.
           by left.
      * apply bool_decide_eq_false in Hnan.
        set (a := <[opt := VNum (timeframeToSeconds (prop o opt))]> o).
        assert (∀ j, j ≠ opt → a !! j = o !! j) as Ha
          by (intros j Hj; unfold a; by rewrite lookup_insert_ne).
        destruct (IH a Hnd) as (Hok & Hthrow & Hintro). split_and!.
        -- intros o' Ho'. destruct (Hok o' Ho') as [Hnum Hlook]. split.
           ++ intros k [->|Hk]%elem_of_cons Hsome; [done|].
              destruct (Hsame a Ha k Hk) as [<- Heq].
              apply Hnum; [done|]. by rewrite Heq.
           ++ intros k. rewrite Hlook.
              destruct (decide (k ∈ names)) as [Hk|Hk].
              ** destruct (Hsame a Ha k Hk) as [-> ->].
                 rewrite decide_True; [done|]. apply elem_of_cons. by right.
              ** destruct (decide (k = opt)) as [->|Hne].
                 --- rewrite decide_True by (apply elem_of_cons; by left).
                     unfold a. rewrite lookup_insert_eq.
                     by destruct Hhas as [v ->].
                 --- rewrite Ha by done. rewrite decide_False; [done|].
                     by intros [?|?]%elem_of_cons.
        -- intros e He. destruct (Hthrow e He) as (k & -> & Hk & Hsome & Hn).
           destruct (Hsame a Ha k Hk) as [Hp Heq].
           exists k. rewrite <- Hp, <- Heq. split_and!; try done.
           apply elem_of_cons. by right.
        -- intros Hall. apply Hintro. intros k Hk Hsome.
           destruct (Hsame a Ha k Hk) as [-> Heq]. apply Hall.
           ++ apply elem_of_cons. by right.
           ++ by rewrite <- Heq.
    + apply has_false in Hhas.
      destruct (IH o Hnd) as (Hok & Hthrow & Hintro). split_and!.
      * intros o' Ho'. destruct (Hok o' Ho') as [Hnum Hlook]. split.
        -- intros k [->|Hk]%elem_of_cons Hsome.
           ++ rewrite Hhas in Hsome. by destruct Hsome.
           ++ by apply Hnum.
        -- intros k. rewrite Hlook.
           destruct (decide (k ∈ names)) as [Hk|Hk].
           ++ rewrite decide_True; [done|]. apply elem_of_cons. by right.
           ++ destruct (decide (k = opt)) as [->|Hne].
              ** rewrite decide_True by (apply elem_of_cons; by left).
                 by rewrite Hhas.
              ** rewrite decide_False; [done|]. by intros [?|?]%elem_of_cons.
      * intros e He. destruct (Hthrow e He) as (k & -> & Hk & Hsome & Hn).
        exists k. split_and!; try done. apply elem_of_cons. by right.
      * intros Hall. apply Hintro. intros k Hk. apply Hall.
        apply elem_of_cons. by right.
Qed.

(** the loop over the numeric options *)
Lemma each_numerics names o :
  NoDup names →
  (∀ k, k ∈ names → isNaN (prop defaults k) = false) →
  (∀ o', each names numeric_option o = Ok o' →
     (∀ k, k ∈ names → is_Some (o !! k) → isNaN (prop o k) = false)
     ∧ ∀ k, o' !! k
            = if decide (k ∈ names)
              then Some (default (prop defaults k) (o !! k))
              else o !! k)
  ∧ (∀ e, each names numeric_option o = Throw e →
       ∃ opt, e = MustBeNumber opt ∧ opt ∈ names
         ∧ is_Some (o !! opt) ∧ isNaN (prop o opt) = true)
  ∧ ((∀ k, k ∈ names → is_Some (o !! k) → isNaN (prop o k) = false) →
     ∃ o', each names numeric_option o = Ok o').
Proof.
  revert o. induction names as [|opt names IH]; intros o Hnd Hdef.
  - simpl. split_and!.
    + intros o' [= <-]. split; [by intros k Hk; apply elem_of_nil in Hk|].
      done.
    + discriminate.
    + eauto.
  - apply NoDup_cons in Hnd as [Hopt Hnd]. cbn [each].
    rewrite numeric_option_inv.
    assert (∀ k, k ∈ names → isNaN (prop defaults k) = false) as Hdef'
      by (intros k Hk; apply Hdef, elem_of_cons; by right).
    assert (isNaN (prop defaults opt) = false) as Hdopt
      by (apply Hdef, elem_of_cons; by left).
    assert (∀ a, (∀ j, j ≠ opt → a !! j = o !! j) →
              ∀ k, k ∈ names → prop a k = prop o k ∧ a !! k = o !! k)
      as Hsame.
    { intros a Ha k Hk. assert (k ≠ opt) by (by intros ->).
      unfold prop. by rewrite Ha. }
    destruct (has o opt) eqn:Hhas.
    + apply has_true in Hhas.
      destruct (isNaN (prop o opt)) eqn:Hnan; simpl.
      * split_and!.
        -- discriminate.
        -- intros e [= <-]. exists opt. split_and!; try done.
           apply elem_of_cons. by left.
        -- intros Hok. rewrite Hok in Hnan; try done. apply elem_of_cons.
           by left.
      * destruct (IH o Hnd Hdef') as (Hok & Hthrow & Hintro). split_and!.
        -- intros o' Ho'. destruct (Hok o' Ho') as [Hnum Hlook]. split.
           ++ intros k [->|Hk]%elem_of_cons Hsome; [done|]. by apply Hnum.
           ++ intros k. rewrite Hlook.
              destruct (decide (k ∈ names)) as [Hk|Hk].
              ** rewrite decide_True; [done|]. apply elem_of_cons. by right.
              ** destruct (decide (k = opt)) as [->|Hne].
                 --- rewrite decide_True by (apply elem_of_cons; by left).
                     by destruct Hhas as [v ->].
                 --- rewrite decide_False; [done|].
                     by intros [?|?]%elem_of_cons.
        -- intros e He. destruct (Hthrow e He) as (k & -> & Hk & Hsome & Hn).
           exists k. split_and!; try done. apply elem_of_cons. by right.
        -- intros Hall. apply Hintro. intros k Hk. apply Hall.
           apply elem_of_cons. by right.
    + apply has_false in Hhas. rewrite Hdopt. simpl.
      set (a := <[opt := prop defaults opt]> o).
      assert (∀ j, j ≠ opt → a !! j = o !! j) as Ha
        by (intros j Hj; unfold a; by rewrite lookup_insert_ne).
      destruct (IH a Hnd Hdef') as (Hok & Hthrow & Hintro). split_and!.
      * intros o' Ho'. destruct (Hok o' Ho') as [Hnum Hlook]. split.
        -- intros k [->|Hk]%elem_of_cons Hsome.
           ++ rewrite Hhas in Hsome. by destruct Hsome.
           ++ destruct (Hsame a Ha k Hk) as [<- Heq].
              apply Hnum; [done|]. by rewrite Heq.
        -- intros k. rewrite Hlook.
           destruct (decide (k ∈ names)) as [Hk|Hk].
           ++ destruct (Hsame a Ha k Hk) as [_ ->].
              rewrite decide_True; [done|]. apply elem_of_cons. by right.
           ++ destruct (decide (k = opt)) as [->|Hne].
              ** rewrite decide_True by (apply elem_of_cons; by left).
                 unfold a. by rewrite lookup_insert_eq, Hhas.
              ** rewrite Ha by done. rewrite decide_False; [done|].
                 by intros [?|?]%elem_of_cons.
      * intros e He. destruct (Hthrow e He) as (k & -> & Hk & Hsome & Hn).
        destruct (Hsame a Ha k Hk) as [Hp Heq].
        exists k. rewrite <- Hp, <- Heq. split_and!; try done.
        apply elem_of_cons. by right.
      * intros Hall. apply Hintro. intros k Hk Hsome.
        destruct (Hsame a Ha k Hk) as [-> Heq]. apply Hall.
        -- apply elem_of_cons. by right.
        -- by rewrite <- Heq.
Qed.

(** the unsupported options are the properties of the object outside
    the list *)
Lemma omit_keys (o : object) names k :
  k ∈ (map_to_list (omit o names)).*1 ↔ is_Some (o !! k) ∧ k ∉ names.
Proof.
  rewrite list_elem_of_fmap. split.
  - intros ([k' v] & -> & Hin). apply elem_of_map_to_list in Hin.
    unfold omit in Hin. apply map_lookup_filter_Some in Hin as [Hv Hk].
    split; [by eexists | done].
  - intros [[v Hv] Hk]. exists (k, v). split; [done|].
    apply elem_of_map_to_list. unfold omit.
    by apply map_lookup_filter_Some.
Qed.

Lemma validate_stages raw :
  validate raw
  = if negb (truthy (prop raw "host")) then Throw HostRequired else
    if negb (truthy (Number (prop raw "port"))) then Throw PortRequired else
    o1 <- each timeframes timeframe_bound
            (<["pattern" := or_else (prop raw "pattern") (VStr "*")]>
               (<["port" := Number (prop raw "port")]> raw)) ;;
    o2 <- each numerics numeric_option o1 ;;
    if negb (length (map_to_list (omit o2 supportedOptions)).*1 =? 0)%nat
    then Throw (UnsupportedOptions (map_to_list (omit o2 supportedOptions)).*1)
    else Ok o2.
Proof.
  unfold validate. unfold prop at 2 4.
  rewrite lookup_insert_eq, lookup_insert_ne by done. done.
Qed.

(** What validation does, case by case: the error thrown tells which
    check failed first; success tells that every check passed and what
    the options have become. *)
Lemma validate_cases raw :
  match validate raw with
  | Throw HostRequired => truthy (prop raw "host") = false
  | Throw e =>
      truthy (prop raw "host") = true
      ∧ match e with
        | PortRequired => truthy (Number (prop raw "port")) = false
        | _ =>
            truthy (Number (prop raw "port")) = true
            ∧ match e with
              | ExpectedTimeframe opt =>
                  opt ∈ timeframes ∧ is_Some (raw !! opt)
                  ∧ timeframeToSeconds (prop raw opt) = NaN
              | _ =>
                  timeframes_parse raw
                  ∧ match e with
                    | MustBeNumber opt =>
                        opt ∈ numerics ∧ is_Some (raw !! opt)
                        ∧ isNaN (prop raw opt) = true
                    | UnsupportedOptions opts =>
                        numerics_are_numbers raw
                        ∧ opts ≠ []
                        ∧ ∀ k, k ∈ opts
                               ↔ is_Some (raw !! k) ∧ k ∉ supportedOptions
                    | _ => False
                    end
              end
        end
  | Ok o =>
      truthy (prop raw "host") = true
      ∧ truthy (Number (prop raw "port")) = true
      ∧ timeframes_parse raw
      ∧ numerics_are_numbers raw
      ∧ (∀ k, is_Some (raw !! k) → k ∈ supportedOptions)
      ∧ ∀ k, o !! k
             = if decide (k = "port") then Some (Number (prop raw "port"))
               else if decide (k = "pattern")
               then Some (or_else (prop raw "pattern") (VStr "*"))
               else if decide (k ∈ timeframes)
               then (λ _, VNum (timeframeToSeconds (prop raw k))) <$> raw !! k
               else if decide (k ∈ numerics)
               then Some (default (prop defaults k) (raw !! k))
               else raw !! k
  end.
Proof.
  rewrite validate_stages.
  destruct (truthy (prop raw "host")) eqn:Hhost; cbn [negb]; [|done].
  destruct (truthy (Number (prop raw "port"))) eqn:Hport; cbn [negb];
    [|done].
  set (o0 := <["pattern" := or_else (prop raw "pattern") (VStr "*")]>
               (<["port" := Number (prop raw "port")]> raw)).
  assert (∀ k, k ≠ "port" → k ≠ "pattern" →
            o0 !! k = raw !! k ∧ prop o0 k = prop raw k) as Hzero.
  { intros k ? ?. unfold prop, o0. by rewrite !lookup_insert_ne. }
  assert (∀ k, k ∈ timeframes → k ≠ "port" ∧ k ≠ "pattern") as Htf.
  { intros k Hk. unfold timeframes in Hk.
    repeat (apply elem_of_cons in Hk as [->|Hk]; [done|]).
    by apply elem_of_nil in Hk. }
  assert (∀ k, k ∈ numerics →
            k ≠ "port" ∧ k ≠ "pattern" ∧ k ∉ timeframes) as Hnu.
  { intros k Hk. unfold numerics in Hk.
    repeat (apply elem_of_cons in Hk as [->|Hk];
            [by split_and!; [..|apply (bool_decide_unpack _); vm_compute]|]).
    by apply elem_of_nil in Hk. }
  assert (NoDup timeframes) as Hnd1
    by (apply (bool_decide_unpack _); by vm_compute).
  assert (NoDup numerics) as Hnd2
    by (apply (bool_decide_unpack _); by vm_compute).
  assert (∀ k, k ∈ numerics → isNaN (prop defaults k) = false) as Hdef.
  { intros k Hk. unfold numerics in Hk.
    repeat (apply elem_of_cons in Hk as [->|Hk]; [done|]).
    by apply elem_of_nil in Hk. }
  destruct (each_timeframes timeframes o0 Hnd1) as (Hok1 & Hthrow1 & _).
  destruct (each timeframes timeframe_bound o0) as [o1|e1]; cbn [bind].
  2:{ destruct (Hthrow1 e1 eq_refl) as (opt & -> & Hopt & Hsome & Hnan).
      destruct (Htf opt Hopt) as [? ?].
      destruct (Hzero opt) as [Hl Hp]; [done..|].
      rewrite <- Hl, <- Hp. done. }
  destruct (Hok1 o1 eq_refl) as [Hparse Hl1]. clear Hok1 Hthrow1.
  assert (timeframes_parse raw) as Hparse'.
  { intros k Hk Hsome. destruct (Htf k Hk) as [? ?].
    destruct (Hzero k) as [Hl Hp]; [done..|].
    rewrite <- Hp. apply Hparse; [done|]. by rewrite Hl. }
  assert (∀ k, k ∈ numerics →
            o1 !! k = raw !! k ∧ prop o1 k = prop raw k) as Hone.
  { intros k Hk. destruct (Hnu k Hk) as (? & ? & ?).
    destruct (Hzero k) as [Hl _]; [done..|].
    unfold prop. by rewrite Hl1, decide_False, Hl. }
  destruct (each_numerics numerics o1 Hnd2 Hdef) as (Hok2 & Hthrow2 & _).
  destruct (each numerics numeric_option o1) as [o2|e2]; cbn [bind].
  2:{ destruct (Hthrow2 e2 eq_refl) as (opt & -> & Hopt & Hsome & Hnan).
      destruct (Hone opt Hopt) as [Hl Hp]. rewrite <- Hl, <- Hp. done. }
  destruct (Hok2 o2 eq_refl) as [Hnum Hl2]. clear Hok2 Hthrow2.
  assert (numerics_are_numbers raw) as Hnum'.
  { intros k Hk Hsome. destruct (Hone k Hk) as [Hl Hp].
    rewrite <- Hp. apply Hnum; [done|]. by rewrite Hl. }
  assert (∀ k, o2 !! k
             = if decide (k = "port") then Some (Number (prop raw "port"))
               else if decide (k = "pattern")
               then Some (or_else (prop raw "pattern") (VStr "*"))
               else if decide (k ∈ timeframes)
               then (λ _, VNum (timeframeToSeconds (prop raw k))) <$> raw !! k
               else if decide (k ∈ numerics)
               then Some (default (prop defaults k) (raw !! k))
               else raw !! k) as Heff.
  { intros k. rewrite Hl2.
    destruct (decide (k ∈ numerics)) as [Hk|Hk].
    - destruct (Hnu k Hk) as (? & ? & ?). destruct (Hone k Hk) as [-> _].
      by rewrite !decide_False.
    - rewrite Hl1. unfold o0.
      destruct (decide (k = "port")) as [->|?].
      { rewrite decide_False by (apply (bool_decide_unpack _); by vm_compute).
        by rewrite lookup_insert_ne, lookup_insert_eq. }
      destruct (decide (k = "pattern")) as [->|?].
      { rewrite decide_False by (apply (bool_decide_unpack _); by vm_compute).
        by rewrite lookup_insert_eq. }
      destruct (Hzero k) as [Hl Hp]; [done..|].
      fold o0. rewrite Hl, Hp. done. }
  assert (∀ k, k ∉ supportedOptions → o2 !! k = raw !! k) as Hout.
  { intros k Hk. rewrite Heff.
    assert (∀ j, j ∈ supportedOptions → k ≠ j) as Hne by (by intros j ? ->).
    rewrite decide_False
      by (apply Hne; apply (bool_decide_unpack _); by vm_compute).
    rewrite decide_False
      by (apply Hne; apply (bool_decide_unpack _); by vm_compute).
    rewrite decide_False.
    2:{ intros Hk'. unfold timeframes in Hk'.
        repeat (apply elem_of_cons in Hk' as [->|Hk'];
                [by apply Hk, (bool_decide_unpack _); vm_compute|]).
        by apply elem_of_nil in Hk'. }
    rewrite decide_False; [done|].
    intros Hk'. unfold numerics in Hk'.
    repeat (apply elem_of_cons in Hk' as [->|Hk'];
            [by apply Hk, (bool_decide_unpack _); vm_compute|]).
    by apply elem_of_nil in Hk'. }
  assert (∀ k, k ∈ (map_to_list (omit o2 supportedOptions)).*1
               ↔ is_Some (raw !! k) ∧ k ∉ supportedOptions) as Hun.
  { intros k. rewrite omit_keys. split; intros [Hs Hk]; split; try done.
    - by rewrite <- Hout.
    - by rewrite Hout. }
  destruct (map_to_list (omit o2 supportedOptions)).*1 as [|k0 l] eqn:Hl;
    cbn [length Nat.eqb negb].
  - split_and!; try done. intros k Hk.
    destruct (decide (k ∈ supportedOptions)) as [|Hno]; [done|].
    assert (k ∈ []) as Hnil%elem_of_nil by (by apply Hun). done.
  - split_and!; done.
Qed.
End validation_more.

Section callback_facts.
Context `{Conversions} `{TimeframeParser}.
Variable c : scan.

Lemma chosen_at_limit selected ms : chosen c true selected ms = [].
Proof. by destruct ms. Qed.

Lemma examine_replies results i key rest s :
  examine c results i (key :: rest) s
  = match replies_of c results i with
    | Some (idletime, ttl) =>
        examine c results (S i) rest
          (if negb (atSelectLimit s) && selects c idletime ttl
           then select c key idletime ttl s else s)
    | None => (s, false)
    end.
Proof.
  cbn [examine]. unfold replies_of.
  destruct (results !! _) as [idle|]; [|done]. cbn [mbind option_bind].
  destruct (checkTTL c); cbn [mbind option_bind]; [|done].
  by destruct (results !! _).
Qed.

(** the loop of the callback emits the chosen ones of the matching
    entries, and counts them *)
Lemma examine_emits results i keys s :
  emitted (examine c results i keys s).1
  = emitted s ++ (EmitData <$> chosen c (atSelectLimit s)
                                 (streamKeysSelected s)
                                 (matching c results i keys))
  ∧ streamKeysSelected (examine c results i keys s).1
    = (streamKeysSelected s
       + Z.of_nat (length (chosen c (atSelectLimit s) (streamKeysSelected s)
                             (matching c results i keys))))%Z.
Proof.
  revert i s. induction keys as [|key rest IH]; intros i s.
  - simpl. rewrite app_nil_r. split; [done | lia].
  - rewrite examine_replies. cbn [matching].
    destruct (replies_of c results i) as [[idletime ttl]|].
    2:{ simpl. rewrite app_nil_r. split; [done | lia]. }
    destruct (IH (S i)
                (if negb (atSelectLimit s) && selects c idletime ttl
                 then select c key idletime ttl s else s)) as [-> ->].
    destruct (atSelectLimit s) eqn:Hat; cbn [negb andb].
    { rewrite Hat, !chosen_at_limit. done. }
    destruct (selects c idletime ttl); cbn [app].
    + cbn [chosen select write emit emitted streamKeysSelected atSelectLimit
           fmap list_fmap length].
      rewrite <- app_assoc. split; [done | lia].
    + by rewrite Hat.
Qed.

Lemma chosen_limit L flag selected ms :
  prop (options c) "limit" = VNum (Fin L) → (0 ≤ selected)%Z →
  (flag = true ↔ (Z.max 1 L ≤ selected)%Z) →
  chosen c flag selected ms = take (Z.to_nat (Z.max 1 L - selected)) ms.
Proof.
  intros HL. revert flag selected.
  induction ms as [|m ms IH]; intros flag selected Hpos Hflag.
  - by rewrite take_nil.
  - cbn [chosen]. destruct flag.
    + replace (Z.to_nat _) with 0%nat; [done|].
      destruct Hflag as [Hflag _]. specialize (Hflag eq_refl). lia.
    + assert (selected < Z.max 1 L)%Z as Hlt.
      { destruct (Z.lt_ge_cases selected (Z.max 1 L)); [done|].
        by destruct Hflag as [_ Hflag]; specialize (Hflag ltac:(lia)). }
      replace (Z.to_nat (Z.max 1 L - selected))
        with (S (Z.to_nat (Z.max 1 L - (selected + 1)))) by lia.
      cbn [take]. f_equal. apply IH; [lia|].
      rewrite HL, ge_Fin, bool_decide_eq_true. lia.
Qed.

Lemma chosen_unlimited selected ms :
  prop (options c) "limit" = VNum PosInf → chosen c false selected ms = ms.
Proof.
  intros HL. revert selected. induction ms as [|m ms IH]; intros selected.
  - done.
  - cbn [chosen]. rewrite HL. unfold ge, lt. simpl.
    f_equal. apply (IH (selected + 1)%Z).
Qed.

Lemma chosen_sublist flag selected ms :
  chosen c flag selected ms `prefix_of` ms.
Proof.
  revert flag selected. induction ms as [|m ms IH]; intros flag selected.
  - done.
  - cbn [chosen]. destruct flag; [apply prefix_nil|].
    apply prefix_cons, IH.
Qed.

Lemma matching_entries results i keys :
  Forall (λ d, ∃ key idletime ttl,
            key ∈ keys ∧ d = entry c key idletime ttl)
    (matching c results i keys).
Proof.
  revert i. induction keys as [|key rest IH]; intros i; cbn [matching].
  - constructor.
  - destruct (replies_of c results i) as [[idletime ttl]|]; [|constructor].
    apply Forall_app. split.
    + destruct (selects c idletime ttl); repeat constructor.
      exists key, idletime, ttl. split; [apply elem_of_cons; by left | done].
    + eapply Forall_impl; [apply IH|].
      intros d (k & a & b & Hk & ->). exists k, a, b.
      split; [apply elem_of_cons; by right | done].
Qed.

Lemma matching_length results i keys :
  length (matching c results i keys) ≤ length keys.
Proof.
  revert i. induction keys as [|key rest IH]; intros i; cbn [matching].
  - done.
  - destruct (replies_of c results i) as [[idletime ttl]|]; [|simpl; lia].
    rewrite length_app. specialize (IH (S i)).
    destruct (selects c idletime ttl); simpl; lia.
Qed.

(** the callback returns when the replies of every key are there *)
Lemma examine_returns results i keys s :
  keys ≠ [] →
  (examine c results i keys s).2
  = bool_decide (width c * (i + length keys) ≤ length results).
Proof.
  revert i s. induction keys as [|key rest IH]; intros i s Hne; [done|].
  rewrite examine_replies. unfold replies_of, width.
  destruct (checkTTL c) eqn:Httl.
  - destruct (results !! (i * 2)) as [idle|] eqn:Hidle; cbn [mbind option_bind].
    2:{ apply lookup_ge_None in Hidle. symmetry.
        apply bool_decide_eq_false. simpl. lia. }
    destruct (results !! (i * 2 + 1)) as [t|] eqn:Ht;
      cbn [fmap option_fmap option_map mbind option_bind].
    2:{ apply lookup_ge_None in Ht. symmetry.
        apply bool_decide_eq_false. simpl. lia. }
    apply lookup_lt_Some in Ht.
    destruct rest as [|key' rest].
    + simpl. symmetry. apply bool_decide_eq_true. lia.
    + rewrite IH by done. unfold width. rewrite Httl.
      apply bool_decide_ext. simpl. lia.
  - destruct (results !! i) as [idle|] eqn:Hidle; cbn [mbind option_bind].
    2:{ apply lookup_ge_None in Hidle. symmetry.
        apply bool_decide_eq_false. simpl. lia. }
    apply lookup_lt_Some in Hidle.
    destruct rest as [|key' rest].
    + simpl. symmetry. apply bool_decide_eq_true. lia.
    + rewrite IH by done. unfold width. rewrite Httl.
      apply bool_decide_ext. simpl. lia.
Qed.
End callback_facts.

Section event_facts.
Context `{Conversions} `{TimeframeParser}.
Variable c : scan.

Lemma continuation_emits s :
  emitted (continuation c s)
  = emitted s
      ++ (if summarised (continuation c s) && negb (summarised s)
          then [EmitData (summary c (continuation c s)); EmitEnd] else [])
  ∧ (summarised s = true → summarised (continuation c s) = true).
Proof.
  unfold continuation. destruct (endScan s) as [n|].
  2:{ destruct (summarised s); simpl; by rewrite app_nil_r. }
  destruct (summarised s) eqn:Hsum; cbn [negb andb].
  { rewrite Hsum. simpl. by rewrite app_nil_r. }
  destruct (all_fulfilled n s).
  - cbn [end_ write emit emitted summarised andb negb].
    by rewrite <- app_assoc.
  - rewrite Hsum. simpl. by rewrite app_nil_r.
Qed.

Lemma errors_data ds : errors (EmitData <$> ds) = [].
Proof. by induction ds. Qed.

Lemma data_data ds : data (EmitData <$> ds) = ds.
Proof. induction ds; simpl; by f_equal. Qed.

(** What one event makes the scanner emit: the entries chosen from the
    page of a fulfilled [exec()], or the first connection error; and then
    the summary and ['end'], if the event completes the scan. *)
Lemma dispatch_emits e s s' :
  dispatch c e s = Some s' →
  emitted s'
  = emitted s ++ fresh c e s
      ++ (if summarised s' && negb (summarised s)
          then [EmitData (summary c s'); EmitEnd] else [])
  ∧ (summarised s = true → summarised s' = true)
  ∧ errored s' = errored s || bool_decide (redis_errors [e] ≠ []).
Proof.
  intros He. unfold dispatch in He.
  apply fmap_Some in He as (s1 & He & ->).
  destruct (continuation_emits s1) as [Hem Hmono].
  destruct (continuation_fields c s1) as (_ & _ & _ & _ & _ & -> & _).
  assert (emitted s1 = emitted s ++ fresh c e s
          ∧ summarised s1 = summarised s
          ∧ errored s1 = errored s || bool_decide (redis_errors [e] ≠ []))
    as (Hfresh & Hsum & Herr).
  { destruct e as [keys| |i results|i|err]; cbn [fresh].
    - destruct (paused s || ended s); [done|]. inversion He; subst.
      unfold on_data. cbn [atSelectLimit streamKeysScanned].
      destruct (atSelectLimit s || _); unfold call_endScan;
        cbn [endScan]; [destruct (endScan s)|]; simpl;
        by rewrite app_nil_r, orb_false_r.
    - destruct (ended s); [done|]. inversion He; subst.
      unfold on_end, call_endScan. cbn [endScan].
      destruct (endScan s); simpl; by rewrite app_nil_r, orb_false_r.
    - apply bind_Some in He as (p & Hp & He). inversion He; subst.
      rewrite Hp. unfold on_results.
      pose proof (examine_emits c results 0 (batchKeys p) s) as [Hem1 _].
      destruct (examine c results 0 (batchKeys p) s) as [s1 r] eqn:Hex.
      apply examine_spec in Hex as ((_ & _ & _ & Hs & Her & _) & _).
      simpl in Hem1. unfold settle. simpl.
      by rewrite Hem1, Hs, Her, orb_false_r.
    - apply bind_Some in He as (p & Hp & He). inversion He; subst.
      simpl. by rewrite app_nil_r, orb_false_r.
    - inversion He; subst. unfold on_error.
      destruct (errored s) eqn:Hed; simpl; rewrite ?Hed; by rewrite ?app_nil_r. }
  rewrite Hem, Hfresh, Hsum, Herr, <- app_assoc.
  split; [done|]. split; [|done]. intros Hs. apply Hmono. congruence.
Qed.

Lemma errors_fresh e s :
  errors (fresh c e s) = if errored s then [] else redis_errors [e].
Proof.
  destruct e as [keys| |i results|i|err]; cbn [fresh];
    try (by destruct (errored s)).
  destruct (pending i s); rewrite ?errors_data; by destruct (errored s).
Qed.

Lemma dispatch_errors e s s' :
  dispatch c e s = Some s' →
  errors (emitted s')
  = errors (emitted s) ++ (if errored s then [] else redis_errors [e])
  ∧ errored s' = errored s || bool_decide (redis_errors [e] ≠ []).
Proof.
  intros He. destruct (dispatch_emits e s s' He) as (-> & _ & ->).
  split; [|done]. rewrite !errors_app, errors_fresh.
  destruct (summarised s' && _); simpl; by rewrite app_nil_r.
Qed.

Lemma run_errors events s s' :
  run c events s = Some s' →
  errors (emitted s')
  = errors (emitted s)
      ++ (if errored s then [] else take 1 (redis_errors events)).
Proof.
  revert s. induction events as [|e events IH]; simpl; intros s Hrun.
  - inversion Hrun; subst. destruct (errored s'); by rewrite app_nil_r.
  - apply bind_Some in Hrun as (s1 & He & Hrun).
    rewrite (IH _ Hrun).
    destruct (dispatch_errors e s s1 He) as [-> ->].
    rewrite <- app_assoc. f_equal.
    destruct (errored s); [done|]. cbn [orb].
    by destruct e.
Qed.
End event_facts.

Section counter_facts.
Context `{Conversions} `{TimeframeParser}.
Variable c : scan.

Lemma examined_app ps qs : examined (ps ++ qs) = (examined ps + examined qs)%Z.
Proof. unfold examined. by rewrite filter_app, fmap_app, total_app. Qed.

Lemma total_cons page pages :
  total (page :: pages) = (Z.of_nat (length page) + total pages)%Z.
Proof. done. Qed.

Lemma examined_le ps :
  (0 ≤ examined ps ≤ total (batchKeys <$> ps))%Z.
Proof.
  unfold examined. induction ps as [|p ps IH]; [done|].
  rewrite filter_cons.
  destruct (decide (settled p ≠ Pending));
    rewrite ?fmap_cons, ?total_cons; lia.
Qed.

Lemma examined_settle i how ps p :
  ps !! i = Some p → settled p = Pending → how ≠ Pending →
  examined (alter (λ p, {| batchKeys := batchKeys p; commands := commands p;
                           settled := how |}) i ps)
  = (examined ps + Z.of_nat (length (batchKeys p)))%Z.
Proof.
  intros Hp Hpend Hhow. revert i Hp. unfold examined.
  induction ps as [|q ps IH]; intros [|i] Hp; try done.
  - inversion Hp; subst q. cbn [alter list_alter].
    rewrite filter_cons_True by done.
    rewrite (filter_cons_False _ p) by (intros Hx; by apply Hx).
    rewrite fmap_cons, total_cons. cbn [batchKeys]. lia.
  - cbn [alter list_alter]. simpl in Hp. specialize (IH i Hp).
    rewrite !filter_cons. cbn [alter] in IH.
    destruct (decide (settled q ≠ Pending));
      rewrite ?fmap_cons, ?total_cons; lia.
Qed.

Lemma chosen_length flag selected ms :
  length (chosen c flag selected ms) ≤ length ms.
Proof. apply prefix_length, chosen_sublist. Qed.

(** the counter of selected keys stays within the keys of the pages
    whose promise has settled *)
Lemma dispatch_examined e s s' :
  dispatch c e s = Some s' →
  (0 ≤ streamKeysSelected s ≤ examined (pipelinePromises s))%Z →
  (0 ≤ streamKeysSelected s' ≤ examined (pipelinePromises s'))%Z.
Proof.
  intros He Hs. unfold dispatch in He.
  apply fmap_Some in He as (s1 & He & ->).
  destruct (continuation_fields c s1) as (_ & -> & _ & -> & _).
  destruct e as [keys| |i results|i|err].
  - destruct (paused s || ended s); [done|]. inversion He; subst.
    unfold on_data. cbn [atSelectLimit streamKeysScanned].
    destruct (atSelectLimit s || _); unfold call_endScan;
      cbn [endScan]; [destruct (endScan s)|]; simpl;
      rewrite examined_app; unfold examined at 2; simpl; lia.
  - destruct (ended s); [done|]. inversion He; subst.
    unfold on_end, call_endScan. cbn [endScan].
    by destruct (endScan s).
  - apply bind_Some in He as (p & Hp & He). inversion He; subst.
    apply pending_lookup in Hp as [Hp Hpend]. unfold on_results.
    pose proof (examine_emits c results 0 (batchKeys p) s) as [_ Hsel].
    destruct (examine c results 0 (batchKeys p) s) as [s1 r] eqn:Hex.
    apply examine_spec in Hex as ((Hps & _) & _).
    simpl in Hsel. unfold settle. simpl. rewrite Hps, Hsel.
    rewrite (examined_settle i _ _ p Hp Hpend) by (by destruct r).
    pose proof (chosen_length (atSelectLimit s) (streamKeysSelected s)
                  (matching c results 0 (batchKeys p))).
    pose proof (matching_length c results 0 (batchKeys p)). lia.
  - apply bind_Some in He as (p & Hp & He). inversion He; subst.
    apply pending_lookup in Hp as [Hp Hpend]. unfold settle. simpl.
    rewrite (examined_settle i _ _ p Hp Hpend) by done. lia.
  - inversion He; subst. unfold on_error. by destruct (errored s).
Qed.

Lemma run_examined events s s' :
  run c events s = Some s' →
  (0 ≤ streamKeysSelected s ≤ examined (pipelinePromises s))%Z →
  (0 ≤ streamKeysSelected s' ≤ examined (pipelinePromises s'))%Z.
Proof.
  revert s. induction events as [|e events IH]; simpl; intros s Hrun Hs.
  - by inversion Hrun; subst.
  - apply bind_Some in Hrun as (s1 & He & Hrun).
    eauto using dispatch_examined.
Qed.

(** the promise of a page settles as the callback returns or throws *)
Lemma dispatch_settles i results s s' :
  dispatch c (ExecFulfilled i results) s = Some s' →
  ∃ p, pending i s = Some p
    ∧ pipelinePromises s' !! i
      = Some {| batchKeys := batchKeys p; commands := commands p;
                settled :=
                  if bool_decide (width c * length (batchKeys p)
                                  ≤ length results)
                  then Fulfilled else Rejected |}
    ∧ ∀ j, j ≠ i → pipelinePromises s' !! j = pipelinePromises s !! j.
Proof.
  intros He. unfold dispatch in He.
  apply fmap_Some in He as (s1 & He & ->).
  destruct (continuation_fields c s1) as (_ & -> & _).
  apply bind_Some in He as (p & Hp & He). inversion He; subst.
  exists p. split; [done|].
  apply pending_lookup in Hp as [Hp Hpend]. unfold on_results.
  assert ((examine c results 0 (batchKeys p) s).2
          = bool_decide (width c * length (batchKeys p) ≤ length results))
    as Hret.
  { destruct (batchKeys p) as [|key keys] eqn:Hkeys.
    - simpl. symmetry. apply bool_decide_eq_true. lia.
    - by rewrite examine_returns. }
  destruct (examine c results 0 (batchKeys p) s) as [s1 r] eqn:Hex.
  apply examine_spec in Hex as ((Hps & _) & _).
  simpl in Hret. subst r. unfold settle. simpl. rewrite Hps. split.
  - by rewrite list_lookup_alter_eq, Hp.
  - intros j Hj. by rewrite list_lookup_alter_ne.
Qed.
End counter_facts.

Section limit_edge_facts.
Context `{Conversions} `{TimeframeParser}.
Variable c : scan.

(** with [limit] a number L, the flag follows the counter from the first
    selection on: the loop stops at the larger of 1 and L *)
Lemma examine_within_max L results i keys s :
  prop (options c) "limit" = VNum (Fin L) →
  within_limit (Z.max 1 L) s →
  within_limit (Z.max 1 L) (examine c results i keys s).1.
Proof.
  intros HL. revert i s.
  induction keys as [|key keys IH]; intros i s Hs; [done|].
  rewrite examine_replies.
  destruct (replies_of c results i) as [[idletime ttl]|]; [|done].
  apply IH.
  destruct (atSelectLimit s) eqn:Hat; cbn [negb andb]; [done|].
  destruct (selects c idletime ttl); [|done].
  destruct Hs as [[Hlo Hhi] Hiff]. rewrite Hat in Hiff.
  assert (streamKeysSelected s < Z.max 1 L)%Z as Hlt.
  { destruct (Z.lt_ge_cases (streamKeysSelected s) (Z.max 1 L)); [done|].
    by destruct Hiff as [_ Hiff]; specialize (Hiff ltac:(lia)). }
  unfold within_limit, select. simpl. rewrite HL.
  split; [lia|]. rewrite ge_Fin, bool_decide_eq_true. lia.
Qed.

(** without a limit the flag is never set *)
Lemma examine_unlimited results i keys s :
  prop (options c) "limit" = VNum PosInf →
  atSelectLimit s = false →
  atSelectLimit (examine c results i keys s).1 = false.
Proof.
  intros HL. revert i s.
  induction keys as [|key keys IH]; intros i s Hs; [done|].
  rewrite examine_replies.
  destruct (replies_of c results i) as [[idletime ttl]|]; [|done].
  apply IH. rewrite Hs. cbn [negb andb].
  destruct (selects c idletime ttl); [|done].
  unfold select. simpl. by rewrite HL.
Qed.

Lemma dispatch_limit_invariant (P : state → Prop) e s s' :
  (∀ t t', atSelectLimit t' = atSelectLimit t →
           streamKeysSelected t' = streamKeysSelected t → P t → P t') →
  (∀ results keys t, P t → P (examine c results 0 keys t).1) →
  dispatch c e s = Some s' → P s → P s'.
Proof.
  intros Hsame Hex He Hs.
  assert ((∃ i results, e = ExecFulfilled i results)
          ∨ ∀ i results, e ≠ ExecFulfilled i results)
    as [(i & results & ->)|Hne] by (destruct e; eauto).
  - unfold dispatch in He. apply fmap_Some in He as (s1 & He & ->).
    apply bind_Some in He as (p & Hp & He). inversion He; subst.
    destruct (continuation_fields c
                (on_results c i (batchKeys p) results s))
      as (Hat & _ & _ & Hsel & _).
    destruct (on_results_fields c i (batchKeys p) results s)
      as (Hat' & Hsel' & _).
    apply (Hsame (examine c results 0 (batchKeys p) s).1);
      [congruence | congruence | by apply Hex].
  - destruct (dispatch_selected c e s s' He Hne) as [Hat Hsel].
    by apply (Hsame s).
Qed.

Lemma run_limit_invariant (P : state → Prop) events s s' :
  (∀ t t', atSelectLimit t' = atSelectLimit t →
           streamKeysSelected t' = streamKeysSelected t → P t → P t') →
  (∀ results keys t, P t → P (examine c results 0 keys t).1) →
  run c events s = Some s' → P s → P s'.
Proof.
  intros Hsame Hex. revert s.
  induction events as [|e events IH]; simpl; intros s Hrun Hs.
  - by inversion Hrun; subst.
  - apply bind_Some in Hrun as (s1 & He & Hrun).
    apply (IH s1 Hrun).
    by apply (dispatch_limit_invariant P e s s1).
Qed.

Lemma run_within_max L events s :
  prop (options c) "limit" = VNum (Fin L) →
  run c events initial = Some s → within_limit (Z.max 1 L) s.
Proof.
  intros HL Hrun.
  apply (run_limit_invariant (within_limit (Z.max 1 L)) events initial s);
    try done.
  - unfold within_limit. by intros t t' -> ->.
  - intros results keys t. by apply examine_within_max.
  - unfold within_limit. simpl. split; [lia|]. split; [done|lia].
Qed.

Lemma run_unlimited events s :
  prop (options c) "limit" = VNum PosInf →
  run c events initial = Some s → atSelectLimit s = false.
Proof.
  intros HL Hrun.
  apply (run_limit_invariant (λ t, atSelectLimit t = false)
           events initial s); try done.
  - by intros t t' -> _.
  - intros results keys t. by apply examine_unlimited.
Qed.
End limit_edge_facts.

Section completion_facts.
Context `{Conversions} `{TimeframeParser}.
Variable c : scan.

Lemma signals_fresh_error e s :
  (∀ i results, e ≠ ExecFulfilled i results) → signals (fresh c e s) = [].
Proof.
  intros Hne. destruct e as [keys| |i results|i|err]; try done.
  - by destruct (Hne i results).
  - simpl. by destruct (errored s).
Qed.

(** once the summary is written, the stream hands over nothing, no
    promise is left to settle, and the scanner emits nothing but a
    connection error *)
Lemma dispatch_after_summary e s s' :
  consistent c s → summarised s = true → dispatch c e s = Some s' →
  (e = StreamEnd ∨ ∃ err, e = RedisError err)
  ∧ signals (emitted s') = signals (emitted s)
  ∧ streamKeysScanned s' = streamKeysScanned s
  ∧ streamKeysSelected s' = streamKeysSelected s
  ∧ summarised s' = true.
Proof.
  intros Hs Hsum He.
  pose proof (dispatch_consistent c e s s' Hs He) as Hs'.
  destruct Hs as [Hco _].
  destruct (summarised_then c s Hco Hsum) as [[n Hend] Hall].
  destruct (endScan_sees_all c s Hco n Hend) as [_ Hstop].
  assert (e = StreamEnd ∨ ∃ err, e = RedisError err) as Hev.
  { destruct e as [keys| |i results|i|err]; eauto.
    - unfold dispatch in He. apply fmap_Some in He as (s1 & He & _).
      destruct Hstop as [Hp|Hp]; rewrite Hp in He; [done|].
      by rewrite orb_true_r in He.
    - unfold dispatch in He. apply fmap_Some in He as (s1 & He & _).
      apply bind_Some in He as (p & Hp & _).
      pose proof (pending_not_summarised c i p s Hco Hp). congruence.
    - unfold dispatch in He. apply fmap_Some in He as (s1 & He & _).
      apply bind_Some in He as (p & Hp & _).
      pose proof (pending_not_summarised c i p s Hco Hp). congruence. }
  assert (∀ i results, e ≠ ExecFulfilled i results) as Hne
    by (by destruct Hev as [-> | [err ->]]).
  destruct (dispatch_emits c e s s' He) as (Hem & Hmono & _).
  destruct (dispatch_selected c e s s' He Hne) as [_ Hsel].
  split; [done|]. split_and!; try done.
  - rewrite Hem, Hsum, andb_false_r, app_nil_r, signals_app.
    by rewrite signals_fresh_error, app_nil_r.
  - destruct Hs' as [[-> _ _ _ _ _] _]. destruct Hco as [-> _ _ _ _ _].
    rewrite (dispatch_pages c e s s' He), total_app.
    destruct Hev as [-> | [err ->]]; simpl; lia.
  - by apply Hmono.
Qed.

Lemma run_after_summary events s s' :
  consistent c s → summarised s = true → run c events s = Some s' →
  Forall (λ e, e = StreamEnd ∨ ∃ err, e = RedisError err) events
  ∧ signals (emitted s') = signals (emitted s)
  ∧ streamKeysScanned s' = streamKeysScanned s
  ∧ streamKeysSelected s' = streamKeysSelected s.
Proof.
  revert s. induction events as [|e events IH]; simpl; intros s Hs Hsum Hrun.
  - inversion Hrun; subst. by split; [constructor|].
  - apply bind_Some in Hrun as (s1 & He & Hrun).
    destruct (dispatch_after_summary e s s1 Hs Hsum He)
      as (Hev & Hsig & Hsc & Hsel & Hsum1).
    destruct (IH s1 (dispatch_consistent c e s s1 Hs He) Hsum1 Hrun)
      as (Hevs & Hsig' & Hsc' & Hsel').
    split; [by constructor|]. split_and!; congruence.
Qed.

Lemma end_summarised s :
  coherent c s → EmitEnd ∈ emitted s → summarised s = true.
Proof.
  intros Hs Hend. destruct (summarised s) eqn:Hsum; [done|].
  destruct (emitted_order c s Hs) as (entries & Hem & _).
  rewrite Hsum, app_nil_r in Hem.
  assert (EmitEnd ∈ signals (emitted s)) as Hin
    by (by apply list_elem_of_filter).
  rewrite Hem in Hin. apply list_elem_of_fmap in Hin as (d & Hd & _).
  discriminate.
Qed.
End completion_facts.

Section record_more.
Context `{Conversions} `{TimeframeParser}.
Variable c : scan.
Hypothesis Hvalid : validated (options c).

Lemma selected_keys_app es fs :
  selected_keys (es ++ fs) = selected_keys es ++ selected_keys fs.
Proof. unfold selected_keys. by rewrite data_app, filter_app. Qed.

Lemma chosen_entries flag selected results i keys :
  Forall (λ d, ∃ key idletime ttl,
            key ∈ keys ∧ d = entry c key idletime ttl)
    (chosen c flag selected (matching c results i keys)).
Proof.
  destruct (chosen_sublist c flag selected (matching c results i keys))
    as [rest Hrest].
  pose proof (matching_entries c results i keys) as Hall.
  rewrite Hrest in Hall. by apply Forall_app in Hall as [? _].
Qed.

Lemma selected_keys_fresh e s :
  selected_keys (fresh c e s) = data (fresh c e s).
Proof.
  unfold selected_keys. apply filter_all.
  destruct e as [keys| |i results|i|err]; cbn [fresh];
    try (by constructor).
  - destruct (pending i s) as [p|]; [|constructor].
    rewrite data_data. eapply Forall_impl; [apply chosen_entries|].
    intros d (key & idletime & ttl & _ & ->).
    apply entry_is_selected_key.
  - destruct (errored s); constructor.
Qed.

(** the records of selected keys an event adds *)
Lemma dispatch_selected_keys e s s' :
  dispatch c e s = Some s' →
  selected_keys (emitted s')
  = selected_keys (emitted s) ++ data (fresh c e s).
Proof.
  intros He. destruct (dispatch_emits c e s s' He) as (-> & _ & _).
  rewrite !selected_keys_app, selected_keys_fresh. f_equal.
  destruct (summarised s' && _); [|by rewrite app_nil_r].
  unfold selected_keys. simpl.
  rewrite filter_cons_False, filter_nil, app_nil_r; [done|].
  destruct (summary_counters c s' Hvalid) as (_ & _ & _ & Hk). congruence.
Qed.

Lemma entry_name_key key idletime ttl :
  entry c key idletime ttl !! "name" = Some (redisDescription c)
  ∧ entry c key idletime ttl !! "key" = Some (VStr key)
  ∧ entry c key idletime ttl !! "idletime" = Some idletime.
Proof. unfold entry. destruct (checkTTL c); by simplify_map_eq. Qed.

(** every record of a selected key is the entry of a key of a page *)
Lemma run_scanned_keys events s s' :
  run c events s = Some s' →
  Forall (λ d, ∃ key idletime ttl page,
            d = entry c key idletime ttl ∧ key ∈ page
            ∧ page ∈ batchKeys <$> pipelinePromises s)
    (selected_keys (emitted s)) →
  Forall (λ d, ∃ key idletime ttl page,
            d = entry c key idletime ttl ∧ key ∈ page
            ∧ page ∈ batchKeys <$> pipelinePromises s')
    (selected_keys (emitted s')).
Proof.
  revert s. induction events as [|e events IH]; simpl; intros s Hrun Hs.
  - by inversion Hrun; subst.
  - apply bind_Some in Hrun as (s1 & He & Hrun). apply (IH s1 Hrun).
    rewrite (dispatch_selected_keys e s s1 He).
    rewrite (dispatch_pages c e s s1 He). apply Forall_app. split.
    + eapply Forall_impl; [exact Hs|].
      intros d (key & idletime & ttl & page & -> & Hk & Hp).
      exists key, idletime, ttl, page. split_and!; try done.
      apply elem_of_app. by left.
    + destruct e as [keys| |i results|i|err]; cbn [fresh];
        try (by constructor).
      * destruct (pending i s) as [p|] eqn:Hp; [|constructor].
        rewrite data_data. eapply Forall_impl; [apply chosen_entries|].
        intros d (key & idletime & ttl & Hk & ->).
        exists key, idletime, ttl, (batchKeys p). split_and!; try done.
        apply elem_of_app. left. apply pending_lookup in Hp as [Hp _].
        apply list_elem_of_fmap. exists p. split; [done|].
        apply list_elem_of_lookup. by exists i.
      * destruct (errored s); constructor.
Qed.
End record_more.

Section command_line_facts.
Context `{Conversions} `{TimeframeParser}.

Lemma command_line_supported args host port redisMaster k :
  is_Some (command_line_options args host port redisMaster !! k) →
  k ∈ supportedOptions.
Proof.
  intros [v Hv]. unfold command_line_options, pickBy in Hv.
  apply map_lookup_filter_Some in Hv as [Hv _].
  apply elem_of_list_to_map_2 in Hv.
  rewrite !elem_of_cons in Hv.
  assert (∀ j : string, bool_decide (j ∈ supportedOptions) = true →
            j ∈ supportedOptions) as Hyes
    by (intros j; apply bool_decide_eq_true).
  repeat (destruct Hv as [[= -> _]|Hv]; [apply Hyes; vm_compute; reflexivity|]).
  by apply elem_of_nil in Hv.
Qed.

Lemma pickBy_lookup (o : object) keep k :
  pickBy o keep !! k
  = match o !! k with
    | Some v => if keep v then Some v else None
    | None => None
    end.
Proof.
  unfold pickBy. destruct (o !! k) as [v|] eqn:Hv.
  - destruct (keep v) eqn:Hk.
    + by apply map_lookup_filter_Some.
    + apply map_lookup_filter_None. right. intros w Hw. simpl.
      rewrite Hv in Hw. inversion Hw; subst. congruence.
  - apply map_lookup_filter_None. by left.
Qed.

Lemma command_line_host args host port redisMaster :
  command_line_options args host port redisMaster !! "host"
  = if given host then Some host else None.
Proof.
  unfold command_line_options. rewrite pickBy_lookup.
  unfold list_to_map. cbn [foldr fst snd uncurry].
  rewrite !lookup_insert_ne, lookup_insert_eq by done. done.
Qed.

Lemma command_line_port args host port redisMaster :
  command_line_options args host port redisMaster !! "port"
  = if given port then Some port else None.
Proof.
  unfold command_line_options. rewrite pickBy_lookup.
  unfold list_to_map. cbn [foldr fst snd uncurry].
  rewrite !lookup_insert_ne, lookup_insert_eq by done. done.
Qed.

Lemma split_head sep s : ∃ part parts, split sep s = part :: parts.
Proof.
  induction s as [|a s IH]; simpl; [by eauto|].
  destruct (decide (a = sep)); [by eauto|].
  destruct (split sep s); eauto.
Qed.
End command_line_facts.

Section listener_facts.
Context `{Conversions} `{TimeframeParser}.
Variable c : scan.
Hypothesis Hvalid : validated (options c).





End listener_facts.

Section command_line_more.
Context `{Conversions} `{TimeframeParser}.

Lemma RedisKeyScanner_validate raw :
  match RedisKeyScanner raw with
  | Ok c => validate raw = Ok (options c)
  | Throw e => validate raw = Throw e
  end.
Proof. unfold RedisKeyScanner. by destruct (validate raw). Qed.

Lemma no_unsupported (o : object) names :
  length (map_to_list (omit o names)).*1 = 0
  ↔ ∀ k, is_Some (o !! k) → k ∈ names.
Proof.
  split; [apply omit_nothing|]. intros Hall.
  destruct (map_to_list (omit o names)).*1 as [|k l] eqn:Hl; [done|].
  assert (k ∈ (map_to_list (omit o names)).*1) as Hk
    by (rewrite Hl; apply elem_of_cons; by left).
  apply omit_keys in Hk as [Hs Hk]. destruct Hk. by apply Hall.
Qed.

Lemma given_truthy v : truthy (if given v then v else VUndefined) = truthy v.
Proof.
  unfold given. destruct v as [| |[]|[]|]; try done.
Qed.

Lemma command_line_prop_host args host port redisMaster :
  truthy (prop (command_line_options args host port redisMaster) "host")
  = truthy host.
Proof.
  unfold prop. rewrite command_line_host.
  rewrite <- (given_truthy host). by destruct (given host).
Qed.

Lemma or_else_falsy v d : truthy v = false → or_else v d = d.
Proof. unfold or_else. by intros ->. Qed.

(** the options depend on the arguments through their values only, and
    on those that have a default through their truthy values only *)
Lemma command_line_ext args args' host port redisMaster :
  (∀ k, k ∈ ["max-idle"; "max-ttl"; "min-idle"; "min-ttl"; "expiry"] →
     prop args k = prop args' k) →
  (∀ k d, k ∈ ["db"; "scan-batch"; "scan-limit"; "limit"; "pattern";
               "debug"] →
     or_else (prop args k) d = or_else (prop args' k) d) →
  command_line_options args host port redisMaster
  = command_line_options args' host port redisMaster.
Proof.
  intros Hsame Hor. unfold command_line_options.
  assert (truthy (prop args "debug") = truthy (prop args' "debug")) as ->.
  { specialize (Hor "debug" (VBool false)). unfold or_else in Hor.
    destruct (truthy (prop args "debug")) eqn:H1,
             (truthy (prop args' "debug")) eqn:H2; try done.
    - rewrite Hor in H1; [done | rewrite !elem_of_cons; auto 10].
    - rewrite <- Hor in H2; [done | rewrite !elem_of_cons; auto 10]. }
  rewrite (Hor "db"), (Hor "scan-batch"), (Hor "scan-limit"), (Hor "limit"),
    (Hor "pattern") by (rewrite !elem_of_cons; auto 10).
  rewrite (Hsame "max-idle"), (Hsame "max-ttl"), (Hsame "min-idle"),
    (Hsame "min-ttl"), (Hsame "expiry") by (rewrite !elem_of_cons; auto 10).
  reflexivity.
Qed.
End command_line_more.

(** ** The end of the stream and the summary *)

Section stop_facts.
Context `{Conversions} `{TimeframeParser}.
Variable c : scan.

Lemma call_endScan_called s : is_Some (endScan (call_endScan s)).
Proof. unfold call_endScan. destruct (endScan s) eqn:Hend; by rewrite ?Hend. Qed.

Lemma call_endScan_stream s :
  paused (call_endScan s) = paused s ∧ ended (call_endScan s) = ended s.
Proof. unfold call_endScan. by destruct (endScan s). Qed.

(** a stream that has ended or was paused has called [endScan] *)
Lemma dispatch_stopped e s s' :
  dispatch c e s = Some s' →
  (ended s = true ∨ paused s = true → is_Some (endScan s)) →
  ended s' = true ∨ paused s' = true → is_Some (endScan s').
Proof.
  intros He Hs. unfold dispatch in He.
  apply fmap_Some in He as (s1 & He & ->).
  destruct (continuation_fields c s1)
    as (_ & _ & _ & _ & -> & _ & -> & -> & _).
  destruct e as [keys| |i results|i|err].
  - destruct (paused s) eqn:Hp; [done|].
    destruct (ended s) eqn:Hed; [done|]. inversion He; subst.
    unfold on_data. cbn [atSelectLimit streamKeysScanned].
    destruct (atSelectLimit s || _).
    + intros _. apply call_endScan_called.
    + simpl. rewrite Hp, Hed. by intros [?|?].
  - destruct (ended s); [done|]. inversion He; subst.
    intros _. apply call_endScan_called.
  - apply bind_Some in He as (p & Hp & He). inversion He; subst.
    unfold on_results.
    destruct (examine c results 0 (batchKeys p) s) as [s1 r] eqn:Hex.
    apply examine_spec in Hex as ((_ & _ & Hen & _ & _ & Hpa & Hed) & _).
    unfold settle. simpl. by rewrite Hen, Hpa, Hed.
  - apply bind_Some in He as (p & Hp & He). by inversion He; subst.
  - inversion He; subst. unfold on_error. by destruct (errored s).
Qed.

Lemma run_stopped events s s' :
  run c events s = Some s' →
  (ended s = true ∨ paused s = true → is_Some (endScan s)) →
  ended s' = true ∨ paused s' = true → is_Some (endScan s').
Proof.
  revert s. induction events as [|e events IH]; simpl; intros s Hrun Hs.
  - by inversion Hrun; subst.
  - apply bind_Some in Hrun as (s1 & He & Hrun).
    apply (IH s1 Hrun). by apply (dispatch_stopped e s s1).
Qed.

(** the stream has ended when it has signalled its end *)
Lemma dispatch_ended e s s' :
  dispatch c e s = Some s' →
  ended s'
  = (ended s || match e with StreamEnd => true | _ => false end).
Proof.
  intros He. unfold dispatch in He.
  apply fmap_Some in He as (s1 & He & ->).
  destruct (continuation_fields c s1)
    as (_ & _ & _ & _ & _ & _ & _ & -> & _).
  destruct e as [keys| |i results|i|err].
  - destruct (paused s || ended s); [done|]. inversion He; subst.
    unfold on_data. simpl.
    destruct (atSelectLimit s || _); unfold call_endScan; simpl;
      [destruct (endScan s); simpl|]; by rewrite orb_false_r.
  - destruct (ended s); [done|]. inversion He; subst.
    unfold on_end, call_endScan. by destruct (endScan _).
  - apply bind_Some in He as (p & Hp & He). inversion He; subst.
    unfold on_results.
    destruct (examine c results 0 (batchKeys p) s) as [s1 r] eqn:Hex.
    apply examine_spec in Hex as ((_ & _ & _ & _ & _ & _ & Hed) & _).
    unfold settle. simpl. by rewrite Hed, orb_false_r.
  - apply bind_Some in He as (p & Hp & He). inversion He; subst.
    simpl. by rewrite orb_false_r.
  - inversion He; subst. unfold on_error.
    destruct (errored s); simpl; by rewrite orb_false_r.
Qed.

Lemma run_ended events s s' :
  run c events s = Some s' →
  ended s' = true ↔ ended s = true ∨ StreamEnd ∈ events.
Proof.
  revert s. induction events as [|e events IH]; simpl; intros s Hrun.
  - inversion Hrun; subst. split; [by left|].
    by intros [?|?%elem_of_nil].
  - apply bind_Some in Hrun as (s1 & He & Hrun).
    rewrite (IH s1 Hrun), (dispatch_ended e s s1 He), orb_true_iff.
    rewrite elem_of_cons.
    assert (∀ (b : bool) (A B C : Prop),
              (b = true ↔ C) → (A ∨ b = true) ∨ B ↔ A ∨ C ∨ B) as Hor
      by (intros; tauto).
    apply Hor. by destruct e.
Qed.

(** the summary is written exactly when the scan has completed *)
Lemma completed_summarised events s :
  run c events initial = Some s →
  completed events s ↔ summarised s = true.
Proof.
  intros Hrun.
  pose proof (run_consistent c events initial s (initial_consistent c) Hrun)
    as [Hco Hwhen].
  pose proof (run_ended events initial s Hrun) as Hended. simpl in Hended.
  split.
  - intros [Hstop Hall]. apply Hwhen; [|done].
    apply (run_stopped events initial s Hrun).
    + simpl. by intros [?|?].
    + destruct Hstop as [Hend|?]; [left|by right]. apply Hended. by right.
  - intros Hsum. destruct (summarised_then c s Hco Hsum) as [[n Hend] Hall].
    destruct (endScan_sees_all c s Hco n Hend) as [_ Hstop].
    split; [|done]. destruct Hstop as [?|Hed]; [by right|left].
    apply Hended in Hed as [?|?]; done.
Qed.

(** the callback reads the values of the replies, never their errors *)
Lemma replies_of_values results results' i :
  results.*2 = results'.*2 →
  replies_of c results i = replies_of c results' i.
Proof.
  intros Hsame.
  assert (∀ j, snd <$> results !! j = snd <$> results' !! j) as Hj.
  { intros j. by rewrite <- !list_lookup_fmap, Hsame. }
  unfold replies_of.
  pose proof (Hj (if checkTTL c then i * 2 else i)) as Hidle.
  destruct (results !! _) as [idle|], (results' !! _) as [idle'|];
    try done. simpl in Hidle. inversion Hidle as [Heq].
  cbn [mbind option_bind]. rewrite Heq.
  destruct (checkTTL c); [|done]. by rewrite Hj.
Qed.

Lemma examine_values results results' i keys s :
  results.*2 = results'.*2 →
  examine c results i keys s = examine c results' i keys s.
Proof.
  intros Hsame. revert i s. induction keys as [|key keys IH]; intros i s.
  - done.
  - rewrite !examine_replies, (replies_of_values results results' i Hsame).
    destruct (replies_of c results' i) as [[idletime ttl]|]; [|done].
    apply IH.
Qed.

Lemma dispatch_values i results results' s :
  results.*2 = results'.*2 →
  dispatch c (ExecFulfilled i results) s
  = dispatch c (ExecFulfilled i results') s.
Proof.
  intros Hsame. unfold dispatch, on_results.
  destruct (pending i s) as [p|]; [|done]. simpl.
  by rewrite (examine_values results results' 0 (batchKeys p) s Hsame).
Qed.

(** the data records other than the summary are the entries *)
Lemma consistent_key_records s :
  validated (options c) → consistent c s →
  key_records (emitted s) = selected_keys (emitted s)
  ∧ data (emitted s)
    = selected_keys (emitted s) ++ (if summarised s then [summary c s] else [])
  ∧ entries_of c (selected_keys (emitted s))
  ∧ Z.of_nat (length (selected_keys (emitted s))) = streamKeysSelected s.
Proof.
  intros Hv Hs.
  destruct (consistent_data c s Hs) as (entries & Hd & Hent & Hlen).
  pose proof (entries_selected_keys c entries Hent) as Hkeys.
  destruct (summary_counters c s Hv) as (_ & _ & Hsum & Hkey).
  assert (selected_keys (emitted s) = entries) as ->.
  { unfold selected_keys. rewrite Hd, filter_app.
    rewrite (filter_all _ entries)
      by (eapply Forall_impl; [exact Hkeys|]; by intros d [? _]).
    destruct (summarised s); [|by rewrite app_nil_r].
    rewrite filter_cons_False, filter_nil, app_nil_r; [done | congruence]. }
  split_and!; try done.
  unfold key_records. rewrite Hd, filter_app.
  rewrite (filter_all _ entries)
    by (eapply Forall_impl; [exact Hkeys|]; by intros d [_ ?]).
  destruct (summarised s); [|by rewrite app_nil_r].
  rewrite filter_cons_False, filter_nil, app_nil_r; [done | congruence].
Qed.
End stop_facts.

(** ** The outcome of the command line *)

Section try_facts.
Context `{Conversions} `{TimeframeParser}.

Lemma validate_accepts raw :
  truthy (prop raw "host") = true →
  truthy (Number (prop raw "port")) = true →
  timeframes_parse raw → numerics_are_numbers raw →
  (∀ k, is_Some (raw !! k) → k ∈ supportedOptions) →
  ∃ o, validate raw = Ok o.
Proof.
  intros Hhost Hport Hparse Hnum Hsup.
  pose proof (validate_cases raw) as Hcases.
  destruct (validate raw) as [o|e]; [by exists o|]. exfalso.
  destruct e as [| |opt|opt|opts].
  - congruence.
  - destruct Hcases as [_ ?]. congruence.
  - destruct Hcases as (_ & _ & Hopt & Hsome & Hnan).
    by apply (Hparse opt).
  - destruct Hcases as (_ & _ & _ & Hopt & Hsome & Hnan).
    rewrite (Hnum opt) in Hnan; done.
  - destruct Hcases as (_ & _ & _ & _ & Hne & Hin).
    destruct opts as [|k opts]; [done|].
    destruct (proj1 (Hin k)) as [Hsome Hk]; [apply elem_of_cons; by left|].
    by apply Hk, Hsup.
Qed.

Lemma validate_host raw :
  validate raw = Throw HostRequired ↔ truthy (prop raw "host") = false.
Proof.
  pose proof (validate_cases raw) as Hcases.
  destruct (validate raw) as [o|e].
  - destruct Hcases as [-> _]. done.
  - destruct e; [done|..]; destruct Hcases as [-> _]; done.
Qed.

Lemma try_scan_unsupported unsupportedArgs o opts :
  try_scan unsupportedArgs o = Usage (UnsupportedArgs opts)
  ↔ unsupportedArgs ≠ [] ∧ opts = unsupportedArgs.
Proof.
  unfold try_scan. destruct unsupportedArgs as [|k l]; cbn [length Nat.eqb negb].
  - destruct (RedisKeyScanner o); split; (discriminate || by intros [? _]).
  - split; [by intros [= <-] | by intros [_ ->]].
Qed.

Lemma try_scan_thrown unsupportedArgs o e :
  try_scan unsupportedArgs o = Usage (Thrown e)
  ↔ unsupportedArgs = [] ∧ validate o = Throw e.
Proof.
  unfold try_scan. pose proof (RedisKeyScanner_validate o) as Hv.
  destruct unsupportedArgs as [|k l]; cbn [length Nat.eqb negb].
  - destruct (RedisKeyScanner o) as [c|e'].
    + rewrite Hv. split; [discriminate | by intros [_ ?]].
    + rewrite Hv. split; [by intros [= ->] | by intros [_ [= ->]]].
  - split; [discriminate | by intros [? _]].
Qed.

Lemma try_scan_listening unsupportedArgs o c :
  try_scan unsupportedArgs o = Listening c →
  unsupportedArgs = [] ∧ RedisKeyScanner o = Ok c
  ∧ validate o = Ok (options c).
Proof.
  unfold try_scan. pose proof (RedisKeyScanner_validate o) as Hv.
  destruct unsupportedArgs as [|k l]; cbn [length Nat.eqb negb]; [|done].
  destruct (RedisKeyScanner o) as [c'|e]; [|done]. by intros [= ->].
Qed.
End try_facts.

(** ** Values that are known to be there *)

Lemma Ok_the {A} (r : result A) d : is_Ok r = true → r = Ok (the r d).
Proof. by destruct r. Qed.

Lemma Some_default {A} (x : option A) d : is_Some x → x = Some (default d x).
Proof. by intros [a ->]. Qed.

Lemma Some_pair {A B} (x : option (A * B)) d :
  is_Some x → x = Some ((default d x).1, (default d x).2).
Proof. by intros [[a b] ->]. Qed.

Lemma Listening_listening st :
  is_Listening st = true → st = Listening (listening st).
Proof. by destruct st. Qed.

Lemma head_default_elem {A} (l : list A) d :
  is_Some (head l) → default d (head l) ∈ l.
Proof. destruct l as [|x l]; intros [y Hy]; [done|]. simpl. by left. Qed.

Lemma decided (P : Prop) `{Decision P} : bool_decide P = true → P.
Proof. apply bool_decide_eq_true. Qed.

(** * The claims *)

Section claims.
Context `{Conversions} `{TimeframeParser}.

Lemma scanning_consistent raw c events s :
  scanning raw events = Some (c, s) →
  validated (options c) ∧ consistent c s.
Proof.
  intros Hs. apply scanning_Some in Hs as [Hc Hrun].
  apply RedisKeyScanner_Ok in Hc as [Hv _]. split; [done|].
  eapply run_consistent; [apply initial_consistent | done].
Qed.

Lemma noExpiry_falsy_rejects c v :
  options c !! "noExpiry" = Some v → truthy v = false →
  ∀ idletime ttl, selects c idletime ttl = false.
Proof.
  intros Hno Hv idletime ttl. unfold selects, has, prop. rewrite Hno.
  simpl. rewrite Hv. simpl. by rewrite andb_false_r.
Qed.

Lemma dispatch_rejecting c e s s' :
  (∀ idletime ttl, selects c idletime ttl = false) →
  dispatch c e s = Some s' →
  streamKeysSelected s' = streamKeysSelected s.
Proof.
  intros Hno He.
  assert ((∃ i results, e = ExecFulfilled i results)
          ∨ ∀ i results, e ≠ ExecFulfilled i results)
    as [(i & results & ->)|Hne] by (destruct e; eauto).
  - unfold dispatch in He. apply fmap_Some in He as (s1 & He & ->).
    apply bind_Some in He as (p & Hp & He). inversion He; subst.
    destruct (continuation_fields c
                (on_results c i (batchKeys p) results s))
      as (_ & _ & _ & -> & _).
    destruct (on_results_fields c i (batchKeys p) results s)
      as (_ & -> & _).
    by rewrite examine_rejects.
  - by destruct (dispatch_selected c e s s' He Hne).
Qed.

Lemma run_rejecting c events s s' :
  (∀ idletime ttl, selects c idletime ttl = false) →
  run c events s = Some s' →
  streamKeysSelected s' = streamKeysSelected s.
Proof.
  intros Hno. revert s.
  induction events as [|e events IH]; simpl; intros s Hrun.
  - by inversion Hrun; subst.
  - apply bind_Some in Hrun as (s1 & He & Hrun).
    by rewrite (IH _ Hrun), (dispatch_rejecting c e s s1 Hno He).
Qed.

(** C1, amended.  For every key record (idletime, ttl) and every validated
    options object, the filter selects the key if and only if every
    configured bound holds (idletime <= maxIdle, ttl <= maxTTL,
    idletime >= minIdle, ttl >= minTTL, each when the option is present)
    and, when [noExpiry] is present, its value is truthy and the ttl is -1.
    With none of the five options present every key record is selected.
    The second argument of [selects] is the variable [ttl] of the callback:
    the reply of the store when [checkTTL] holds, [false] otherwise. *)
Theorem C1_selects_iff_every_configured_bound_holds
    raw c (idletime ttl : Z) :
  RedisKeyScanner raw = Ok c →
  (selects c (VNum (Fin idletime))
     (if checkTTL c then VNum (Fin ttl) else VBool false) = true
   ↔ bounds_hold (options c) idletime ttl
     ∧ (∀ v, options c !! "noExpiry" = Some v →
          truthy v = true ∧ ttl = (-1)%Z))
  ∧ ((∀ k, k ∈ "noExpiry" :: timeframes → options c !! k = None) →
     selects c (VNum (Fin idletime))
       (if checkTTL c then VNum (Fin ttl) else VBool false) = true).
Proof.
  intros Hc. apply RedisKeyScanner_Ok in Hc as [Hv Httl].
  pose proof (selects_iff c idletime ttl Hv Httl) as Hiff.
  split.
  - rewrite Hiff. unfold bounds_hold. tauto.
  - intros Hnone. apply Hiff.
    split_and!; intros x Hx; rewrite Hnone in Hx; try done;
      unfold timeframes; rewrite !elem_of_cons; auto 10.
Qed.

(** C2.  Whatever the events of a scan, what the scanner has emitted, errors
    apart, is the records of the selected keys followed by a tail; the tail
    is the summary record and then ['end'] when the scan has completed
    without error (the stream has signalled its end or a limit has paused
    it, and the promise of every page is fulfilled), and empty otherwise.
    So a scan that completes has emitted exactly one summary, after every
    selected-key record, and no scan emits two, also when both a limit and
    the end of the stream call [endScan]. *)
Theorem C2_one_summary_after_every_selected_key raw c events s :
  scanning raw events = Some (c, s) →
  ∃ entries tail,
    signals (emitted s) = (EmitData <$> entries) ++ tail
    ∧ Forall (λ d, is_selected_key d = true ∧ is_summary d = false) entries
    ∧ is_summary (summary c s) = true
    ∧ (completed events s → tail = [EmitData (summary c s); EmitEnd])
    ∧ (¬ completed events s → tail = [])
    ∧ selected_keys (emitted s) = entries
    ∧ (completed events s → length (summaries (emitted s)) = 1)
    ∧ length (summaries (emitted s)) ≤ 1.
Proof.
  intros Hs. pose proof Hs as Hscan.
  apply scanning_consistent in Hs as [Hv Hs].
  apply scanning_Some in Hscan as [_ Hrun].
  pose proof (completed_summarised c events s Hrun) as Hdone.
  pose proof (consistent_summaries c Hv s Hs) as Hsum.
  destruct Hs as [[_ _ Hthen (entries & Hem & Hent & Hlen) _ _] Hwhen].
  exists entries,
    (if summarised s then [EmitData (summary c s); EmitEnd] else []).
  pose proof (entries_selected_keys c entries Hent) as Hkeys.
  split_and!; try done.
  - by destruct (summary_counters c s Hv) as (_ & _ & ? & _).
  - intros Hc. apply Hdone in Hc. by rewrite Hc.
  - intros Hnot. destruct (summarised s); [|done].
    destruct Hnot. by apply Hdone.
  - unfold selected_keys. rewrite <- data_signals, Hem, data_app.
    assert (data (EmitData <$> entries) = entries) as ->
      by (clear; induction entries; simpl; by f_equal).
    rewrite filter_app, (filter_all _ entries).
    + destruct (summary_counters c s Hv) as (_ & _ & _ & Hk).
      destruct (summarised s); simpl; [|by rewrite app_nil_r].
      rewrite filter_cons_False, filter_nil, app_nil_r; [done|congruence].
    + eapply Forall_impl; [exact Hkeys|]. by intros d [? _].
  - intros Hc. apply Hdone in Hc. by rewrite Hsum, Hc.
  - rewrite Hsum. destruct (summarised s); simpl; lia.
Qed.

(** C3, amended.  With [limit] an integer L >= 1, at every point of a scan
    the counter of selected keys is between 0 and L and counts the
    selected-key records emitted, the flag [atSelectLimit] is true exactly
    when the counter has reached L, every summary reports a [keysSelected]
    of at most L, and once the flag is true it stays true through any later
    events, during which no key is selected and no selected-key record is
    emitted. *)
Theorem C3_keysSelected_stays_within_the_limit
    raw c L events s later s' :
  scanning raw events = Some (c, s) →
  options c !! "limit" = Some (VNum (Fin L)) → (1 ≤ L)%Z →
  run c later s = Some s' →
  (0 ≤ streamKeysSelected s ≤ L)%Z
  ∧ Z.of_nat (length (selected_keys (emitted s))) = streamKeysSelected s
  ∧ (atSelectLimit s = true ↔ streamKeysSelected s = L)
  ∧ (∀ d, d ∈ summaries (emitted s) →
       ∃ n, d !! "keysSelected" = Some (VNum (Fin n)) ∧ (n ≤ L)%Z)
  ∧ (atSelectLimit s = true →
       atSelectLimit s' = true
       ∧ streamKeysSelected s' = streamKeysSelected s
       ∧ selected_keys (emitted s') = selected_keys (emitted s)).
Proof.
  intros Hs HL Hpos Hlater.
  pose proof Hs as Hscan. apply scanning_consistent in Hs as [Hv Hs].
  apply scanning_Some in Hscan as [_ Hrun].
  assert (within_limit L s) as [Hle Hat].
  { eapply (run_within_limit c L events initial); try done.
    - unfold prop. by rewrite HL.
    - unfold within_limit. simpl. split; [lia|]. split; [done|lia]. }
  split; [done|]. split_and!.
  - apply (consistent_selected_keys c Hv s Hs).
  - rewrite Hat. lia.
  - intros d Hd. rewrite (consistent_summaries c Hv s Hs) in Hd.
    destruct (summarised s); [|by apply elem_of_nil in Hd].
    apply list_elem_of_singleton in Hd as ->.
    destruct (summary_counters c s Hv) as (_ & Hk & _).
    exists (streamKeysSelected s). split; [done|lia].
  - intros Hlim. by apply (run_at_limit c Hv later s s').
Qed.

(** C4, amended.  For validated options whose [noExpiry] is truthy, the ttl
    is fetched, and the filter selects a key record if and only if its ttl
    is -1 and every configured idle-time and ttl bound holds of it (of
    idletime and of the ttl -1); when none of the four bounds is
    configured, if and only if its ttl is -1. *)
Theorem C4_noExpiry_selects_ttl_minus_one_within_the_other_bounds
    raw c v (idletime ttl : Z) :
  RedisKeyScanner raw = Ok c →
  options c !! "noExpiry" = Some v → truthy v = true →
  checkTTL c = true
  ∧ (selects c (VNum (Fin idletime)) (VNum (Fin ttl)) = true
     ↔ ttl = (-1)%Z ∧ bounds_hold (options c) idletime (-1))
  ∧ ((∀ k, k ∈ timeframes → options c !! k = None) →
     selects c (VNum (Fin idletime)) (VNum (Fin ttl)) = true
     ↔ ttl = (-1)%Z).
Proof.
  intros Hc Hno Hv. apply RedisKeyScanner_Ok in Hc as [Hval Httl].
  pose proof (selects_iff c idletime ttl Hval Httl) as Hiff.
  assert (checkTTL c = true) as Hck.
  { rewrite Httl. simpl. unfold has at 1. rewrite Hno.
    by rewrite bool_decide_eq_true_2. }
  rewrite Hck in Hiff. split; [done|].
  assert (selects c (VNum (Fin idletime)) (VNum (Fin ttl)) = true
          ↔ ttl = (-1)%Z ∧ bounds_hold (options c) idletime (-1)) as Hsel.
  { rewrite Hiff. unfold bounds_hold. split.
    - intros (? & ? & ? & ? & Hx). destruct (Hx v Hno) as [_ ->]. tauto.
    - intros (-> & ? & ? & ? & ?). split_and!; try done.
      intros ? Hx. rewrite Hno in Hx. by inversion Hx; subst. }
  split; [done|]. intros Hnone. rewrite Hsel.
  split; [tauto|]. intros ->. split; [done|].
  unfold timeframes in Hnone.
  split_and!; intros n Hn; rewrite Hnone in Hn; try done;
    rewrite !elem_of_cons; auto 10.
Qed.

(** C5, amended.  The filter compares the ttl with the ttl bounds as signed
    integers, -1 included: for validated options with a ttl bound present
    and [noExpiry] absent, the ttl is fetched and a key record with ttl -1
    is selected if and only if the configured bounds hold of its idle time
    and of -1.  So it fails every [minTTL] >= 0, and it passes every
    [maxTTL] >= 0: under such a [maxTTL] alone it is selected. *)
Theorem C5_ttl_minus_one_is_compared_with_the_ttl_bounds_as_a_number
    raw c (idletime : Z) :
  RedisKeyScanner raw = Ok c →
  options c !! "noExpiry" = None →
  is_Some (options c !! "maxTTL") ∨ is_Some (options c !! "minTTL") →
  checkTTL c = true
  ∧ (selects c (VNum (Fin idletime)) (VNum (Fin (-1))) = true
     ↔ bounds_hold (options c) idletime (-1))
  ∧ (∀ m, options c !! "minTTL" = Some (VNum (Fin m)) → (0 ≤ m)%Z →
       selects c (VNum (Fin idletime)) (VNum (Fin (-1))) = false)
  ∧ (∀ m, options c !! "maxTTL" = Some (VNum (Fin m)) → (0 ≤ m)%Z →
       options c !! "minTTL" = None →
       options c !! "maxIdle" = None → options c !! "minIdle" = None →
       selects c (VNum (Fin idletime)) (VNum (Fin (-1))) = true).
Proof.
  intros Hc Hno Hb. apply RedisKeyScanner_Ok in Hc as [Hval Httl].
  pose proof (selects_iff c idletime (-1) Hval Httl) as Hiff.
  assert (checkTTL c = true) as Hck.
  { rewrite Httl. simpl. apply orb_true_iff. right.
    rewrite orb_false_r. apply orb_true_iff.
    by rewrite !has_true. }
  rewrite Hck in Hiff. split; [done|].
  assert (selects c (VNum (Fin idletime)) (VNum (Fin (-1))) = true
          ↔ bounds_hold (options c) idletime (-1)) as Hsel.
  { rewrite Hiff. unfold bounds_hold. rewrite Hno. split.
    - tauto.
    - intros (? & ? & ? & ?). by split_and!. }
  split; [done|]. split.
  - intros m Hm Hpos. apply not_true_is_false. rewrite Hsel.
    intros (_ & _ & _ & Hmin). specialize (Hmin _ Hm).
    rewrite num_le_Fin in Hmin. lia.
  - intros m Hm Hpos Hmin Hmaxi Hmini. apply Hsel.
    unfold bounds_hold. rewrite Hm, Hmin, Hmaxi, Hmini.
    split_and!; try done. intros n [= <-]. apply num_le_Fin. lia.
Qed.

(** C6, amended.  In a scan where the promise of a page is rejected (its
    [exec()] was rejected, as after an [ExecRejected] event, or its
    callback threw) no summary and no ['end'] is emitted: every data record
    emitted is the record of a selected key.  Every scan emits at most one
    summary and at most one error; the errors it emits are those of the
    connection, the first one and no other.  And the callback reads the
    values of the replies only: what [exec()] reports as the error of a
    command changes nothing. *)
Theorem C6_a_failed_fetch_leaves_no_summary_and_each_signal_fires_once
    raw c events s :
  scanning raw events = Some (c, s) →
  ((rejected s ∨ ∃ i, ExecRejected i ∈ events) →
     summaries (emitted s) = [] ∧ (EmitEnd ∉ emitted s)
     ∧ data (emitted s) = selected_keys (emitted s)
     ∧ ¬ completed events s)
  ∧ length (summaries (emitted s)) ≤ 1
  ∧ length (errors (emitted s)) ≤ 1
  ∧ errors (emitted s) = take 1 (redis_errors events)
  ∧ (∀ i results results' t, results.*2 = results'.*2 →
       dispatch c (ExecFulfilled i results) t
       = dispatch c (ExecFulfilled i results') t).
Proof.
  intros Hs. pose proof Hs as Hscan.
  apply scanning_consistent in Hs as [Hv Hs].
  apply scanning_Some in Hscan as [_ Hrun].
  pose proof (consistent_summaries c Hv s Hs) as Hsum.
  split_and!.
  - intros Hrej.
    assert (rejected s) as Hr.
    { destruct Hrej as [?|[i Hi]]; [done|]. by eapply run_ExecRejected. }
    destruct (rejected_no_summary c s Hs Hr) as [Hnot Hend].
    destruct (consistent_key_records c s Hv Hs) as (_ & Hdata & _).
    rewrite Hnot, app_nil_r in Hdata.
    split_and!; try done.
    + by rewrite Hsum, Hnot.
    + intros Hc. apply (completed_summarised c events s Hrun) in Hc.
      congruence.
  - rewrite Hsum. destruct (summarised s); simpl; lia.
  - destruct Hs as [[_ _ _ _ Herr _] _]. rewrite Herr.
    destruct (errored s); lia.
  - by rewrite (run_errors c events initial s Hrun).
  - intros i results results' t. apply dispatch_values.
Qed.

(** C7.  At every point of a scan [streamKeysScanned] is the sum of the
    lengths of the pages handed over so far; no event decreases it; the
    handler of a page adds the length of the page at once, leaving the
    promise of that page pending; the summary record of the scan holds that
    total as [keysScanned]; and when the scan has completed (the stream has
    signalled its end or a limit has paused it, and every promise is
    fulfilled) that record is the last data record emitted, after records
    that are not summaries. *)
Theorem C7_keysScanned_is_the_total_of_the_pages_dispatched
    raw c events s :
  scanning raw events = Some (c, s) →
  streamKeysScanned s = total (pages events)
  ∧ (∀ e s', dispatch c e s = Some s' →
       (streamKeysScanned s ≤ streamKeysScanned s')%Z)
  ∧ (∀ keys s', dispatch c (StreamData keys) s = Some s' →
       streamKeysScanned s'
         = (streamKeysScanned s + Z.of_nat (length keys))%Z
       ∧ last (pipelinePromises s')
         = Some {| batchKeys := keys; commands := pipeline c keys;
                   settled := Pending |})
  ∧ summary c s !! "keysScanned" = Some (VNum (Fin (total (pages events))))
  ∧ (completed events s →
       ∃ entries,
         data (emitted s) = entries ++ [summary c s]
         ∧ Forall (λ d, is_summary d = false) entries)
  ∧ (∀ d, d ∈ summaries (emitted s) → d = summary c s).
Proof.
  intros Hs. pose proof Hs as Hscan.
  apply scanning_consistent in Hs as [Hv Hs].
  apply scanning_Some in Hscan as [_ Hrun].
  assert (streamKeysScanned s = total (pages events)) as Htotal.
  { destruct Hs as [[-> _ _ _ _ _] _].
    by rewrite (run_pages c events initial s Hrun). }
  split_and!; try done.
  - intros e s' He.
    pose proof (dispatch_consistent c e s s' Hs He) as [[Hs' _ _ _ _ _] _].
    destruct Hs as [[-> _ _ _ _ _] _].
    rewrite Hs', (dispatch_pages c e s s' He), total_app.
    assert (0 ≤ total (pages [e]))%Z; [|lia].
    destruct e; simpl; lia.
  - intros keys s' He.
    destruct (dispatch_StreamData c keys s s' He) as (-> & -> & _).
    by rewrite last_snoc.
  - destruct (summary_counters c s Hv) as (Hk & _). by rewrite Hk, Htotal.
  - intros Hc. apply (completed_summarised c events s Hrun) in Hc.
    destruct (consistent_key_records c s Hv Hs) as (_ & Hdata & Hent & _).
    rewrite Hc in Hdata. exists (selected_keys (emitted s)).
    split; [done|].
    eapply Forall_impl; [by apply (entries_selected_keys c)|].
    by intros d [_ ?].
  - intros d Hd. rewrite (consistent_summaries c Hv s Hs) in Hd.
    destruct (summarised s); [|by apply elem_of_nil in Hd].
    by apply list_elem_of_singleton in Hd.
Qed.


(** C9.  [checkTTL], a constant of the scan, is true exactly when
    [noExpiry], [maxTTL] or [minTTL] is present in the options (of the
    validated options as of those given to the constructor); the pipeline
    of every page holds, for each key in order, [OBJECT IDLETIME] followed
    by [TTL] when [checkTTL] is true and [OBJECT IDLETIME] alone otherwise;
    and every data record emitted that is not a summary has the properties
    [name], [key], [idletime], with [ttl] exactly when [checkTTL] is true;
    there are as many of these records as keys were selected. *)
Theorem C9_ttl_is_fetched_and_reported_when_a_ttl_option_is_present
    raw c events s :
  scanning raw events = Some (c, s) →
  (checkTTL c = true
   ↔ is_Some (options c !! "noExpiry") ∨ is_Some (options c !! "maxTTL")
     ∨ is_Some (options c !! "minTTL"))
  ∧ (∀ k, k ∈ ["noExpiry"; "maxTTL"; "minTTL"] →
       is_Some (options c !! k) ↔ is_Some (raw !! k))
  ∧ (∀ p, p ∈ pipelinePromises s →
       commands p
       = if checkTTL c
         then batchKeys p ≫= (λ key, [ObjectIdletime key; Ttl key])
         else ObjectIdletime <$> batchKeys p)
  ∧ (∀ d, d ∈ key_records (emitted s) →
       dom d = if checkTTL c then {[ "name"; "key"; "idletime"; "ttl" ]}
               else {[ "name"; "key"; "idletime" ]})
  ∧ Z.of_nat (length (key_records (emitted s))) = streamKeysSelected s.
Proof.
  intros Hs. pose proof Hs as Hscan.
  apply scanning_consistent in Hs as [Hv Hs].
  apply scanning_Some in Hscan as [Hc Hrun].
  pose proof (RedisKeyScanner_Ok _ _ Hc) as [_ Httl].
  destruct (consistent_key_records c s Hv Hs) as (Hrec & _ & Hent & Hlen).
  split_and!.
  - rewrite Httl. cbn [existsb].
    rewrite orb_false_r, !orb_true_iff, !has_true. tauto.
  - intros k Hk. by apply (RedisKeyScanner_presence raw c).
  - intros p Hp. destruct Hs as [[_ _ _ _ _ Hq] _].
    rewrite Forall_forall in Hq. rewrite (Hq p Hp).
    apply pipeline_commands.
  - intros d Hd. rewrite Hrec in Hd.
    unfold entries_of in Hent. rewrite Forall_forall in Hent.
    destruct (Hent d Hd) as (key & idletime & ttl & ->).
    apply entry_dom.
  - by rewrite Hrec.
Qed.

(** C10.  When [noExpiry] is present in the validated options with a falsy
    value (such as [false]), the filter rejects every key, whatever the
    replies; throughout the scan no key is selected, no selected-key record
    is emitted and a summary reports [keysSelected] 0.  The options built
    from the command line never hold such a [noExpiry]: there it is absent
    or [true]. *)
Theorem C10_noExpiry_present_and_falsy_selects_no_key
    raw c v events s :
  scanning raw events = Some (c, s) →
  options c !! "noExpiry" = Some v → truthy v = false →
  (∀ idletime ttl, selects c idletime ttl = false)
  ∧ streamKeysSelected s = 0%Z
  ∧ selected_keys (emitted s) = []
  ∧ (∀ d, d ∈ summaries (emitted s) →
       d !! "keysSelected" = Some (VNum (Fin 0)))
  ∧ (∀ args host port redisMaster w,
       command_line_options args host port redisMaster !! "noExpiry"
         = Some w →
       w = VBool true).
Proof.
  intros Hs Hno Hv. pose proof Hs as Hscan.
  apply scanning_consistent in Hs as [Hval Hs].
  apply scanning_Some in Hscan as [Hc Hrun].
  pose proof (noExpiry_falsy_rejects c v Hno Hv) as Hrej.
  pose proof (run_rejecting c events initial s Hrej Hrun) as Hzero.
  simpl in Hzero. split; [done|]. split; [done|]. split_and!.
  - destruct (consistent_selected_keys c Hval s Hs) as [_ Hlen].
    rewrite Hzero in Hlen. by destruct (selected_keys (emitted s)).
  - intros d Hd. rewrite (consistent_summaries c Hval s Hs) in Hd.
    destruct (summarised s); [|by apply elem_of_nil in Hd].
    apply list_elem_of_singleton in Hd as ->.
    destruct (summary_counters c s Hval) as (_ & Hk & _).
    by rewrite Hk, Hzero.
  - intros args host port redisMaster w. apply command_line_noExpiry.
Qed.

End claims.

(** * Further properties *)

Section further.
Context `{Conversions} `{TimeframeParser}.

(** X1.  The constructor accepts an options object exactly when [host] is
    truthy, [Number(port)] is neither [NaN] nor 0, every timeframe bound
    that is present parses as a timeframe, each of [scanBatch],
    [scanLimit] and [limit] that is present is a number, and every
    property of the object is a supported option. *)
Theorem validation_succeeds_exactly_when_every_check_passes raw :
  (∃ o, validate raw = Ok o)
  ↔ truthy (prop raw "host") = true
    ∧ truthy (Number (prop raw "port")) = true
    ∧ timeframes_parse raw
    ∧ numerics_are_numbers raw
    ∧ (∀ k, is_Some (raw !! k) → k ∈ supportedOptions).
Proof.
  pose proof (validate_cases raw) as Hcases. split.
  - intros [o Ho]. rewrite Ho in Hcases.
    destruct Hcases as (? & ? & ? & ? & ? & _). done.
  - intros (Hhost & Hport & Hparse & Hnum & Hsup). by apply validate_accepts.
Qed.

(** X2.  The options a scanner works with, after validation: [port] is
    [Number(port)]; [pattern] is the given pattern or "*" when that is
    falsy; a timeframe bound that is present holds its number of seconds,
    one that is absent stays absent; [scanBatch], [scanLimit] and [limit]
    keep the value given and are 1000, [Infinity] and [Infinity] when
    absent; every other option is as given. *)
Theorem validation_converts_and_fills_in_the_options raw o :
  validate raw = Ok o →
  o !! "port" = Some (Number (prop raw "port"))
  ∧ o !! "pattern" = Some (or_else (prop raw "pattern") (VStr "*"))
  ∧ (∀ k, k ∈ timeframes →
       o !! k = (λ _, VNum (timeframeToSeconds (prop raw k))) <$> raw !! k)
  ∧ (∀ k v, k ∈ numerics → raw !! k = Some v → o !! k = Some v)
  ∧ (raw !! "scanBatch" = None → o !! "scanBatch" = Some (VNum (Fin 1000)))
  ∧ (raw !! "scanLimit" = None → o !! "scanLimit" = Some (VNum PosInf))
  ∧ (raw !! "limit" = None → o !! "limit" = Some (VNum PosInf))
  ∧ (∀ k, k ∉ "port" :: "pattern" :: timeframes ++ numerics →
       o !! k = raw !! k).
Proof.
  intros Ho. pose proof (validate_cases raw) as Hcases.
  rewrite Ho in Hcases. destruct Hcases as (_ & _ & _ & _ & _ & Heff).
  assert (∀ k, k ∈ numerics →
            o !! k = Some (default (prop defaults k) (raw !! k))) as Hnum.
  { intros k Hk. rewrite Heff. unfold numerics in Hk.
    repeat (apply elem_of_cons in Hk as [->|Hk]; [done|]).
    by apply elem_of_nil in Hk. }
  split_and!.
  - by rewrite Heff.
  - by rewrite Heff.
  - intros k Hk. rewrite Heff. unfold timeframes in Hk.
    repeat (apply elem_of_cons in Hk as [->|Hk]; [done|]).
    by apply elem_of_nil in Hk.
  - intros k v Hk Hv. by rewrite (Hnum k Hk), Hv.
  - intros Hno. rewrite (Hnum "scanBatch"), Hno; [done|].
    unfold numerics. rewrite !elem_of_cons. auto.
  - intros Hno. rewrite (Hnum "scanLimit"), Hno; [done|].
    unfold numerics. rewrite !elem_of_cons. auto.
  - intros Hno. rewrite (Hnum "limit"), Hno; [done|].
    unfold numerics. rewrite !elem_of_cons. auto.
  - intros k Hk. rewrite Heff.
    apply not_elem_of_cons in Hk as [? Hk].
    apply not_elem_of_cons in Hk as [? Hk].
    apply not_elem_of_app in Hk as [? ?].
    by rewrite !decide_False.
Qed.

(** X3.  The constructor throws "Host is required" exactly when [host] is
    falsy, whatever the other options; and "Port number is required"
    exactly when [host] is truthy and [Number(port)] is [NaN] or 0. *)
Theorem host_is_checked_first_and_port_second raw :
  (validate raw = Throw HostRequired ↔ truthy (prop raw "host") = false)
  ∧ (validate raw = Throw PortRequired
     ↔ truthy (prop raw "host") = true
       ∧ truthy (Number (prop raw "port")) = false).
Proof.
  pose proof (validate_cases raw) as Hcases.
  rewrite validate_stages in *.
  destruct (truthy (prop raw "host")); cbn [negb] in *.
  2:{ split; [done|]. split; [done | by intros [? _]]. }
  destruct (truthy (Number (prop raw "port"))); cbn [negb] in *.
  2:{ split; [done|]. done. }
  split.
  - split; [|done]. intros Hx. rewrite Hx in Hcases. done.
  - split; [|by intros [_ ?]]. intros Hx. rewrite Hx in Hcases.
    by destruct Hcases.
Qed.

(** X4.  An error of the constructor that names options names offending
    ones: "Expected opt to be a timeframe" names a timeframe bound that is
    present and does not parse; "Must be a number: opt" names one of
    [scanBatch], [scanLimit], [limit] that is present and not a number,
    and is thrown only when every timeframe bound parses; "Unsupported
    option(s)" lists exactly the properties of the object that are not
    supported options, and is thrown only when every other check
    passes. *)
Theorem a_named_option_is_an_offending_option raw e :
  validate raw = Throw e →
  match e with
  | ExpectedTimeframe opt =>
      opt ∈ timeframes ∧ is_Some (raw !! opt)
      ∧ timeframeToSeconds (prop raw opt) = NaN
  | MustBeNumber opt =>
      opt ∈ numerics ∧ is_Some (raw !! opt) ∧ isNaN (prop raw opt) = true
      ∧ timeframes_parse raw
  | UnsupportedOptions opts =>
      opts ≠ []
      ∧ (∀ k, k ∈ opts ↔ is_Some (raw !! k) ∧ k ∉ supportedOptions)
      ∧ timeframes_parse raw ∧ numerics_are_numbers raw
  | _ => True
  end.
Proof.
  intros He. pose proof (validate_cases raw) as Hcases.
  rewrite He in Hcases. destruct e as [| |opt|opt|opts]; try done.
  - by destruct Hcases as (_ & _ & ?).
  - by destruct Hcases as (_ & _ & ? & ? & ? & ?).
  - by destruct Hcases as (_ & _ & ? & ? & ? & ?).
Qed.

(** X5.  The constructor writes the converted values into the caller's
    object.  When the timeframe parser maps a number of seconds to itself,
    validating that object again succeeds and changes nothing: an options
    object can be used for a second scanner. *)
Theorem validated_options_validate_again_unchanged raw o :
  (∀ n, timeframeToSeconds (VNum n) = n) →
  validate raw = Ok o → validate o = Ok o.
Proof.
  intros Hid Ho. pose proof (validate_cases raw) as Hcases.
  rewrite Ho in Hcases.
  destruct Hcases as (Hhost & Hport & Hparse & Hnum & Hsup & Heff).
  assert (∀ j : string, bool_decide (j ∈ supportedOptions) = true →
            j ∈ supportedOptions) as Hyes
    by (intros j; apply bool_decide_eq_true).
  assert (prop o "host" = prop raw "host") as Hh.
  { unfold prop. by rewrite Heff. }
  assert (prop o "port" = Number (prop raw "port")) as Hp.
  { unfold prop. by rewrite Heff. }
  assert (prop o "pattern" = or_else (prop raw "pattern") (VStr "*")) as Hpat.
  { unfold prop. by rewrite Heff. }
  assert (∀ k, k ∈ timeframes →
            o !! k
            = (λ _, VNum (timeframeToSeconds (prop raw k))) <$> raw !! k)
    as Htf.
  { intros k Hk. rewrite Heff. unfold timeframes in Hk.
    repeat (apply elem_of_cons in Hk as [->|Hk]; [done|]).
    by apply elem_of_nil in Hk. }
  assert (∀ k, k ∈ numerics →
            o !! k = Some (default (prop defaults k) (raw !! k))) as Hnu.
  { intros k Hk. rewrite Heff. unfold numerics in Hk.
    repeat (apply elem_of_cons in Hk as [->|Hk]; [done|]).
    by apply elem_of_nil in Hk. }
  assert (∃ o', validate o = Ok o') as [o' Ho'].
  { apply validate_accepts.
    - by rewrite Hh.
    - by rewrite Hp.
    - intros k Hk Hsome. unfold prop. rewrite (Htf k Hk) in *.
      destruct (raw !! k) as [v|] eqn:Hv; [|by destruct Hsome].
      simpl. rewrite Hid. apply Hparse; [done|]. by rewrite Hv.
    - intros k Hk _. unfold prop at 1. rewrite (Hnu k Hk). simpl.
      destruct (raw !! k) as [v|] eqn:Hv; simpl.
      + replace v with (prop raw k) by (unfold prop; by rewrite Hv).
        apply Hnum; [done|]. by rewrite Hv.
      + unfold numerics in Hk.
        repeat (apply elem_of_cons in Hk as [->|Hk]; [done|]).
        by apply elem_of_nil in Hk.
    - intros k. rewrite Heff.
      repeat (case_decide; [subst; intros _; apply Hyes; by vm_compute|]).
      destruct (decide (k ∈ timeframes)) as [Hk|_].
      { intros _. unfold timeframes in Hk.
        repeat (apply elem_of_cons in Hk as [->|Hk];
                [apply Hyes; by vm_compute|]).
        by apply elem_of_nil in Hk. }
      destruct (decide (k ∈ numerics)) as [Hk|_]; [|apply Hsup].
      intros _. unfold numerics in Hk.
      repeat (apply elem_of_cons in Hk as [->|Hk];
              [apply Hyes; by vm_compute|]).
      by apply elem_of_nil in Hk. }
  rewrite Ho'. f_equal. apply map_eq. intros k.
  pose proof (validate_cases o) as Hcases'. rewrite Ho' in Hcases'.
  destruct Hcases' as (_ & _ & _ & _ & _ & Heff').
  rewrite Heff'.
  destruct (decide (k = "port")) as [->|?].
  { rewrite Hp, Heff. done. }
  destruct (decide (k = "pattern")) as [->|?].
  { rewrite Hpat, Heff. simpl. f_equal. unfold or_else at 1.
    destruct (truthy (or_else _ _)) eqn:Ht; [done|].
    unfold or_else in Ht.
    destruct (truthy (prop raw "pattern")) eqn:Hx; [congruence | done]. }
  destruct (decide (k ∈ timeframes)) as [Hk|?].
  { unfold prop. rewrite (Htf k Hk). destruct (raw !! k); [|done].
    simpl. by rewrite Hid. }
  destruct (decide (k ∈ numerics)) as [Hk|?]; [|done].
  by rewrite (Hnu k Hk).
Qed.

(** X6.  The description of the server, which every record of a selected
    key carries as its [name], is the master name when [redisMaster] is
    truthy, and otherwise the host and the port number joined by a
    colon. *)
Theorem the_server_is_described_by_its_master_name_or_host_and_port raw c :
  RedisKeyScanner raw = Ok c →
  redisDescription c
  = if truthy (prop raw "redisMaster") then prop raw "redisMaster"
    else VStr (ToString (prop raw "host") +:+ ":"
               +:+ NumberToString (ToNumber (prop raw "port"))).
Proof.
  unfold RedisKeyScanner. intros Hc.
  apply bind_Ok in Hc as (o & Ho & Hc). inversion Hc; subst c; simpl.
  pose proof (validate_cases raw) as Hcases. rewrite Ho in Hcases.
  destruct Hcases as (Hhost & _ & _ & _ & _ & Heff).
  assert (prop o "redisMaster" = prop raw "redisMaster") as ->.
  { unfold prop. by rewrite Heff. }
  destruct (truthy (prop raw "redisMaster")); [done|].
  f_equal. unfold pick. cbn [omap list_omap].
  rewrite !Heff. cbn [decide].
  rewrite decide_False by done. rewrite decide_False by done.
  rewrite decide_False by (apply (bool_decide_unpack _); by vm_compute).
  rewrite decide_False by (apply (bool_decide_unpack _); by vm_compute).
  rewrite decide_True by done.
  unfold prop in *. destruct (raw !! "host") as [h|]; [|done].
  simpl. by destruct h.
Qed.

(** X7.  The filter reads the idle time as a number: whatever the reply of
    the store, its result is that for [Number(reply)], so a [null] reply
    (the key is gone) is filtered as an idle time of 0.  And when no ttl
    option is present the result does not depend on the ttl. *)
Theorem the_filter_reads_the_idle_time_as_a_number raw c idletime ttl :
  RedisKeyScanner raw = Ok c →
  selects c idletime ttl = selects c (Number idletime) ttl
  ∧ selects c VNull ttl = selects c (VNum (Fin 0)) ttl
  ∧ (checkTTL c = false →
     ∀ ttl', selects c idletime ttl' = selects c idletime ttl).
Proof.
  intros Hc. apply RedisKeyScanner_Ok in Hc as [[Hb _] Httl].
  assert (∀ k v, k ∈ timeframes →
            isNaN (prop (options c) k) || le v (prop (options c) k)
            = isNaN (prop (options c) k)
              || le (Number v) (prop (options c) k)) as Hle.
  { intros k v Hk. unfold prop.
    destruct (Hb k Hk) as [-> | (n & _ & ->)]; [done|].
    unfold le, lt. by destruct v. }
  assert (∀ k v, k ∈ timeframes →
            isNaN (prop (options c) k) || ge v (prop (options c) k)
            = isNaN (prop (options c) k)
              || ge (Number v) (prop (options c) k)) as Hge.
  { intros k v Hk. unfold prop.
    destruct (Hb k Hk) as [-> | (n & _ & ->)]; [done|].
    unfold ge, lt. by destruct v. }
  assert (∀ v, selects c v ttl = selects c (Number v) ttl) as Hnum.
  { intros v. unfold selects.
    rewrite (Hle "maxIdle" v), (Hge "minIdle" v) by timeframe. done. }
  split; [apply Hnum|]. split; [apply (Hnum VNull)|].
  intros Hno ttl'. rewrite Hno in Httl. symmetry in Httl. simpl in Httl.
  rewrite !orb_false_iff, !has_false in Httl.
  destruct Httl as (Hexp & Hmax & Hmin & _).
  unfold selects, has, prop. by rewrite Hexp, Hmax, Hmin.
Qed.

(** X8.  When the [exec()] of a page is fulfilled, the promise of the page
    is fulfilled if the replies hold an element for every command of the
    pipeline (one per key, two when the ttl is fetched), and rejected
    otherwise, the callback having thrown; no other promise changes. *)
Theorem the_promise_of_a_page_is_fulfilled_when_every_reply_is_there
    c i results s s' :
  dispatch c (ExecFulfilled i results) s = Some s' →
  ∃ p, pending i s = Some p
    ∧ pipelinePromises s' !! i
      = Some {| batchKeys := batchKeys p; commands := commands p;
                settled :=
                  if bool_decide (width c * length (batchKeys p)
                                  ≤ length results)
                  then Fulfilled else Rejected |}
    ∧ ∀ j, j ≠ i → pipelinePromises s' !! j = pipelinePromises s !! j.
Proof. apply dispatch_settles. Qed.

(** X9.  The callback of a page emits, in the order of the page, the
    entries of its keys that pass the filter: all of them when [limit] is
    [Infinity], and with [limit] an integer L the first ones until the
    counter of selected keys reaches the larger of 1 and L.  The records
    are those that the scan has emitted and that are not a summary. *)
Theorem a_page_selects_its_first_matching_keys
    raw c events s i results s' p :
  scanning raw events = Some (c, s) →
  pending i s = Some p →
  dispatch c (ExecFulfilled i results) s = Some s' →
  (∀ L, options c !! "limit" = Some (VNum (Fin L)) →
     key_records (emitted s')
     = key_records (emitted s)
         ++ take (Z.to_nat (Z.max 1 L - streamKeysSelected s))
              (matching c results 0 (batchKeys p)))
  ∧ (options c !! "limit" = Some (VNum PosInf) →
     key_records (emitted s')
     = key_records (emitted s) ++ matching c results 0 (batchKeys p)).
Proof.
  intros Hs Hp He. pose proof Hs as Hscan.
  apply scanning_consistent in Hs as [Hv Hs].
  apply scanning_Some in Hscan as [_ Hrun].
  pose proof (dispatch_consistent c _ s s' Hs He) as Hs'.
  destruct (consistent_key_records c s Hv Hs) as (-> & _).
  destruct (consistent_key_records c s' Hv Hs') as (-> & _).
  rewrite (dispatch_selected_keys c Hv _ s s' He). cbn [fresh].
  rewrite Hp, data_data. split.
  - intros L HL. f_equal.
    assert (prop (options c) "limit" = VNum (Fin L)) as HL'
      by (unfold prop; by rewrite HL).
    destruct (run_within_max c L events s HL' Hrun) as [[Hlo _] Hiff].
    by apply chosen_limit.
  - intros HL. f_equal.
    assert (prop (options c) "limit" = VNum PosInf) as HL'
      by (unfold prop; by rewrite HL).
    rewrite (run_unlimited c events s HL' Hrun).
    by apply chosen_unlimited.
Qed.

(** X10.  With [limit] an integer L, whatever its sign, the counter of
    selected keys stays between 0 and the larger of 1 and L, and
    [atSelectLimit] is true exactly when it has reached that bound: a
    limit of 0 or less lets one key through, as the flag is only
    recomputed after a selection. *)
Theorem a_limit_below_one_acts_as_a_limit_of_one raw c events s L :
  scanning raw events = Some (c, s) →
  options c !! "limit" = Some (VNum (Fin L)) →
  (0 ≤ streamKeysSelected s ≤ Z.max 1 L)%Z
  ∧ (atSelectLimit s = true ↔ streamKeysSelected s = Z.max 1 L)
  ∧ Z.of_nat (length (key_records (emitted s))) = streamKeysSelected s.
Proof.
  intros Hs HL. pose proof Hs as Hscan.
  apply scanning_consistent in Hs as [Hv Hs].
  apply scanning_Some in Hscan as [_ Hrun].
  assert (prop (options c) "limit" = VNum (Fin L)) as HL'
    by (unfold prop; by rewrite HL).
  destruct (run_within_max c L events s HL' Hrun) as [Hle Hiff].
  split; [done|]. split.
  - rewrite Hiff. lia.
  - by destruct (consistent_key_records c s Hv Hs) as (-> & _ & _ & ?).
Qed.

(** X11.  At every point of a scan the counter of selected keys is at
    most the number of keys of the pages whose promise has settled, which
    is at most the counter of scanned keys; so the summary record of the
    scan never holds more keys selected than scanned. *)
Theorem keysSelected_is_at_most_keysScanned raw c events s :
  scanning raw events = Some (c, s) →
  (0 ≤ streamKeysSelected s ≤ examined (pipelinePromises s))%Z
  ∧ (examined (pipelinePromises s) ≤ streamKeysScanned s)%Z
  ∧ ∃ n m, summary c s !! "keysSelected" = Some (VNum (Fin n))
      ∧ summary c s !! "keysScanned" = Some (VNum (Fin m))
      ∧ (0 ≤ n ≤ m)%Z.
Proof.
  intros Hs. pose proof Hs as Hscan.
  apply scanning_consistent in Hs as [Hv Hs].
  apply scanning_Some in Hscan as [_ Hrun].
  assert (0 ≤ streamKeysSelected s ≤ examined (pipelinePromises s))%Z
    as Hsel by (by apply (run_examined c events initial s Hrun)).
  assert (examined (pipelinePromises s) ≤ streamKeysScanned s)%Z as Hsc.
  { destruct Hs as [[-> _ _ _ _ _] _]. apply examined_le. }
  split; [done|]. split; [done|].
  destruct (summary_counters c s Hv) as (Hk1 & Hk2 & _).
  exists (streamKeysSelected s), (streamKeysScanned s).
  split_and!; try done; lia.
Qed.

(** X12.  Once ['end'] has been emitted every promise is fulfilled, and
    whatever happens later the stream hands over no page, no promise
    settles, the counters keep their values and the scanner emits nothing
    but, at most, a connection error. *)
Theorem nothing_follows_end_but_a_connection_error
    raw c events s later s' :
  scanning raw events = Some (c, s) →
  EmitEnd ∈ emitted s →
  run c later s = Some s' →
  Forall fulfilled (pipelinePromises s)
  ∧ Forall (λ e, e = StreamEnd ∨ ∃ err, e = RedisError err) later
  ∧ signals (emitted s') = signals (emitted s)
  ∧ streamKeysScanned s' = streamKeysScanned s
  ∧ streamKeysSelected s' = streamKeysSelected s.
Proof.
  intros Hs Hend Hlater. apply scanning_consistent in Hs as [Hv Hs].
  pose proof (end_summarised c s (proj1 Hs) Hend) as Hsum.
  split.
  - by destruct (summarised_then c s (proj1 Hs) Hsum).
  - by apply (run_after_summary c later s s').
Qed.

(** X13.  Every data record emitted that is not a summary carries, as
    [name], the description of the server and, as [key], a key of a page
    that the scan stream handed over. *)
Theorem every_record_reports_a_scanned_key raw c events s d :
  scanning raw events = Some (c, s) →
  d ∈ key_records (emitted s) →
  d !! "name" = Some (redisDescription c)
  ∧ ∃ key page, d !! "key" = Some (VStr key)
      ∧ key ∈ page ∧ page ∈ pages events.
Proof.
  intros Hs Hd. pose proof Hs as Hscan.
  apply scanning_consistent in Hs as [Hv Hs].
  apply scanning_Some in Hscan as [_ Hrun].
  destruct (consistent_key_records c s Hv Hs) as (Hrec & _).
  rewrite Hrec in Hd.
  pose proof (run_scanned_keys c Hv events initial s Hrun (Forall_nil_2 _))
    as Hall.
  rewrite Forall_forall in Hall.
  destruct (Hall d Hd)
    as (key & idletime & ttl & page & -> & Hk & Hp).
  rewrite (run_pages c events initial s Hrun) in Hp. simpl in Hp.
  destruct (entry_name_key c key idletime ttl) as (Hn & Hkey & _).
  split; [done|]. by exists key, page.
Qed.

(** X14.  The command line ends in its usage text with "Unsupported
    arg(s)" exactly when the first positional argument, if any, is a
    string and some argument is not a supported one, and then it lists
    those arguments; the options it builds hold supported options only, so
    its constructor never throws "Unsupported option(s)". *)
Theorem the_command_line_reports_unsupported_arguments_itself
    positional args :
  ((∃ opts, parseCommandLineAndScanKeys positional args
            = Usage (UnsupportedArgs opts))
   ↔ is_Some (hostPort positional)
     ∧ ∃ k, is_Some (args !! k) ∧ k ∉ supportedArgs)
  ∧ (∀ opts, parseCommandLineAndScanKeys positional args
             = Usage (UnsupportedArgs opts) →
       ∀ k, k ∈ opts ↔ is_Some (args !! k) ∧ k ∉ supportedArgs)
  ∧ ∀ opts, parseCommandLineAndScanKeys positional args
            ≠ Usage (Thrown (UnsupportedOptions opts)).
Proof.
  unfold parseCommandLineAndScanKeys.
  destruct (hostPort positional) as [hp|].
  2:{ split_and!.
      - split; [by intros [? ?] | by intros [[? ?] _]].
      - discriminate.
      - discriminate. }
  cbv zeta.
  remember (command_line_options args (host_of hp) _ (master_of positional))
    as o eqn:Ho.
  assert (∀ k, is_Some (o !! k) → k ∈ supportedOptions) as Hsup
    by (intros k; rewrite Ho; apply command_line_supported).
  clear Ho.
  pose proof (omit_keys args supportedArgs) as Hkeys.
  split_and!.
  - split.
    + intros [opts Hx]. apply try_scan_unsupported in Hx as [Hne _].
      split; [done|].
      destruct (map_to_list (omit args supportedArgs)).*1 as [|k l];
        [done|].
      exists k. apply Hkeys, elem_of_cons. by left.
    + intros [_ (k & Hk)]. apply Hkeys in Hk.
      exists (map_to_list (omit args supportedArgs)).*1.
      apply try_scan_unsupported. split; [|done].
      intros Hnil. rewrite Hnil in Hk. by apply elem_of_nil in Hk.
  - intros opts Hx. apply try_scan_unsupported in Hx as [_ ->].
    apply Hkeys.
  - intros opts Hx. apply try_scan_thrown in Hx as [_ Hx].
    pose proof (validate_cases o) as Hcases. rewrite Hx in Hcases.
    destruct Hcases as (_ & _ & _ & _ & Hne & Hin).
    destruct opts as [|k opts]; [done|].
    destruct (proj1 (Hin k)) as [Hsome Hk]; [apply elem_of_cons; by left|].
    by apply Hk, Hsup.
Qed.

(** X15.  The command line ends in its usage text with "Host is required"
    exactly when every argument is supported and there is no positional
    argument or the first one is a string with nothing before its first
    colon. *)
Theorem the_command_line_requires_a_host positional args :
  parseCommandLineAndScanKeys positional args = Usage (Thrown HostRequired)
  ↔ (∀ k, is_Some (args !! k) → k ∈ supportedArgs)
    ∧ (positional = []
       ∨ ∃ s rest, positional = VStr s :: rest
           ∧ head (split ":" s) = Some EmptyString).
Proof.
  unfold parseCommandLineAndScanKeys.
  rewrite <- (no_unsupported args supportedArgs), length_zero_iff_nil.
  destruct positional as [|first rest]; cbn [hostPort].
  - cbv zeta.
    rewrite try_scan_thrown, validate_host, command_line_prop_host.
    cbn [host_of truthy]. split; [by intros [? _]; auto | by intros [? _]].
  - destruct first as [| |b|n|s];
      try (split; [discriminate | by intros [_ [?|(? & ? & ? & _)]]]).
    cbv zeta.
    rewrite try_scan_thrown, validate_host, command_line_prop_host.
    destruct (split_head ":" s) as (part & parts & Hsplit).
    rewrite Hsplit. cbn [host_of head].
    split.
    + intros [Hnil Hpart]. split; [done|]. right. exists s, rest.
      split; [done|]. rewrite Hsplit. simpl. by destruct part.
    + intros [Hnil [?|(s' & rest' & [= <- <-] & Hpart)]]; [done|].
      rewrite Hsplit in Hpart. simpl in Hpart. by inversion Hpart; subst.
Qed.

(** X16.  An argument that has a default and whose value is falsy, such as
    [--limit=0], [--scan-limit=0], [--scan-batch=0] or an empty
    [--pattern], is read as if it were not given. *)
Theorem a_falsy_argument_is_read_as_not_given
    args k v host port redisMaster :
  k ∈ ["db"; "scan-batch"; "scan-limit"; "limit"; "pattern"; "debug"] →
  truthy v = false →
  command_line_options (<[k := v]> args) host port redisMaster
  = command_line_options (delete k args) host port redisMaster.
Proof.
  intros Hk Hv. apply command_line_ext.
  - intros j Hj. unfold prop.
    assert (k ≠ j) as Hne.
    { intros Heq. subst j.
      repeat (apply elem_of_cons in Hk as [->|Hk];
              [by repeat (apply elem_of_cons in Hj as [?|Hj]; [done|]);
                  apply elem_of_nil in Hj|]).
      by apply elem_of_nil in Hk. }
    by rewrite lookup_insert_ne, lookup_delete_ne.
  - intros j d _. unfold prop. destruct (decide (k = j)) as [<-|Hne].
    + rewrite lookup_insert_eq, lookup_delete_eq. simpl.
      by rewrite or_else_falsy.
    + by rewrite lookup_insert_ne, lookup_delete_ne.
Qed.

(** X17.  When the first positional argument holds no colon, the scanner
    that the command line starts has port 6379, and port 26379 when a
    truthy master name follows; when it holds a colon, the host is what
    comes before the first colon and the port is the number that the next
    part reads as. *)
Theorem the_command_line_fills_in_the_default_port s rest args c :
  parseCommandLineAndScanKeys (VStr s :: rest) args = Listening c →
  (∀ host, split ":" s = [host] →
     options c !! "host" = Some (VStr host)
     ∧ options c !! "port"
       = Some (VNum (Fin (if truthy (master_of (VStr s :: rest))
                          then 26379 else 6379))))
  ∧ (∀ host port parts, split ":" s = host :: port :: parts →
       options c !! "host" = Some (VStr host)
       ∧ options c !! "port" = Some (Number (VStr port))).
Proof.
  unfold parseCommandLineAndScanKeys. cbn [hostPort]. cbv zeta.
  intros Hl. apply try_scan_listening in Hl as (_ & _ & Hv).
  pose proof (command_line_host args (host_of (Parts (split ":" s)))
                (port_of (Parts (split ":" s))
                   (prop defaults
                      (if truthy (master_of (VStr s :: rest))
                       then "sentinelPort" else "redisPort")))
                (master_of (VStr s :: rest))) as Hh.
  pose proof (command_line_port args (host_of (Parts (split ":" s)))
                (port_of (Parts (split ":" s))
                   (prop defaults
                      (if truthy (master_of (VStr s :: rest))
                       then "sentinelPort" else "redisPort")))
                (master_of (VStr s :: rest))) as Hp.
  remember (command_line_options args _ _ _) as o eqn:Ho. clear Ho.
  pose proof (validate_cases o) as Hcases. rewrite Hv in Hcases.
  destruct Hcases as (_ & _ & _ & _ & _ & Heff).
  assert (options c !! "host" = o !! "host") as -> by (by rewrite Heff).
  assert (options c !! "port" = Some (Number (prop o "port"))) as ->
    by (by rewrite Heff).
  unfold prop. rewrite Hh, Hp. split.
  - intros host ->. cbn [host_of port_of]. split; [done|].
    by destruct (truthy (master_of (VStr s :: rest))).
  - intros host port parts ->. cbn [host_of port_of]. done.
Qed.

End further.

(** * The claims on examples *)

#[local] Existing Instances example_conversions example_timeframes.

(** the scan of an example, from two evaluations *)
Lemma example_scanning raw events :
  is_Ok (RedisKeyScanner raw) = true →
  bool_decide (is_Some (run (example_scan raw) events initial)) = true →
  scanning raw events = Some (example_scan raw, example_run raw events).
Proof.
  intros Hc Hrun. apply scanning_Some. split.
  - unfold example_scan. by apply Ok_the.
  - unfold example_run. apply Some_default.
    exact (decided _ Hrun).
Qed.

(** C1 as worded fails: with [noExpiry] present and [false], a key record
    with ttl -1 and idle time 0 satisfies every clause of the claim (read
    "configured" as present; read as truthy, the clause is vacuous), and
    the filter rejects it. *)
Lemma C1_counterexample_noExpiry_false :
  ∃ c, RedisKeyScanner no_expiry_false = Ok c
    ∧ spec_select (options c) 0 (-1)
    ∧ selects c (VNum (Fin 0))
        (if checkTTL c then VNum (Fin (-1)) else VBool false) = false.
Proof.
  eexists. split; [evaluate|]. split; [|evaluate].
  split; [split_and!|]; intros; try done;
    match goal with Hn : _ !! _ = Some _ |- _ => vm_compute in Hn end;
    discriminate.
Qed.

(** C1 at the options of a week of idle time *)
Lemma C1_witness :
  ∃ c, RedisKeyScanner week_idle = Ok c
    ∧ (selects c (VNum (Fin 700000))
         (if checkTTL c then VNum (Fin (-1)) else VBool false) = true
       ↔ bounds_hold (options c) 700000 (-1)
         ∧ (∀ v, options c !! "noExpiry" = Some v →
              truthy v = true ∧ (-1)%Z = (-1)%Z)).
Proof.
  eexists. split; [evaluate|].
  refine (proj1 (C1_selects_iff_every_configured_bound_holds
                   week_idle _ 700000 (-1) _)).
  evaluate.
Defined.

(** C2 on a scan of one page whose stream ends before the batch resolves *)
Lemma C2_witness :
  scanning localhost
    [StreamData ["a"]; StreamEnd; ExecFulfilled 0 [reply 7]]
  = Some (example_scan localhost,
          example_run localhost
            [StreamData ["a"]; StreamEnd; ExecFulfilled 0 [reply 7]])
  ∧ completed [StreamData ["a"]; StreamEnd; ExecFulfilled 0 [reply 7]]
      (example_run localhost
         [StreamData ["a"]; StreamEnd; ExecFulfilled 0 [reply 7]])
  ∧ ∃ entries,
      signals (emitted (example_run localhost
                 [StreamData ["a"]; StreamEnd; ExecFulfilled 0 [reply 7]]))
      = (EmitData <$> entries)
          ++ [EmitData
                (summary (example_scan localhost)
                   (example_run localhost
                      [StreamData ["a"]; StreamEnd;
                       ExecFulfilled 0 [reply 7]]));
              EmitEnd].
Proof.
  assert (scanning localhost
            [StreamData ["a"]; StreamEnd; ExecFulfilled 0 [reply 7]]
          = Some (example_scan localhost,
                  example_run localhost
                    [StreamData ["a"]; StreamEnd; ExecFulfilled 0 [reply 7]]))
    as Hs by (apply example_scanning; vm_compute; reflexivity).
  assert (completed [StreamData ["a"]; StreamEnd; ExecFulfilled 0 [reply 7]]
            (example_run localhost
               [StreamData ["a"]; StreamEnd; ExecFulfilled 0 [reply 7]]))
    as Hdone.
  { split.
    - left. apply list_elem_of_lookup. exists 1. reflexivity.
    - apply all_fulfilled_iff. vm_compute. reflexivity. }
  split; [exact Hs|]. split; [exact Hdone|].
  destruct (C2_one_summary_after_every_selected_key _ _ _ _ Hs)
    as (entries & tail & Hem & _ & _ & Htail & _).
  exists entries. rewrite <- (Htail Hdone). exact Hem.
Defined.

(** C3 as worded fails: the constructor takes any number that is not [NaN]
    as [limit]; with a limit of 2.5 and three matching keys the counter
    passes 1 and 2, neither of which is at least 2.5, and a third key is
    selected. *)
Lemma C3_counterexample_a_limit_of_two_and_a_half_selects_three_keys :
  match
    scanning limit_two_and_a_half
      [StreamData ["a"; "b"; "c"];
       ExecFulfilled 0 [reply 1; reply 2; reply 3]; StreamEnd]
  with
  | Some (c, s) =>
      options c !! "limit"
      = Some (VNum (Rat (Qcanon.Q2Qc (QArith_base.Qmake 5 2))))
      ∧ streamKeysSelected s = 3%Z
      ∧ num_lt (Rat (Qcanon.Q2Qc (QArith_base.Qmake 5 2)))
          (Fin (streamKeysSelected s)) = Some true
      ∧ length (key_records (emitted s)) = 3
      ∧ summary c s !! "keysSelected" = Some (VNum (Fin 3))
      ∧ last (emitted s) = Some EmitEnd
  | None => False
  end.
Proof. vm_compute. split_and!; reflexivity. Qed.

(** C3 on three matching keys under [limit] 1 *)
Lemma C3_witness :
  scanning limit_one
    [StreamData ["a"; "b"; "c"];
     ExecFulfilled 0 [reply 1; reply 2; reply 3]]
  = Some (example_scan limit_one,
          example_run limit_one
            [StreamData ["a"; "b"; "c"];
             ExecFulfilled 0 [reply 1; reply 2; reply 3]])
  ∧ options (example_scan limit_one) !! "limit" = Some (VNum (Fin 1))
  ∧ (1 ≤ 1)%Z
  ∧ run (example_scan limit_one) [StreamEnd]
      (example_run limit_one
         [StreamData ["a"; "b"; "c"];
          ExecFulfilled 0 [reply 1; reply 2; reply 3]])
    = Some (default initial
              (run (example_scan limit_one) [StreamEnd]
                 (example_run limit_one
                    [StreamData ["a"; "b"; "c"];
                     ExecFulfilled 0 [reply 1; reply 2; reply 3]])))
  ∧ (0 ≤ streamKeysSelected
           (example_run limit_one
              [StreamData ["a"; "b"; "c"];
               ExecFulfilled 0 [reply 1; reply 2; reply 3]]) ≤ 1)%Z.
Proof.
  assert (scanning limit_one
            [StreamData ["a"; "b"; "c"];
             ExecFulfilled 0 [reply 1; reply 2; reply 3]]
          = Some (example_scan limit_one,
                  example_run limit_one
                    [StreamData ["a"; "b"; "c"];
                     ExecFulfilled 0 [reply 1; reply 2; reply 3]]))
    as Hs by (apply example_scanning; vm_compute; reflexivity).
  assert (options (example_scan limit_one) !! "limit"
          = Some (VNum (Fin 1))) as HL by (vm_compute; reflexivity).
  assert (run (example_scan limit_one) [StreamEnd]
            (example_run limit_one
               [StreamData ["a"; "b"; "c"];
                ExecFulfilled 0 [reply 1; reply 2; reply 3]])
          = Some (default initial
                    (run (example_scan limit_one) [StreamEnd]
                       (example_run limit_one
                          [StreamData ["a"; "b"; "c"];
                           ExecFulfilled 0 [reply 1; reply 2; reply 3]]))))
    as Hlater
    by (apply Some_default, (decided _); vm_compute; reflexivity).
  split; [exact Hs|]. split; [exact HL|]. split; [lia|].
  split; [exact Hlater|].
  exact (proj1 (C3_keysSelected_stays_within_the_limit
                  _ _ 1 _ _ _ _ Hs HL ltac:(lia) Hlater)).
Defined.

(** C4 as worded fails: under [noExpiry: true] and [minIdle] of a week, a key
    record with ttl -1 and idle time 5 is rejected; without [minIdle] it is
    selected. *)
Lemma C4_counterexample_minIdle_changes_the_result :
  ∃ c c',
    RedisKeyScanner no_expiry_week_idle = Ok c
    ∧ options c !! "noExpiry" = Some (VBool true)
    ∧ selects c (VNum (Fin 5)) (VNum (Fin (-1))) = false
    ∧ RedisKeyScanner no_expiry = Ok c'
    ∧ selects c' (VNum (Fin 5)) (VNum (Fin (-1))) = true.
Proof. eexists _, _. split_and!; evaluate. Qed.

(** C4 at [noExpiry: true] *)
Lemma C4_witness :
  ∃ c, RedisKeyScanner no_expiry = Ok c
    ∧ options c !! "noExpiry" = Some (VBool true)
    ∧ truthy (VBool true) = true
    ∧ checkTTL c = true.
Proof.
  eexists. split; [evaluate|]. split; [evaluate|]. split; [done|].
  refine (proj1 (C4_noExpiry_selects_ttl_minus_one_within_the_other_bounds
                   no_expiry _ (VBool true) 10 (-1) _ _ _));
    [evaluate | evaluate | done].
Defined.

(** C5 as worded fails: under [maxTTL] of an hour, [noExpiry] absent, a key
    record with ttl -1 is selected, as -1 <= 3600. *)
Lemma C5_counterexample_maxTTL_selects_a_key_without_expiry :
  ∃ c, RedisKeyScanner max_ttl_hour = Ok c
    ∧ options c !! "noExpiry" = None
    ∧ options c !! "maxTTL" = Some (VNum (Fin 3600))
    ∧ selects c (VNum (Fin 0))
        (if checkTTL c then VNum (Fin (-1)) else VBool false) = true.
Proof. eexists. split_and!; evaluate. Qed.

(** C5 at [maxTTL] of an hour *)
Lemma C5_witness :
  ∃ c, RedisKeyScanner max_ttl_hour = Ok c
    ∧ options c !! "noExpiry" = None
    ∧ (is_Some (options c !! "maxTTL") ∨ is_Some (options c !! "minTTL"))
    ∧ checkTTL c = true.
Proof.
  eexists. split; [evaluate|]. split; [evaluate|].
  assert (∀ P Q : Prop, P → (P → Q) → P ∧ Q) as Hcut by tauto.
  apply Hcut; [left; eexists; evaluate|]. intros Hb.
  refine (proj1 (C5_ttl_minus_one_is_compared_with_the_ttl_bounds_as_a_number
                   max_ttl_hour _ 0 _ _ Hb));
    evaluate.
Defined.

(** C6 as worded fails: when the [exec()] of the second page is rejected and
    the stream ends, the scanner has emitted the entry of the first page
    and nothing else, neither an error nor a summary; when the connection
    reports an error before the stream ends, it emits the error and then
    the summary and ['end']; and when a command fails and a fulfilled
    [exec()] reports the error in its replies, it emits an entry without
    idle time, the summary and ['end']. *)
Lemma C6_counterexample_neither_signal_or_both :
  match
    scanning localhost
      [StreamData ["a"]; StreamData ["b"]; ExecFulfilled 0 [reply 1];
       ExecRejected 1; StreamEnd],
    scanning localhost [RedisError (VStr "ECONNRESET"); StreamEnd],
    scanning localhost
      [StreamData ["a"];
       ExecFulfilled 0 [(VStr "ERR no such key", VUndefined)]; StreamEnd]
  with
  | Some (c1, s1), Some (c2, s2), Some (c3, s3) =>
      emitted s1 = [EmitData (entry c1 "a" (VNum (Fin 1)) (VBool false))]
      ∧ emitted s2
        = [EmitError (VStr "ECONNRESET"); EmitData (summary c2 s2); EmitEnd]
      ∧ emitted s3
        = [EmitData (entry c3 "a" VUndefined (VBool false));
           EmitData (summary c3 s3); EmitEnd]
  | _, _, _ => False
  end.
Proof. vm_compute. split_and!; reflexivity. Qed.

(** C6 on a scan whose second page fails *)
Lemma C6_witness :
  scanning localhost
    [StreamData ["a"]; StreamData ["b"]; ExecFulfilled 0 [reply 1];
     ExecRejected 1; StreamEnd]
  = Some (example_scan localhost,
          example_run localhost
            [StreamData ["a"]; StreamData ["b"]; ExecFulfilled 0 [reply 1];
             ExecRejected 1; StreamEnd])
  ∧ (∃ i, ExecRejected i
          ∈ [StreamData ["a"]; StreamData ["b"]; ExecFulfilled 0 [reply 1];
             ExecRejected 1; StreamEnd])
  ∧ summaries
      (emitted (example_run localhost
         [StreamData ["a"]; StreamData ["b"];
          ExecFulfilled 0 [reply 1]; ExecRejected 1; StreamEnd]))
    = []
  ∧ EmitEnd
      ∉ emitted (example_run localhost
          [StreamData ["a"]; StreamData ["b"];
           ExecFulfilled 0 [reply 1]; ExecRejected 1; StreamEnd]).
Proof.
  assert (scanning localhost
            [StreamData ["a"]; StreamData ["b"]; ExecFulfilled 0 [reply 1];
             ExecRejected 1; StreamEnd]
          = Some (example_scan localhost,
                  example_run localhost
                    [StreamData ["a"]; StreamData ["b"];
                     ExecFulfilled 0 [reply 1]; ExecRejected 1; StreamEnd]))
    as Hs by (apply example_scanning; vm_compute; reflexivity).
  assert (∃ i, ExecRejected i
            ∈ [StreamData ["a"]; StreamData ["b"]; ExecFulfilled 0 [reply 1];
               ExecRejected 1; StreamEnd]) as Hrej.
  { exists 1. apply list_elem_of_lookup. exists 3. reflexivity. }
  split; [exact Hs|]. split; [exact Hrej|].
  destruct (proj1
              (C6_a_failed_fetch_leaves_no_summary_and_each_signal_fires_once
                 _ _ _ _ Hs) (or_intror Hrej))
    as (Hnone & Hend & _).
  split; [exact Hnone | exact Hend].
Defined.

(** C7 on two pages *)
Lemma C7_witness :
  scanning localhost [StreamData ["a"; "b"]; StreamData ["c"]]
  = Some (example_scan localhost,
          example_run localhost [StreamData ["a"; "b"]; StreamData ["c"]])
  ∧ streamKeysScanned
      (example_run localhost [StreamData ["a"; "b"]; StreamData ["c"]])
    = total (pages [StreamData ["a"; "b"]; StreamData ["c"]])
  ∧ summary (example_scan localhost)
      (example_run localhost [StreamData ["a"; "b"]; StreamData ["c"]])
      !! "keysScanned"
    = Some (VNum (Fin (total (pages [StreamData ["a"; "b"];
                                     StreamData ["c"]])))).
Proof.
  assert (scanning localhost [StreamData ["a"; "b"]; StreamData ["c"]]
          = Some (example_scan localhost,
                  example_run localhost
                    [StreamData ["a"; "b"]; StreamData ["c"]]))
    as Hs by (apply example_scanning; vm_compute; reflexivity).
  split; [exact Hs|].
  destruct (C7_keysScanned_is_the_total_of_the_pages_dispatched _ _ _ _ Hs)
    as (Htotal & _ & _ & Hsum & _).
  split; [exact Htotal | exact Hsum].
Defined.


(** C9 on a scan with [noExpiry: true] *)
Lemma C9_witness :
  scanning no_expiry [StreamData ["a"]; ExecFulfilled 0 (replies 5 (-1))]
  = Some (example_scan no_expiry,
          example_run no_expiry
            [StreamData ["a"]; ExecFulfilled 0 (replies 5 (-1))])
  ∧ (checkTTL (example_scan no_expiry) = true
     ↔ is_Some (options (example_scan no_expiry) !! "noExpiry")
       ∨ is_Some (options (example_scan no_expiry) !! "maxTTL")
       ∨ is_Some (options (example_scan no_expiry) !! "minTTL"))
  ∧ Z.of_nat
      (length
         (key_records
            (emitted (example_run no_expiry
               [StreamData ["a"]; ExecFulfilled 0 (replies 5 (-1))]))))
    = streamKeysSelected
        (example_run no_expiry
           [StreamData ["a"]; ExecFulfilled 0 (replies 5 (-1))]).
Proof.
  assert (scanning no_expiry
            [StreamData ["a"]; ExecFulfilled 0 (replies 5 (-1))]
          = Some (example_scan no_expiry,
                  example_run no_expiry
                    [StreamData ["a"]; ExecFulfilled 0 (replies 5 (-1))]))
    as Hs by (apply example_scanning; vm_compute; reflexivity).
  split; [exact Hs|].
  destruct (C9_ttl_is_fetched_and_reported_when_a_ttl_option_is_present
              _ _ _ _ Hs) as (Httl & _ & _ & _ & Hlen).
  split; [exact Httl | exact Hlen].
Defined.

(** C10 on a scan with [noExpiry: false] *)
Lemma C10_witness :
  ∃ c s,
    scanning no_expiry_false
      [StreamData ["a"]; ExecFulfilled 0 (replies 5 (-1)); StreamEnd]
      = Some (c, s)
    ∧ options c !! "noExpiry" = Some (VBool false)
    ∧ truthy (VBool false) = false
    ∧ streamKeysSelected s = 0%Z.
Proof.
  eexists _, _. split; [evaluate|]. split; [evaluate|]. split; [done|].
  refine (proj1 (proj2
            (C10_noExpiry_present_and_falsy_selects_no_key
               no_expiry_false _ (VBool false)
               [StreamData ["a"]; ExecFulfilled 0 (replies 5 (-1));
                StreamEnd] _ _ _ _)));
    [evaluate | evaluate | done].
Defined.

(** * Scenarios of the specification, run on the model *)

(** Under [minIdle] of a week, of three keys idle for 604800, 900000 and 100
    seconds the first two are selected; the summary comes last. *)
Example scenario_minIdle :
  match
    scanning week_idle
      [StreamData ["a"; "b"; "c"]; StreamEnd;
       ExecFulfilled 0 [reply 604800; reply 900000; reply 100]]
  with
  | Some (c, s) =>
      emitted s
      = [EmitData (entry c "a" (VNum (Fin 604800)) (VBool false));
         EmitData (entry c "b" (VNum (Fin 900000)) (VBool false));
         EmitData (summary c s); EmitEnd]
      ∧ summary c s !! "keysScanned" = Some (VNum (Fin 3))
      ∧ summary c s !! "keysSelected" = Some (VNum (Fin 2))
  | None => False
  end.
Proof. vm_compute. split_and!; reflexivity. Qed.

(** Under [noExpiry: true], of three keys with ttl -1, 120 and -1 the first
    and the last are selected, and their records carry the ttl. *)
Example scenario_noExpiry :
  match
    scanning no_expiry
      [StreamData ["a"; "b"; "c"];
       ExecFulfilled 0 (replies 10 (-1) ++ replies 10 120 ++ replies 10 (-1));
       StreamEnd]
  with
  | Some (c, s) =>
      emitted s
      = [EmitData (entry c "a" (VNum (Fin 10)) (VNum (Fin (-1))));
         EmitData (entry c "c" (VNum (Fin 10)) (VNum (Fin (-1))));
         EmitData (summary c s); EmitEnd]
      ∧ summary c s !! "keysSelected" = Some (VNum (Fin 2))
  | None => False
  end.
Proof. vm_compute. split_and!; reflexivity. Qed.

(** Under [limit] 1, with pages of one key whose batches resolve out of
    order, the key of the batch that resolves first is the one selected;
    the next page pauses the stream, and the summary waits for every
    batch. *)
Example scenario_limit :
  match
    scanning limit_one
      [StreamData ["a"]; StreamData ["b"]; ExecFulfilled 1 [reply 10];
       StreamData ["c"]; ExecFulfilled 2 [reply 10];
       ExecFulfilled 0 [reply 10]]
  with
  | Some (c, s) =>
      paused s = true
      ∧ emitted s
        = [EmitData (entry c "b" (VNum (Fin 10)) (VBool false));
           EmitData (summary c s); EmitEnd]
      ∧ summary c s !! "keysScanned" = Some (VNum (Fin 3))
      ∧ summary c s !! "keysSelected" = Some (VNum (Fin 1))
  | None => False
  end.
Proof. vm_compute. split_and!; reflexivity. Qed.

(** A fulfilled [exec()] whose replies fall short makes the callback throw
    after the keys before the gap were examined: the promise is rejected
    and no summary follows. *)
Example scenario_short_replies :
  match
    scanning localhost
      [StreamData ["a"; "b"]; ExecFulfilled 0 [reply 10]; StreamEnd]
  with
  | Some (c, s) =>
      settled <$> pipelinePromises s = [Rejected]
      ∧ emitted s = [EmitData (entry c "a" (VNum (Fin 10)) (VBool false))]
  | None => False
  end.
Proof. vm_compute. split_and!; reflexivity. Qed.

(** * The further properties on examples *)

(** X2 at the options of a week of idle time *)
Lemma X2_witness :
  validate week_idle = Ok (the (validate week_idle) ∅)
  ∧ the (validate week_idle) ∅ !! "port"
    = Some (Number (prop week_idle "port")).
Proof.
  assert (validate week_idle = Ok (the (validate week_idle) ∅)) as Hok
    by (apply Ok_the; vm_compute; reflexivity).
  split; [exact Hok|].
  exact (proj1 (validation_converts_and_fills_in_the_options _ _ Hok)).
Defined.

(** X4 at a limit that is not a number *)
Lemma X4_witness :
  validate limit_abc = Throw (MustBeNumber "limit")
  ∧ "limit" ∈ numerics.
Proof.
  assert (validate limit_abc = Throw (MustBeNumber "limit")) as Hthrow
    by (vm_compute; reflexivity).
  split; [exact Hthrow|].
  exact (proj1 (a_named_option_is_an_offending_option _ _ Hthrow)).
Defined.

(** X5 at the options of a week of idle time *)
Lemma X5_witness :
  (∀ n, timeframeToSeconds (VNum n) = n)
  ∧ validate week_idle = Ok (the (validate week_idle) ∅)
  ∧ validate (the (validate week_idle) ∅)
    = Ok (the (validate week_idle) ∅).
Proof.
  assert (validate week_idle = Ok (the (validate week_idle) ∅)) as Hok
    by (apply Ok_the; vm_compute; reflexivity).
  split; [done|]. split; [exact Hok|].
  exact (validated_options_validate_again_unchanged _ _ (λ n, eq_refl) Hok).
Defined.

(** X6 at a server on localhost *)
Lemma X6_witness :
  RedisKeyScanner localhost = Ok (example_scan localhost)
  ∧ redisDescription (example_scan localhost)
    = if truthy (prop localhost "redisMaster")
      then prop localhost "redisMaster"
      else VStr (ToString (prop localhost "host") +:+ ":"
                 +:+ NumberToString (ToNumber (prop localhost "port"))).
Proof.
  assert (RedisKeyScanner localhost = Ok (example_scan localhost)) as Hc
    by (apply Ok_the; vm_compute; reflexivity).
  split; [exact Hc|].
  exact (the_server_is_described_by_its_master_name_or_host_and_port
           _ _ Hc).
Defined.

(** X7 at the options of a week of idle time *)
Lemma X7_witness :
  RedisKeyScanner week_idle = Ok (example_scan week_idle)
  ∧ selects (example_scan week_idle) (VStr "12") (VBool false)
    = selects (example_scan week_idle) (Number (VStr "12")) (VBool false).
Proof.
  assert (RedisKeyScanner week_idle = Ok (example_scan week_idle)) as Hc
    by (apply Ok_the; vm_compute; reflexivity).
  split; [exact Hc|].
  exact (proj1 (the_filter_reads_the_idle_time_as_a_number
                  _ _ (VStr "12") (VBool false) Hc)).
Defined.

(** X8 on a page of two keys with one reply *)
Lemma X8_witness :
  dispatch (example_scan localhost) (ExecFulfilled 0 [reply 10])
    (example_run localhost [StreamData ["a"; "b"]])
  = Some (default initial
            (dispatch (example_scan localhost) (ExecFulfilled 0 [reply 10])
               (example_run localhost [StreamData ["a"; "b"]])))
  ∧ ∃ p, pending 0 (example_run localhost [StreamData ["a"; "b"]]) = Some p.
Proof.
  assert (dispatch (example_scan localhost) (ExecFulfilled 0 [reply 10])
            (example_run localhost [StreamData ["a"; "b"]])
          = Some (default initial
                    (dispatch (example_scan localhost)
                       (ExecFulfilled 0 [reply 10])
                       (example_run localhost [StreamData ["a"; "b"]]))))
    as He
    by (apply Some_default, (decided _); vm_compute; reflexivity).
  split; [exact He|].
  destruct (the_promise_of_a_page_is_fulfilled_when_every_reply_is_there
              _ _ _ _ _ He) as (p & Hp & _).
  exists p. exact Hp.
Defined.

(** X9 on a page of three matching keys under [limit] 1 *)
Lemma X9_witness :
  scanning limit_one [StreamData ["a"; "b"; "c"]]
  = Some (example_scan limit_one,
          example_run limit_one [StreamData ["a"; "b"; "c"]])
  ∧ pending 0 (example_run limit_one [StreamData ["a"; "b"; "c"]])
    = Some (default no_promise
              (pending 0
                 (example_run limit_one [StreamData ["a"; "b"; "c"]])))
  ∧ dispatch (example_scan limit_one)
      (ExecFulfilled 0 [reply 1; reply 2; reply 3])
      (example_run limit_one [StreamData ["a"; "b"; "c"]])
    = Some (default initial
              (dispatch (example_scan limit_one)
                 (ExecFulfilled 0 [reply 1; reply 2; reply 3])
                 (example_run limit_one [StreamData ["a"; "b"; "c"]])))
  ∧ (options (example_scan limit_one) !! "limit" = Some (VNum PosInf) →
     key_records
       (emitted
          (default initial
             (dispatch (example_scan limit_one)
                (ExecFulfilled 0 [reply 1; reply 2; reply 3])
                (example_run limit_one [StreamData ["a"; "b"; "c"]]))))
     = key_records
         (emitted (example_run limit_one [StreamData ["a"; "b"; "c"]]))
         ++ matching (example_scan limit_one)
              [reply 1; reply 2; reply 3] 0
              (batchKeys
                 (default no_promise
                    (pending 0
                       (example_run limit_one
                          [StreamData ["a"; "b"; "c"]]))))).
Proof.
  assert (scanning limit_one [StreamData ["a"; "b"; "c"]]
          = Some (example_scan limit_one,
                  example_run limit_one [StreamData ["a"; "b"; "c"]]))
    as Hs by (apply example_scanning; vm_compute; reflexivity).
  assert (pending 0 (example_run limit_one [StreamData ["a"; "b"; "c"]])
          = Some (default no_promise
                    (pending 0
                       (example_run limit_one
                          [StreamData ["a"; "b"; "c"]]))))
    as Hp
    by (apply Some_default, (decided _); vm_compute; reflexivity).
  assert (dispatch (example_scan limit_one)
            (ExecFulfilled 0 [reply 1; reply 2; reply 3])
            (example_run limit_one [StreamData ["a"; "b"; "c"]])
          = Some (default initial
                    (dispatch (example_scan limit_one)
                       (ExecFulfilled 0 [reply 1; reply 2; reply 3])
                       (example_run limit_one
                          [StreamData ["a"; "b"; "c"]]))))
    as He
    by (apply Some_default, (decided _); vm_compute; reflexivity).
  split; [exact Hs|]. split; [exact Hp|]. split; [exact He|].
  exact (proj2 (a_page_selects_its_first_matching_keys
                  _ _ _ _ _ _ _ _ Hs Hp He)).
Defined.

(** X10 on three matching keys under [limit] 0 *)
Lemma X10_witness :
  scanning limit_zero
    [StreamData ["a"; "b"; "c"];
     ExecFulfilled 0 [reply 1; reply 2; reply 3]]
  = Some (example_scan limit_zero,
          example_run limit_zero
            [StreamData ["a"; "b"; "c"];
             ExecFulfilled 0 [reply 1; reply 2; reply 3]])
  ∧ options (example_scan limit_zero) !! "limit" = Some (VNum (Fin 0))
  ∧ (0 ≤ streamKeysSelected
           (example_run limit_zero
              [StreamData ["a"; "b"; "c"];
               ExecFulfilled 0 [reply 1; reply 2; reply 3]])
       ≤ Z.max 1 0)%Z.
Proof.
  assert (scanning limit_zero
            [StreamData ["a"; "b"; "c"];
             ExecFulfilled 0 [reply 1; reply 2; reply 3]]
          = Some (example_scan limit_zero,
                  example_run limit_zero
                    [StreamData ["a"; "b"; "c"];
                     ExecFulfilled 0 [reply 1; reply 2; reply 3]]))
    as Hs by (apply example_scanning; vm_compute; reflexivity).
  assert (options (example_scan limit_zero) !! "limit"
          = Some (VNum (Fin 0))) as HL by (vm_compute; reflexivity).
  split; [exact Hs|]. split; [exact HL|].
  exact (proj1 (a_limit_below_one_acts_as_a_limit_of_one _ _ _ _ 0 Hs HL)).
Defined.

(** X11 on a page of which one key is selected *)
Lemma X11_witness :
  scanning week_idle
    [StreamData ["a"; "b"]; ExecFulfilled 0 [reply 700000; reply 5]]
  = Some (example_scan week_idle,
          example_run week_idle
            [StreamData ["a"; "b"]; ExecFulfilled 0 [reply 700000; reply 5]])
  ∧ (0 ≤ streamKeysSelected
           (example_run week_idle
              [StreamData ["a"; "b"];
               ExecFulfilled 0 [reply 700000; reply 5]])
       ≤ examined
           (pipelinePromises
              (example_run week_idle
                 [StreamData ["a"; "b"];
                  ExecFulfilled 0 [reply 700000; reply 5]])))%Z.
Proof.
  assert (scanning week_idle
            [StreamData ["a"; "b"]; ExecFulfilled 0 [reply 700000; reply 5]]
          = Some (example_scan week_idle,
                  example_run week_idle
                    [StreamData ["a"; "b"];
                     ExecFulfilled 0 [reply 700000; reply 5]]))
    as Hs by (apply example_scanning; vm_compute; reflexivity).
  split; [exact Hs|].
  exact (proj1 (keysSelected_is_at_most_keysScanned _ _ _ _ Hs)).
Defined.

(** X12 on a scan of no page, after which the connection fails *)
Lemma X12_witness :
  scanning localhost [StreamEnd]
  = Some (example_scan localhost, example_run localhost [StreamEnd])
  ∧ EmitEnd ∈ emitted (example_run localhost [StreamEnd])
  ∧ run (example_scan localhost) [RedisError (VStr "ECONNRESET")]
      (example_run localhost [StreamEnd])
    = Some (default initial
              (run (example_scan localhost)
                 [RedisError (VStr "ECONNRESET")]
                 (example_run localhost [StreamEnd])))
  ∧ Forall fulfilled (pipelinePromises (example_run localhost [StreamEnd])).
Proof.
  assert (scanning localhost [StreamEnd]
          = Some (example_scan localhost, example_run localhost [StreamEnd]))
    as Hs by (apply example_scanning; vm_compute; reflexivity).
  assert (EmitEnd ∈ emitted (example_run localhost [StreamEnd])) as Hend
    by (apply list_elem_of_lookup; exists 1; vm_compute; reflexivity).
  assert (run (example_scan localhost) [RedisError (VStr "ECONNRESET")]
            (example_run localhost [StreamEnd])
          = Some (default initial
                    (run (example_scan localhost)
                       [RedisError (VStr "ECONNRESET")]
                       (example_run localhost [StreamEnd]))))
    as Hlater
    by (apply Some_default, (decided _); vm_compute; reflexivity).
  split; [exact Hs|]. split; [exact Hend|]. split; [exact Hlater|].
  exact (proj1 (nothing_follows_end_but_a_connection_error
                  _ _ _ _ _ _ Hs Hend Hlater)).
Defined.

(** X13 on the record of a selected key *)
Lemma X13_witness :
  scanning localhost [StreamData ["a"]; ExecFulfilled 0 [reply 5]]
  = Some (example_scan localhost,
          example_run localhost
            [StreamData ["a"]; ExecFulfilled 0 [reply 5]])
  ∧ default ∅
      (head (key_records
               (emitted (example_run localhost
                  [StreamData ["a"]; ExecFulfilled 0 [reply 5]]))))
    ∈ key_records
        (emitted (example_run localhost
           [StreamData ["a"]; ExecFulfilled 0 [reply 5]]))
  ∧ default ∅
      (head (key_records
               (emitted (example_run localhost
                  [StreamData ["a"]; ExecFulfilled 0 [reply 5]]))))
    !! "name"
    = Some (redisDescription (example_scan localhost)).
Proof.
  assert (scanning localhost [StreamData ["a"]; ExecFulfilled 0 [reply 5]]
          = Some (example_scan localhost,
                  example_run localhost
                    [StreamData ["a"]; ExecFulfilled 0 [reply 5]]))
    as Hs by (apply example_scanning; vm_compute; reflexivity).
  assert (default ∅
            (head (key_records
                     (emitted (example_run localhost
                        [StreamData ["a"]; ExecFulfilled 0 [reply 5]]))))
          ∈ key_records
              (emitted (example_run localhost
                 [StreamData ["a"]; ExecFulfilled 0 [reply 5]])))
    as Hd
    by (apply head_default_elem, (decided _);
        vm_compute; reflexivity).
  split; [exact Hs|]. split; [exact Hd|].
  exact (proj1 (every_record_reports_a_scanned_key _ _ _ _ _ Hs Hd)).
Defined.

(** X16 at [--limit=0] *)
Lemma X16_witness :
  "limit" ∈ ["db"; "scan-batch"; "scan-limit"; "limit"; "pattern"; "debug"]
  ∧ truthy (VNum (Fin 0)) = false
  ∧ command_line_options (<["limit" := VNum (Fin 0)]> ∅)
      (VStr "localhost") (VNum (Fin 6379)) (VBool false)
    = command_line_options (delete "limit" ∅)
        (VStr "localhost") (VNum (Fin 6379)) (VBool false).
Proof.
  assert ("limit" ∈ ["db"; "scan-batch"; "scan-limit"; "limit"; "pattern";
                     "debug"]) as Hk
    by (apply (decided _); vm_compute; reflexivity).
  assert (truthy (VNum (Fin 0)) = false) as Hv by (vm_compute; reflexivity).
  split; [exact Hk|]. split; [exact Hv|].
  exact (a_falsy_argument_is_read_as_not_given
           ∅ "limit" (VNum (Fin 0)) (VStr "localhost") (VNum (Fin 6379))
           (VBool false) Hk Hv).
Defined.

(** X17 at the command line [localhost] *)
Lemma X17_witness :
  parseCommandLineAndScanKeys [VStr "localhost"] ∅
  = Listening
      (listening (parseCommandLineAndScanKeys [VStr "localhost"] ∅))
  ∧ (split ":" "localhost" = ["localhost"] →
     options (listening (parseCommandLineAndScanKeys [VStr "localhost"] ∅))
       !! "host" = Some (VStr "localhost")
     ∧ options (listening (parseCommandLineAndScanKeys [VStr "localhost"] ∅))
         !! "port"
       = Some (VNum (Fin (if truthy (master_of [VStr "localhost"])
                          then 26379 else 6379)))).
Proof.
  assert (parseCommandLineAndScanKeys [VStr "localhost"] ∅
          = Listening
              (listening (parseCommandLineAndScanKeys [VStr "localhost"] ∅)))
    as Hl by (apply Listening_listening; vm_compute; reflexivity).
  split; [exact Hl|].
  exact (proj1 (the_command_line_fills_in_the_default_port
                  "localhost" [] ∅ _ Hl) "localhost").
Defined.


(** * Scenarios of the further properties *)

(** Under [limit] 0 the first matching key is selected, and no other. *)
Example scenario_limit_zero :
  match
    scanning limit_zero
      [StreamData ["a"; "b"; "c"];
       ExecFulfilled 0 [reply 1; reply 2; reply 3]; StreamEnd]
  with
  | Some (c, s) =>
      emitted s
      = [EmitData (entry c "a" (VNum (Fin 1)) (VBool false));
         EmitData (summary c s); EmitEnd]
      ∧ summary c s !! "keysSelected" = Some (VNum (Fin 1))
  | None => False
  end.
Proof. vm_compute. split_and!; reflexivity. Qed.

(** The command line [localhost:6380 mymaster --no-expiry] starts a scanner
    that is named after the master and fetches the ttl; without a
    positional argument it ends in the usage text. *)
Example scenario_command_line :
  match
    parseCommandLineAndScanKeys [VStr "localhost:6380"; VStr "mymaster"]
      {[ "expiry" := VBool false ]}
  with
  | Listening c =>
      redisDescription c = VStr "mymaster"
      ∧ options c !! "port" = Some (VNum (Fin 6380))
      ∧ options c !! "noExpiry" = Some (VBool true)
      ∧ checkTTL c = true
  | _ => False
  end
  ∧ parseCommandLineAndScanKeys [] ∅ = Usage (Thrown HostRequired).
Proof. vm_compute. split_and!; reflexivity. Qed.
